(** * Electric_Field.py: field and potential of point charges on a grid

    A shallow embedding of [src/Electric_Field.py].  Python floats and
    numpy [float64] arrays are IEEE-754 binary64 numbers, modelled by Rocq's
    primitive [float] (round to nearest, ties to even, one NaN); arrays are
    lists of rows.  The numpy arrays and the [charges] list with its
    dictionaries live in an object heap, so that in-place updates
    ([Ex += ...], [r[r < 0.1] = 0.1]) and aliasing are visible.

    numpy and streamlit are libraries, not code of the repository: the
    array operations the source calls ([linspace], [meshgrid], [zeros],
    elementwise arithmetic, masked assignment) and the sidebar's widgets
    are written out below as these libraries define them.

    The file has the program first, then the vocabulary of the properties
    (the real value of a binary64 number and its rounding, magnitude
    bounds, the tolerance between two orders of summation), then the facts
    about binary64 arithmetic, and last the properties of the program. *)

From Stdlib Require Import ZArith List Bool Lia Floats Uint63 Permutation.
From Stdlib Require Import Reals Lra Psatz.
From stdpp Require Import base option list gmap strings.

Set Warnings "-inexact-float".

(** ** binary64 constants of the source *)

Module Consts.

(** [k = 8.99e9] (line 44); an integer below [2^53], hence exact. *)
Definition k : float := 8.99e9%float.

(** The literal [0.1] (line 58), i.e. the double [0x1.999999999999ap-4]. *)
Definition r_min : float := 0x1.999999999999ap-4%float.

(** The literal [0.01] (line 59), i.e. the double [0x1.47ae147ae147bp-7]. *)
Definition r2_min : float := 0x1.47ae147ae147bp-7%float.

End Consts.

(** ** numpy: the array operations the source calls *)

Module Numpy.

Abbreviation ndarray1 := (list float).
Abbreviation ndarray2 := (list (list float)).

(** Conversion of a Python [int] (a count below [2^63]) to [float64]. *)
Definition float_of_nat (n : nat) : float :=
  of_uint63 (Uint63.of_Z (Z.of_nat n)).

(** [np.arange(0, num)] as [float64]. *)
Definition arange (num : nat) : ndarray1 := map float_of_nat (seq 0 num).

(** [y[-1] = stop] on a 1-D array. *)
Definition set_last (y : ndarray1) (stop : float) : ndarray1 :=
  <[Nat.pred (length y) := stop]> y.

(** [np.linspace(start, stop, num)] with [endpoint=True], following numpy's
    implementation for scalar [float64] endpoints:
    [div = num - 1; delta = stop - start; y = arange(0, num)];
    when [div > 0], [step = delta / div] and [y = y * step], except that a
    zero step takes the path [y /= div; y = y * delta]; when [div <= 0],
    [y = y * delta]; then [y += start], and [y[-1] = stop] when [num > 1]. *)
Definition linspace (start stop : float) (num : nat) : ndarray1 :=
  let div := Nat.pred num in
  let delta := (stop - start)%float in
  let y := arange num in
  let y :=
    if (1 <? num)%nat then
      let step := (delta / float_of_nat div)%float in
      if (step =? 0)%float
      then map (fun v => (v / float_of_nat div * delta)%float) y
      else map (fun v => (v * step)%float) y
    else map (fun v => (v * delta)%float) y in
  let y := map (fun v => (v + start)%float) y in
  if (1 <? num)%nat then set_last y stop else y.

(** [np.meshgrid(x, y)] with the default [indexing='xy']:
    [X[i][j] = x[j]] and [Y[i][j] = y[i]], both of shape [(len y, len x)]. *)
Definition meshgrid (x y : ndarray1) : ndarray2 * ndarray2 :=
  (map (fun _ => x) y, map (fun yi => map (fun _ => yi) x) y).

(** [A.shape] of a 2-D array. *)
Definition shape (A : ndarray2) : nat * nat :=
  (length A, match A with [] => 0%nat | row :: _ => length row end).

(** [np.zeros(shape)]. *)
Definition zeros (s : nat * nat) : ndarray2 :=
  replicate (fst s) (replicate (snd s) 0%float).

(** An elementwise unary operation, and a scalar broadcast against an array. *)
Definition ew1 (f : float -> float) (A : ndarray2) : ndarray2 :=
  map (map f) A.

(** An elementwise binary operation on two arrays of the same shape. *)
Definition ew2 (f : float -> float -> float) (A B : ndarray2) : ndarray2 :=
  zip_with (zip_with f) A B.

(** [A ** 2]: numpy evaluates a power with the scalar exponent [2] as
    [np.square], one multiplication per element. *)
Definition square (A : ndarray2) : ndarray2 := ew1 (fun a => (a * a)%float) A.

(** The array after [A[A < t] = v]: the mask is false on NaN. *)
Definition where_lt (t v : float) (A : ndarray2) : ndarray2 :=
  ew1 (fun a => if (a <? t)%float then v else a) A.

(** [A[i][j]]. *)
Definition at2 (A : ndarray2) (i j : nat) : option float :=
  row ← A !! i; row !! j.

End Numpy.

(** ** The Python object heap *)

Module Py.

Abbreviation loc := positive.

(** A charge dictionary [{'q': q, 'x': x, 'y': y}] (line 32). *)
Record Charge : Type := mkCharge { q : float; x : float; y : float }.

Inductive object : Type :=
| ONdarray1 (a : Numpy.ndarray1)
| ONdarray2 (a : Numpy.ndarray2)
| ODict (c : Charge)
| OList (items : list loc).

Abbreviation heap := (gmap loc object).

(** Computations on the heap that may raise: [None] is an exception
    (a reference to no object, or to an object of the wrong type). *)
Definition M (A : Type) : Type := heap -> option (A * heap).

#[export] Instance M_ret : MRet M := fun A a h => Some (a, h).
#[export] Instance M_bind : MBind M := fun A B f m h =>
  match m h with
  | Some (a, h') => f a h'
  | None => None
  end.

Definition raise {A} : M A := fun _ => None.

(** A new object: it gets a reference no object of the heap has. *)
Definition alloc (o : object) : M loc := fun h =>
  let l := fresh (dom h) in Some (l, <[l := o]> h).

Definition read (l : loc) : M object := fun h =>
  match h !! l with
  | Some o => Some (o, h)
  | None => None
  end.

(** An in-place update of the object at [l]. *)
Definition write (l : loc) (o : object) : M unit := fun h =>
  match h !! l with
  | Some _ => Some (tt, <[l := o]> h)
  | None => None
  end.

Definition read1 (l : loc) : M Numpy.ndarray1 :=
  o ← read l; match o with ONdarray1 a => mret a | _ => raise end.

Definition read2 (l : loc) : M Numpy.ndarray2 :=
  o ← read l; match o with ONdarray2 a => mret a | _ => raise end.

Definition read_dict (l : loc) : M Charge :=
  o ← read l; match o with ODict c => mret c | _ => raise end.

Definition read_list (l : loc) : M (list loc) :=
  o ← read l; match o with OList ls => mret ls | _ => raise end.

(** [for v in items: body(v)] over the items of a list. *)
Fixpoint for_each {A} (items : list A) (body : A -> M unit) : M unit :=
  match items with
  | [] => mret tt
  | v :: rest => _ ← body v; for_each rest body
  end.

(** *** numpy calls as heap operations: each result is a new array *)

Definition np_linspace (start stop : float) (num : nat) : M loc :=
  alloc (ONdarray1 (Numpy.linspace start stop num)).

Definition np_meshgrid (lx ly : loc) : M (loc * loc) :=
  x ← read1 lx; y ← read1 ly;
  X ← alloc (ONdarray2 (fst (Numpy.meshgrid x y)));
  Y ← alloc (ONdarray2 (snd (Numpy.meshgrid x y)));
  mret (X, Y).

Definition np_shape (l : loc) : M (nat * nat) :=
  a ← read2 l; mret (Numpy.shape a).

Definition np_zeros (s : nat * nat) : M loc :=
  alloc (ONdarray2 (Numpy.zeros s)).

(** [A op c] and [c op A] with a scalar [c], and [f(A)]. *)
Definition np_ew1 (f : float -> float) (l : loc) : M loc :=
  a ← read2 l; alloc (ONdarray2 (Numpy.ew1 f a)).

(** [A op B]. *)
Definition np_ew2 (f : float -> float -> float) (la lb : loc) : M loc :=
  a ← read2 la; b ← read2 lb; alloc (ONdarray2 (Numpy.ew2 f a b)).

(** [A[A < t] = v]: writes into [A] itself. *)
Definition np_setitem_where_lt (l : loc) (t v : float) : M unit :=
  a ← read2 l; write l (ONdarray2 (Numpy.where_lt t v a)).

(** [A += B]: writes into [A] itself. *)
Definition np_iadd (la lb : loc) : M unit :=
  a ← read2 la; b ← read2 lb; write la (ONdarray2 (Numpy.ew2 PrimFloat.add a b)).

(** [l.append(v)]: writes into the list [l] itself. *)
Definition list_append (l v : loc) : M unit :=
  items ← read_list l; write l (OList (items ++ [v])).

(** The computation [m] started on the heap [h] returns, with a result and
    a final heap that satisfy [Q]. *)
Definition wp {A} (m : M A) (h : heap) (Q : A -> heap -> Prop) : Prop :=
  exists a h', m h = Some (a, h') /\ Q a h'.

End Py.

(** ** The source *)

Module ElectricField.
Import Py.

(** *** The sidebar (lines 19-32) *)

(** [default_x] and [default_q] of the loop body, for the loop index [i]
    (the charge shown as number [i + 1]). *)
Definition default_x (i : nat) : float :=
  if (i =? 0)%nat then (-2.0)%float else if (i =? 1)%nat then 2.0%float else 0.0%float.

Definition default_q (i : nat) : float :=
  if (i =? 0)%nat then 1.0%float else if (i =? 1)%nat then (-1.0)%float else 1.0%float.

(** The default of the [Y] number input is the literal [0.0]. *)
Definition default_y (i : nat) : float := 0.0%float.

(** A slider or number input: the value the user entered when it lies in
    [[lo, hi]], else the widget's default.  A value outside the range is
    not accepted and not clamped: the widget falls back to its default. *)
Definition widget (lo hi default : float) (entered : option float) : float :=
  match entered with
  | Some v => if ((lo <=? v) && (v <=? hi))%float then v else default
  | None => default
  end.

(** What the user entered for charge [i]: magnitude, x and y. *)
Definition inputs := nat -> option float * option float * option float.

(** The [charges] list built by the loop of lines 21-32. *)
Definition collect_charges (num_charges : nat) (ui : inputs) : list Charge :=
  map (fun i =>
         let '(uq, ux, uy) := ui i in
         {| q := widget (-5.0) 5.0 (default_q i) uq;
            x := widget (-5.0) 5.0 (default_x i) ux;
            y := widget (-5.0) 5.0 (default_y i) uy |})
      (seq 0 num_charges).

(** Nothing entered: every widget shows its default. *)
Definition untouched : inputs := fun _ => (None, None, None).

(** A magnitude or coordinate inside the widgets' range [[-5, 5]], and a
    charge whose three fields are. *)
Definition in_range (v : float) : bool := ((-5 <=? v) && (v <=? 5))%float.

Definition charge_in_range (c : Charge) : Prop :=
  in_range (q c) = true /\ in_range (x c) = true /\ in_range (y c) = true.

(** The slider of line 19: the integer the user chose when it lies in
    [[lo, hi]], else the default. *)
Definition int_slider (lo hi default : nat) (entered : option nat) : nat :=
  match entered with
  | Some n => if ((lo <=? n) && (n <=? hi))%nat then n else default
  | None => default
  end.

(** The body of [for i in range(num_charges)] (lines 23-32): the three
    widgets are read and a new dictionary is appended to [charges]. *)
Definition sidebar_body (charges : loc) (ui : inputs) (i : nat) : M unit :=
  let '(uq, ux, uy) := ui i in
  let q := widget (-5.0) 5.0 (default_q i) uq in
  let x := widget (-5.0) 5.0 (default_x i) ux in
  let y := widget (-5.0) 5.0 (default_y i) uy in
  d ← alloc (ODict {| q := q; x := x; y := y |});
  list_append charges d.

(** Lines 21-32: [charges = []] and the loop. *)
Definition build_charges (num_charges : nat) (ui : inputs) : M loc :=
  charges ← alloc (OList []);
  _ ← for_each (seq 0 num_charges) (sidebar_body charges ui);
  mret charges.

(** *** The evaluator (lines 36-69) *)

(** The body of [for charge in charges] (lines 47-67). *)
Definition loop_body (X Y Ex Ey V : loc) (k : float) (charge : loc) : M unit :=
  c ← read_dict charge;
  let q := q c in
  let xc := x c in
  let yc := y c in
  dx ← np_ew1 (fun v => (v - xc)%float) X;
  dy ← np_ew1 (fun v => (v - yc)%float) Y;
  dx2 ← np_ew1 (fun v => (v * v)%float) dx;
  dy2 ← np_ew1 (fun v => (v * v)%float) dy;
  r2 ← np_ew2 PrimFloat.add dx2 dy2;
  r ← np_ew1 PrimFloat.sqrt r2;
  _ ← np_setitem_where_lt r Consts.r_min Consts.r_min;
  _ ← np_setitem_where_lt r2 Consts.r2_min Consts.r2_min;
  E_mag ← np_ew1 (fun v => (k * q / v)%float) r2;
  ux ← np_ew2 PrimFloat.div dx r;
  cx ← np_ew2 PrimFloat.mul E_mag ux;
  _ ← np_iadd Ex cx;
  uy ← np_ew2 PrimFloat.div dy r;
  cy ← np_ew2 PrimFloat.mul E_mag uy;
  _ ← np_iadd Ey cy;
  cv ← np_ew1 (fun v => (k * q / v)%float) r;
  np_iadd V cv.

Definition calculate_field_and_potential
    (charges : loc) (grid_size : nat) (range_val : float)
  : M (loc * loc * loc * loc * loc) :=
  x ← np_linspace (- range_val)%float range_val grid_size;
  y ← np_linspace (- range_val)%float range_val grid_size;
  '(X, Y) ← np_meshgrid x y;
  sX ← np_shape X;
  Ex ← np_zeros sX;
  sY ← np_shape Y;
  Ey ← np_zeros sY;
  sV ← np_shape X;
  V ← np_zeros sV;
  let k := Consts.k in
  items ← read_list charges;
  _ ← for_each items (loop_body X Y Ex Ey V k);
  mret (X, Y, Ex, Ey, V).

(** *** The script up to the call of the evaluator *)

(** Lines 19-32 and 74-75, and no more: the sidebar is read, then the
    evaluator is called with [grid_size=100] and [range_val = 5].  The
    result is the [charges] list and the five arrays.  What the script does
    with them afterwards (the percentile of line 81 and the plotting of
    lines 83-105, where the plotting library may raise) is not part of this
    definition. *)
Definition sidebar_then_call (entered_n : option nat) (ui : inputs)
  : M (loc * (loc * loc * loc * loc * loc)) :=
  let num_charges := int_slider 1 5 2 entered_n in
  charges ← build_charges num_charges ui;
  let range_val := 5%float in
  r ← calculate_field_and_potential charges 100 range_val;
  mret (charges, r).

(** Line 82: the contour levels, from the [v_max] of line 81. *)
Definition levels (v_max : float) : Numpy.ndarray1 :=
  Numpy.linspace (- v_max)%float v_max 40.

(** Lines 89-90: the colour of a charge's marker. *)
Definition marker_color (q : float) : string :=
  let color := if (0 <? q)%float then "red" else "blue" in
  if (q =? 0)%float then "gray" else color.

End ElectricField.

(** ** The algorithm as the specification words it (section 4.2) *)

Module Spec.
Import Py.

(** Step 1: the coordinate arrays, a full 2-D mesh of [G] linearly spaced
    samples over [[-R, R]] in each axis. *)
Definition grid (G : nat) (R : float) : Numpy.ndarray2 * Numpy.ndarray2 :=
  Numpy.meshgrid (Numpy.linspace (- R)%float R G) (Numpy.linspace (- R)%float R G).

(** Step 3 for one charge [(q, xc, yc)]: the arrays [Ex, Ey, V] after its
    contribution has been accumulated. *)
Definition add_charge (X Y : Numpy.ndarray2)
    (acc : Numpy.ndarray2 * Numpy.ndarray2 * Numpy.ndarray2) (c : Charge)
  : Numpy.ndarray2 * Numpy.ndarray2 * Numpy.ndarray2 :=
  let '(Ex, Ey, V) := acc in
  let dx := Numpy.ew1 (fun v => (v - x c)%float) X in
  let dy := Numpy.ew1 (fun v => (v - y c)%float) Y in
  let r2 := Numpy.ew2 PrimFloat.add (Numpy.square dx) (Numpy.square dy) in
  let r := Numpy.ew1 PrimFloat.sqrt r2 in
  let r := Numpy.where_lt Consts.r_min Consts.r_min r in
  let r2 := Numpy.where_lt Consts.r2_min Consts.r2_min r2 in
  let E_mag := Numpy.ew1 (fun v => (Consts.k * q c / v)%float) r2 in
  (Numpy.ew2 PrimFloat.add Ex (Numpy.ew2 PrimFloat.mul E_mag (Numpy.ew2 PrimFloat.div dx r)),
   Numpy.ew2 PrimFloat.add Ey (Numpy.ew2 PrimFloat.mul E_mag (Numpy.ew2 PrimFloat.div dy r)),
   Numpy.ew2 PrimFloat.add V (Numpy.ew1 (fun v => (Consts.k * q c / v)%float) r)).

(** Steps 1 to 4. *)
Definition field_and_potential (charges : list Charge) (G : nat) (R : float)
  : Numpy.ndarray2 * Numpy.ndarray2 * Numpy.ndarray2 * Numpy.ndarray2 * Numpy.ndarray2 :=
  let '(X, Y) := grid G R in
  let zero := Numpy.zeros (Numpy.shape X) in
  let '(Ex, Ey, V) := fold_left (add_charge X Y) charges (zero, zero, zero) in
  (X, Y, Ex, Ey, V).

(** *** The same, one grid point at a time *)

(** The distance of the point [(px, py)] from the charge at [(xc, yc)] as
    the source computes it, before the clamp. *)
Definition dist2 (xc yc px py : float) : float :=
  ((px - xc) * (px - xc) + (py - yc) * (py - yc))%float.

Definition dist (xc yc px py : float) : float := PrimFloat.sqrt (dist2 xc yc px py).

(** The singularity guard: [r] is raised to [0.1], [r2] to [0.01]. *)
Definition clamp_r (r : float) : float :=
  if (r <? Consts.r_min)%float then Consts.r_min else r.

Definition clamp_r2 (r2 : float) : float :=
  if (r2 <? Consts.r2_min)%float then Consts.r2_min else r2.

(** What one charge adds to [Ex], [Ey] and [V] at the point [(px, py)]. *)
Definition E_mag (c : Charge) (px py : float) : float :=
  (Consts.k * q c / clamp_r2 (dist2 (x c) (y c) px py))%float.

Definition Ex_of (c : Charge) (px py : float) : float :=
  (E_mag c px py * ((px - x c) / clamp_r (dist (x c) (y c) px py)))%float.

Definition Ey_of (c : Charge) (px py : float) : float :=
  (E_mag c px py * ((py - y c) / clamp_r (dist (x c) (y c) px py)))%float.

Definition V_of (c : Charge) (px py : float) : float :=
  (Consts.k * q c / clamp_r (dist (x c) (y c) px py))%float.

(** The superposition at one point: the contributions are added to [0.0]
    one charge after the other, in list order. *)
Definition superpose (f : Charge -> float -> float -> float)
    (charges : list Charge) (px py : float) : float :=
  fold_left (fun acc c => (acc + f c px py)%float) charges 0%float.


(** The array whose entry in row [i], column [j] is [f (xs[j]) (ys[i])]. *)
Definition tabulate (xs ys : list float) (f : float -> float -> float) : Numpy.ndarray2 :=
  map (fun yi => map (fun xj => f xj yi) xs) ys.

End Spec.

(** ** Reading arguments and results back from the heap *)

Module View.
Import Py.

Definition arrays : Type :=
  Numpy.ndarray2 * Numpy.ndarray2 * Numpy.ndarray2 * Numpy.ndarray2 * Numpy.ndarray2.

Definition get_dict (h : heap) (l : loc) : option Charge :=
  match h !! l with Some (ODict c) => Some c | _ => None end.

Definition get_array (h : heap) (l : loc) : option Numpy.ndarray2 :=
  match h !! l with Some (ONdarray2 a) => Some a | _ => None end.

(** The value of a [charges] argument: the dictionaries its list refers to,
    in list order. *)
Definition load_charges (h : heap) (charges : loc) : option (list Charge) :=
  match h !! charges with
  | Some (OList items) => mapM (get_dict h) items
  | _ => None
  end.

(** The five arrays a returned tuple refers to. *)
Definition load_arrays (h : heap) (r : loc * loc * loc * loc * loc) : option arrays :=
  let '(X, Y, Ex, Ey, V) := r in
  X ← get_array h X; Y ← get_array h Y;
  Ex ← get_array h Ex; Ey ← get_array h Ey; V ← get_array h V;
  Some (X, Y, Ex, Ey, V).

(** The call [calculate_field_and_potential(charges, grid_size, range_val)]
    on the heap [h] returns, leaves the heap [h'], and its result refers to
    the arrays [out]. *)
Definition returns (h : heap) (charges : loc) (grid_size : nat) (range_val : float)
    (h' : heap) (out : arrays) : Prop :=
  exists r, ElectricField.calculate_field_and_potential charges grid_size range_val h
            = Some (r, h')
            /\ load_arrays h' r = Some out.

(** A heap holding just a [charges] list: dictionary [i] at reference
    [i + 1], the list after them. *)
Definition store_charges (cs : list Charge) : heap * loc :=
  let dicts := imap (fun i c => (Pos.of_succ_nat i, ODict c)) cs in
  let items := imap (fun i _ => Pos.of_succ_nat i) cs in
  let l := Pos.of_succ_nat (length cs) in
  (<[l := OList items]> (list_to_map dicts), l).

End View.

(** ** Real-number semantics of binary64

    The operations of [SpecFloat] round an exact result, given as an integer
    [m], an exponent [e] and the place of the exact value between [m * 2^e]
    and [(m+1) * 2^e], to nearest with ties to even.  The definitions below
    say what that means on real numbers. *)

Module B64.
Local Open Scope R_scope.

Definition bpow (e : Z) : R := powerRZ 2 e.

Definition F2R (m e : Z) : R := IZR m * bpow e.

(** ** Locations: where a real sits between two consecutive multiples *)

Definition loc_ok (d u x : R) (l : location) : Prop :=
  match l with
  | loc_Exact => x = d
  | loc_Inexact Lt => d < x < (d + u) / 2
  | loc_Inexact Eq => x = (d + u) / 2
  | loc_Inexact Gt => (d + u) / 2 < x < u
  end.

(** [x] lies in [[m * 2^e, (m+1) * 2^e)], at the place [l] says. *)
Definition inb (m e : Z) (x : R) (l : location) : Prop :=
  loc_ok (F2R m e) (F2R (m + 1) e) x l.

(** ** The binary64 format *)

Abbreviation fexp := (SpecFloat.fexp prec emax).
Definition emin : Z := -1074.

(** [E] is the exponent of the unit in the last place around [x >= 0]. *)
Definition cexp_rel (x : R) (E : Z) : Prop :=
  (E = emin /\ x < bpow (emin + 53))
  \/ ((emin < E)%Z /\ bpow (E + 52) <= x < bpow (E + 53)).

(** ** Rounding to nearest, ties to even, of [x / 2^E] *)

Definition rne_rel (x : R) (E M : Z) : Prop :=
  F2R (2 * M - 1) E <= 2 * x <= F2R (2 * M + 1) E
  /\ (2 * x = F2R (2 * M - 1) E \/ 2 * x = F2R (2 * M + 1) E -> Z.even M = true).

(** ** The result of a rounding, from its integer [M] and exponent [E] *)

Definition norm (M E : Z) : Z * Z :=
  if (M =? 2 ^ 53)%Z then (2 ^ 52, E + 1)%Z else (M, E).

Definition pack (s : bool) (M E : Z) : spec_float :=
  let '(M', E') := norm M E in
  match M' with
  | Z0 => S754_zero s
  | Zpos m => if (E' <=? 971)%Z then S754_finite s m E' else S754_infinity s
  | Zneg _ => S754_nan
  end.

(** [r] is the float the operations return for the exact result [x >= 0]
    with the sign [s]. *)
Definition Rnd (s : bool) (x : R) (r : spec_float) : Prop :=
  exists M E, cexp_rel x E /\ rne_rel x E M /\ r = pack s M E.

(** ** Real values of floats *)

Definition SF2R (f : spec_float) : R :=
  match f with
  | S754_finite s m e => F2R (cond_Zopp s (Zpos m)) e
  | _ => 0
  end.

(** The float for a signed exact result [v]. *)
Definition Rnd_signed (v : R) (r : spec_float) : Prop :=
  (v = 0 /\ r = S754_zero false)
  \/ (0 < v /\ Rnd false v r)
  \/ (v < 0 /\ Rnd true (- v) r).

(** ** Comparison of valid floats is comparison of their values *)

Definition is_fin (f : spec_float) : Prop :=
  match f with
  | S754_zero _ | S754_finite _ _ _ => True
  | _ => False
  end.

(** ** Results are never NaN when the integer to round is not negative *)

Definition signed (s : bool) (r : spec_float) : Prop :=
  match r with
  | S754_zero s' | S754_infinity s' | S754_finite s' _ _ => s' = s
  | S754_nan => False
  end.

(** ** Magnitude bounds through the operations *)

(** [f] is zero or finite, of magnitude at most [2^B]. *)
Definition SFBnd (B : Z) (f : spec_float) : Prop :=
  is_fin f /\ Rabs (SF2R f) <= bpow B.

(** [f] is infinite, or finite of magnitude at least [2^c]. *)
Definition SFLow (c : Z) (f : spec_float) : Prop :=
  match f with
  | S754_finite _ m e => bpow c <= F2R (Zpos m) e
  | S754_infinity _ => True
  | _ => False
  end.

(** Sums and differences of valid floats, whatever the operands. *)
Definition Rnd_any (v : R) (r : spec_float) : Prop :=
  (v = 0 /\ exists s, r = S754_zero s)
  \/ (0 < v /\ Rnd false v r)
  \/ (v < 0 /\ Rnd true (- v) r).

(** ** The same on primitive floats *)

Definition B2R (x : float) : R := SF2R (Prim2SF x).

(** [x] is zero or finite and [|x| <= 2^B]. *)
Definition Bnd (B : Z) (x : float) : Prop := SFBnd B (Prim2SF x).

(** [x] is infinite, or finite with [|x| >= 2^c]. *)
Definition Low (c : Z) (x : float) : Prop := SFLow c (Prim2SF x).

(** [x] is [+0], a positive finite number or [+oo]. *)
Definition nonneg (x : float) : Prop := signed false (Prim2SF x).

(** [x] is [+0] or [-0]. *)
Definition zero (x : float) : Prop := exists s, Prim2SF x = S754_zero s.

End B64.

(** * Vocabulary of the properties *)

(** ** The invariant of the loop over the charges

    Between two iterations the heap [h] extends the heap [hb] of the call,
    [X] and [Y] hold the mesh, and [Ex], [Ey], [V], allocated by the call
    and pairwise distinct, hold the accumulators [acc]. *)

Module Inv.
Import Py.

Section Body.
Variables (hb : heap) (X Y Ex Ey V : loc) (Xv Yv : Numpy.ndarray2).

Record inv (h : heap) (acc : Numpy.ndarray2 * Numpy.ndarray2 * Numpy.ndarray2) : Prop := {
  inv_sub : hb ⊆ h;
  inv_X : h !! X = Some (ONdarray2 Xv);
  inv_Y : h !! Y = Some (ONdarray2 Yv);
  inv_Ex : h !! Ex = Some (ONdarray2 (acc.1.1));
  inv_Ey : h !! Ey = Some (ONdarray2 (acc.1.2));
  inv_V : h !! V = Some (ONdarray2 (acc.2));
  inv_new : hb !! Ex = None /\ hb !! Ey = None /\ hb !! V = None;
  inv_ne : Ex <> Ey /\ Ex <> V /\ Ey <> V /\ X <> Ex /\ X <> Ey /\ X <> V
           /\ Y <> Ex /\ Y <> Ey /\ Y <> V
}.

End Body.

End Inv.

(** ** Shapes *)

Module Shape.

(** [A] has [m] rows of [n] entries each. *)
Definition has_shape (A : Numpy.ndarray2) (m n : nat) : Prop :=
  length A = m /\ Forall (fun row => length row = n) A.

(** Entries that strictly increase along a list. *)
Fixpoint increasing (l : list float) : bool :=
  match l with
  | a :: (b :: _) as rest => (a <? b)%float && increasing rest
  | _ => true
  end.

End Shape.

(** ** What the sidebar builds *)

Module Entered.
Import ElectricField.

(** The dictionary the sidebar builds for charge [i]. *)
Definition charge_of (ui : inputs) (i : nat) : Py.Charge :=
  let '(uq, ux, uy) := ui i in
  {| Py.q := widget (-5.0) 5.0 (default_q i) uq;
     Py.x := widget (-5.0) 5.0 (default_x i) ux;
     Py.y := widget (-5.0) 5.0 (default_y i) uy |}.

End Entered.

(** ** Running examples *)

Module Examples.
Import Py View.

(** The dipole of the sidebar's defaults, stored in a heap. *)
Definition dipole : list Charge :=
  [ {| q := 1; x := -2; y := 0 |}; {| q := -1; x := 2; y := 0 |} ].

Definition dipole_heap : heap := fst (store_charges dipole).
Definition dipole_loc : loc := snd (store_charges dipole).

(** A second heap for the same dipole: other references, and an unrelated
    array in between. *)
Definition dipole_heap' : heap :=
  <[9%positive := OList [7%positive; 4%positive]]>
    (<[7%positive := ODict {| q := 1; x := -2; y := 0 |}]>
       (<[5%positive := ONdarray1 [1%float; 2%float]]>
          (<[4%positive := ODict {| q := -1; x := 2; y := 0 |}]> ∅))).

(** The dipole in the other order, with a charge of magnitude zero in
    between, and a single unit charge at the origin. *)
Definition dipole_swapped : list Charge :=
  [ {| q := -1; x := 2; y := 0 |}; {| q := 1; x := -2; y := 0 |} ].

Definition with_zero_charge : list Charge :=
  [ {| q := 1; x := -2; y := 0 |}; {| q := 0; x := 1; y := 1 |}; {| q := -1; x := 2; y := 0 |} ].

Definition unit_charge : list Charge := [ {| q := 1; x := 0; y := 0 |} ].

(** The dipole with both signs flipped. *)
Definition dipole_negated : list Charge :=
  [ {| q := -1; x := -2; y := 0 |}; {| q := 1; x := 2; y := 0 |} ].

(** Two charges of magnitude zero. *)
Definition null_charges : list Charge :=
  [ {| q := 0; x := -2; y := 0 |}; {| q := 0; x := 2; y := 0 |} ].

(** The sidebar's defaults for three charges, and the same in reverse. *)
Definition three_defaults : list Charge :=
  [ {| q := 1; x := -2; y := 0 |}; {| q := -1; x := 2; y := 0 |}; {| q := 1; x := 0; y := 0 |} ].

Definition three_reversed : list Charge :=
  [ {| q := 1; x := 0; y := 0 |}; {| q := -1; x := 2; y := 0 |}; {| q := 1; x := -2; y := 0 |} ].

End Examples.

(** ** Charges of opposite sign *)

Module Symmetry.
Import Py B64.

(** The charge [c] with the sign of its magnitude flipped. *)
Definition negate (c : Charge) : Charge := {| q := (- q c)%float; x := x c; y := y c |}.

(** [a'] is the opposite of [a], up to the sign of a zero. *)
Definition mirror (a a' : float) : Prop :=
  a' = (- a)%float \/ (zero a /\ zero a').

(** Wherever [A] has an entry, [A'] has one: both are finite, and their
    values are opposite. *)
Definition opposite_entries (A A' : Numpy.ndarray2) : Prop :=
  forall i j v, Numpy.at2 A i j = Some v ->
    exists v', Numpy.at2 A' i j = Some v'
      /\ is_finite v = true /\ is_finite v' = true /\ B2R v' = (- B2R v)%R.

End Symmetry.

(** ** Agreement within a floating-point tolerance *)

Module Tolerance.
Import Py B64.

(** The exact sum of a list of reals; the exact superposition of the
    contributions [f] of the charges at a point, and the sum of their
    magnitudes. *)
Definition Rsum (l : list R) : R := fold_right Rplus 0%R l.

Definition exact_sum (f : Charge -> float -> float -> float)
    (cs : list Charge) (px py : float) : R :=
  Rsum (map (fun c => B2R (f c px py)) cs).

Definition abs_sum (f : Charge -> float -> float -> float)
    (cs : list Charge) (px py : float) : R :=
  Rsum (map (fun c => Rabs (B2R (f c px py))) cs).

(** What [n] roundings to nearest can add up to, relative to the sum of the
    magnitudes, and the tolerance between two orders of summation. *)
Definition drift (n : nat) : R := ((1 + bpow (-53)) ^ n - 1)%R.

Definition tolerance (n : nat) : R := (2 * drift n)%R.

(** Two entries agree within the tolerance: both are finite numbers, and
    their difference is at most [tolerance n] times the sum of the
    magnitudes of the [n] contributions. *)
Definition agree (f : Charge -> float -> float -> float) (cs : list Charge)
    (px py : float) (a a' : option float) : Prop :=
  exists v v', a = Some v /\ a' = Some v'
    /\ is_finite v = true /\ is_finite v' = true
    /\ (Rabs (B2R v - B2R v') <= tolerance (length cs) * abs_sum f cs px py)%R.

(** The largest potential the guard lets the charges produce at a point:
    the sum of [k * |q| / 0.1] over the charges, as a real number. *)
Definition cap_sum (cs : list Charge) : R :=
  Rsum (map (fun c => B2R (Consts.k * abs (q c) / Consts.r_min)%float) cs).

End Tolerance.

(** * Facts about binary64 arithmetic *)

Module B64Facts.
Import B64.
Local Open Scope R_scope.

Lemma bpow_gt_0 e : 0 < bpow e.
Proof. apply powerRZ_lt. lra. Qed.

Lemma bpow_plus e1 e2 : bpow (e1 + e2) = bpow e1 * bpow e2.
Proof. apply powerRZ_add. lra. Qed.

Lemma bpow_0 : bpow 0 = 1.
Proof. reflexivity. Qed.

Lemma bpow_1 : bpow 1 = 2.
Proof. unfold bpow. simpl. lra. Qed.

Lemma bpow_succ e : bpow (e + 1) = 2 * bpow e.
Proof. rewrite bpow_plus, bpow_1. lra. Qed.

Lemma bpow_pred e : bpow (e - 1) = bpow e / 2.
Proof.
  replace e with ((e - 1) + 1)%Z at 2 by lia. rewrite bpow_succ. lra.
Qed.

Lemma bpow_le e1 e2 : (e1 <= e2)%Z -> bpow e1 <= bpow e2.
Proof.
  intros H. replace e2 with (e1 + Z.of_nat (Z.to_nat (e2 - e1)))%Z by lia.
  generalize (Z.to_nat (e2 - e1)). intros n. induction n as [|n IH].
  - rewrite Z.add_0_r. lra.
  - rewrite Nat2Z.inj_succ. unfold Z.succ. rewrite Z.add_assoc, bpow_succ.
    pose proof (bpow_gt_0 (e1 + Z.of_nat n)). lra.
Qed.

Lemma bpow_lt e1 e2 : (e1 < e2)%Z -> bpow e1 < bpow e2.
Proof.
  intros H. apply Rlt_le_trans with (bpow (e1 + 1)).
  - rewrite bpow_succ. pose proof (bpow_gt_0 e1). lra.
  - apply bpow_le. lia.
Qed.

Lemma bpow_lt_inv e1 e2 : bpow e1 < bpow e2 -> (e1 < e2)%Z.
Proof.
  intros H. destruct (Z_lt_le_dec e1 e2) as [|Hle]; [assumption|].
  apply bpow_le in Hle. lra.
Qed.

Lemma bpow_le_inv e1 e2 : bpow e1 <= bpow e2 -> (e1 <= e2)%Z.
Proof.
  intros H. destruct (Z_lt_le_dec e2 e1) as [Hlt|]; [|assumption].
  apply bpow_lt in Hlt. lra.
Qed.

Lemma bpow_IZR e : (0 <= e)%Z -> bpow e = IZR (2 ^ e).
Proof.
  intros H. rewrite <- (Z2Nat.id e H). generalize (Z.to_nat e). intros n.
  unfold bpow. rewrite <- pow_powerRZ, pow_IZR. reflexivity.
Qed.

Lemma F2R_0 e : F2R 0 e = 0.
Proof. unfold F2R. lra. Qed.

Lemma F2R_le m1 m2 e : (m1 <= m2)%Z -> F2R m1 e <= F2R m2 e.
Proof.
  intros H. unfold F2R. apply Rmult_le_compat_r.
  - left. apply bpow_gt_0.
  - apply IZR_le. exact H.
Qed.

Lemma F2R_lt m1 m2 e : (m1 < m2)%Z -> F2R m1 e < F2R m2 e.
Proof.
  intros H. unfold F2R. apply Rmult_lt_compat_r.
  - apply bpow_gt_0.
  - apply IZR_lt. exact H.
Qed.

Lemma F2R_lt_inv m1 m2 e : F2R m1 e < F2R m2 e -> (m1 < m2)%Z.
Proof.
  intros H. destruct (Z_lt_le_dec m1 m2) as [|Hle]; [assumption|].
  apply (F2R_le _ _ e) in Hle. lra.
Qed.

Lemma F2R_le_inv m1 m2 e : F2R m1 e <= F2R m2 e -> (m1 <= m2)%Z.
Proof.
  intros H. destruct (Z_lt_le_dec m2 m1) as [Hlt|]; [|assumption].
  apply (F2R_lt _ _ e) in Hlt. lra.
Qed.

Lemma F2R_shift m e k : (0 <= k)%Z -> F2R (m * 2 ^ k) e = F2R m (e + k).
Proof.
  intros H. unfold F2R. rewrite mult_IZR, bpow_plus, <- bpow_IZR by exact H. ring.
Qed.

Lemma F2R_succ_exp m e : F2R m (e + 1) = F2R (2 * m) e.
Proof. unfold F2R. rewrite mult_IZR, bpow_succ. ring. Qed.

Lemma F2R_plus m1 m2 e : F2R (m1 + m2) e = F2R m1 e + F2R m2 e.
Proof. unfold F2R. rewrite plus_IZR. ring. Qed.

(** Number of binary digits. *)
Lemma digits2_size p : digits2_pos p = Pos.size p.
Proof. induction p; simpl; congruence. Qed.

Lemma digits2_bounds p :
  (2 ^ (Zpos (digits2_pos p) - 1) <= Zpos p < 2 ^ Zpos (digits2_pos p))%Z.
Proof.
  rewrite digits2_size. split.
  - pose proof (Pos.size_le p) as H.
    assert (Hs : (2 ^ Zpos (Pos.size p) <= 2 * Zpos p)%Z).
    { rewrite <- Pos2Z.inj_pow. change (2 * Zpos p)%Z with (Zpos p~0). exact H. }
    replace (Zpos (Pos.size p)) with (Zpos (Pos.size p) - 1 + 1)%Z in Hs by lia.
    rewrite Z.pow_add_r in Hs by lia. lia.
  - pose proof (Pos.size_gt p) as H. rewrite <- Pos2Z.inj_pow. exact H.
Qed.

Lemma digits2_bpow p :
  bpow (Zpos (digits2_pos p) - 1) <= IZR (Zpos p) < bpow (Zpos (digits2_pos p)).
Proof.
  destruct (digits2_bounds p) as [H1 H2].
  rewrite !bpow_IZR by lia. split; [apply IZR_le | apply IZR_lt]; assumption.
Qed.

Lemma inb_bounds m e x l : inb m e x l -> F2R m e <= x < F2R (m + 1) e.
Proof.
  unfold inb. pose proof (F2R_lt m (m + 1) e ltac:(lia)).
  destruct l as [|[| |]]; simpl; lra.
Qed.

Lemma loc_of_shr_record_of_loc m l :
  loc_of_shr_record (shr_record_of_loc m l) = l.
Proof. destruct l as [|[| |]]; reflexivity. Qed.

Lemma shr_m_record_of_loc m l : shr_m (shr_record_of_loc m l) = m.
Proof. destruct l as [|[| |]]; reflexivity. Qed.

Lemma shr_1_inb mrs e x :
  (0 <= shr_m mrs)%Z ->
  inb (shr_m mrs) e x (loc_of_shr_record mrs) ->
  inb (shr_m (shr_1 mrs)) (e + 1) x (loc_of_shr_record (shr_1 mrs))
  /\ (0 <= shr_m (shr_1 mrs))%Z
  /\ shr_m (shr_1 mrs) = (shr_m mrs / 2)%Z.
Proof.
  destruct mrs as [m r s]. cbn [shr_m]. intros Hm H.
  assert (Hcase : (exists p, m = 2 * p /\ 0 <= p)%Z \/ (exists p, m = 2 * p + 1 /\ 0 <= p)%Z).
  { pose proof (Z.div_mod m 2 ltac:(lia)) as Hd.
    pose proof (Z.mod_pos_bound m 2 ltac:(lia)) as Hb.
    destruct (Z.eq_dec (m mod 2)%Z 0%Z) as [E|E]; [left|right]; exists (m / 2)%Z; lia. }
  unfold inb in *. rewrite !F2R_succ_exp.
  destruct Hcase as [(p & -> & Hp)|(p & -> & Hp)].
  - assert (Hs : shr_1 {| shr_m := 2 * p; shr_r := r; shr_s := s |}
                 = {| shr_m := p; shr_r := false; shr_s := r || s |}).
    { destruct p as [|p|p]; [reflexivity|reflexivity|lia]. }
    rewrite Hs. cbn [shr_m]. split; [|split; [lia|]].
    2: { apply Z.div_unique with 0%Z; lia. }
    + replace (2 * (p + 1))%Z with (2 * p + 1 + 1)%Z by lia.
      pose proof (F2R_plus (2 * p) 1 e). pose proof (F2R_plus (2 * p + 1) 1 e).
      pose proof (bpow_gt_0 e). assert (F2R 1 e = bpow e) by (unfold F2R; lra).
      destruct r, s; simpl in *; lra.
  - assert (Hs : shr_1 {| shr_m := 2 * p + 1; shr_r := r; shr_s := s |}
                 = {| shr_m := p; shr_r := true; shr_s := r || s |}).
    { destruct p as [|p|p]; [reflexivity|reflexivity|lia]. }
    rewrite Hs. cbn [shr_m]. split; [|split; [lia|]].
    + replace (2 * (p + 1))%Z with (2 * p + 1 + 1)%Z by lia.
      pose proof (F2R_plus (2 * p) 1 e). pose proof (F2R_plus (2 * p + 1) 1 e).
      pose proof (bpow_gt_0 e). assert (F2R 1 e = bpow e) by (unfold F2R; lra).
      destruct r, s; simpl in *; lra.
    + apply Z.div_unique with 1%Z; lia.
Qed.

Lemma iter_shr_1_inb n : forall mrs e x,
  (0 <= shr_m mrs)%Z ->
  inb (shr_m mrs) e x (loc_of_shr_record mrs) ->
  let mrs' := SpecFloat.iter_pos shr_1 n mrs in
  inb (shr_m mrs') (e + Zpos n) x (loc_of_shr_record mrs')
  /\ (0 <= shr_m mrs')%Z
  /\ shr_m mrs' = (shr_m mrs / 2 ^ Zpos n)%Z.
Proof.
  induction n as [n IH|n IH|]; intros mrs e x Hm H; cbv zeta in *; cbn [SpecFloat.iter_pos].
  - destruct (shr_1_inb mrs e x Hm H) as (H1 & Hm1 & E1).
    destruct (IH _ _ _ Hm1 H1) as (H2 & Hm2 & E2).
    destruct (IH _ _ _ Hm2 H2) as (H3 & Hm3 & E3).
    split; [|split; [exact Hm3|]].
    + replace (e + Zpos n~1)%Z with (e + 1 + Zpos n + Zpos n)%Z by lia. exact H3.
    + rewrite E3, E2, E1.
      replace (Zpos n~1) with (1 + Zpos n + Zpos n)%Z by lia.
      rewrite !Z.pow_add_r by lia.
      assert (0 < 2 ^ Zpos n)%Z by (apply Z.pow_pos_nonneg; lia).
      rewrite !Z.div_div by lia. f_equal; lia.
  - destruct (IH _ _ _ Hm H) as (H2 & Hm2 & E2).
    destruct (IH _ _ _ Hm2 H2) as (H3 & Hm3 & E3).
    split; [|split; [exact Hm3|]].
    + replace (e + Zpos n~0)%Z with (e + Zpos n + Zpos n)%Z by lia. exact H3.
    + rewrite E3, E2.
      replace (Zpos n~0) with (Zpos n + Zpos n)%Z by lia.
      rewrite !Z.pow_add_r by lia.
      assert (0 < 2 ^ Zpos n)%Z by (apply Z.pow_pos_nonneg; lia).
      rewrite !Z.div_div by lia. f_equal; lia.
  - destruct (shr_1_inb mrs e x Hm H) as (H1 & Hm1 & E1).
    split; [exact H1|split; [exact Hm1|]]. rewrite E1. reflexivity.
Qed.

(** The mantissa alone: it is divided by [2^n], whatever the location. *)
Lemma iter_shr_1_m n : forall mrs,
  (0 <= shr_m mrs)%Z ->
  shr_m (SpecFloat.iter_pos shr_1 n mrs) = (shr_m mrs / 2 ^ Zpos n)%Z.
Proof.
  intros mrs Hm.
  assert (H : inb (shr_m mrs) 0 (match loc_of_shr_record mrs with
                                 | loc_Exact => F2R (shr_m mrs) 0
                                 | loc_Inexact Lt => F2R (shr_m mrs) 0 + / 4
                                 | loc_Inexact Eq => F2R (shr_m mrs) 0 + / 2
                                 | loc_Inexact Gt => F2R (shr_m mrs) 0 + 3 / 4
                                 end) (loc_of_shr_record mrs)).
  { unfold inb. rewrite F2R_plus. assert (F2R 1 0 = 1) by (unfold F2R; rewrite bpow_0; lra).
    destruct (loc_of_shr_record mrs) as [|[| |]]; simpl; lra. }
  apply (iter_shr_1_inb n mrs 0 _ Hm H).
Qed.

Lemma fexp_eq e : fexp e = Z.max (e - 53) emin.
Proof. reflexivity. Qed.

Lemma cexp_rel_ge x E : cexp_rel x E -> (emin <= E)%Z.
Proof. intros [[-> _]|[H _]]; lia. Qed.

Lemma cexp_rel_lt x E : cexp_rel x E -> x < bpow (E + 53).
Proof. intros [[-> H]|[_ H]]; lra. Qed.

Lemma cexp_rel_mono x x' E E' :
  cexp_rel x E -> cexp_rel x' E' -> x <= x' -> (E <= E')%Z.
Proof.
  intros H H' Hx. pose proof (cexp_rel_ge _ _ H'). pose proof (cexp_rel_lt _ _ H') as Hlt.
  destruct H as [[-> _]|[HE Hb]]; [assumption|].
  assert (bpow (E + 52) < bpow (E' + 53)) as Hp by lra.
  apply bpow_lt_inv in Hp. lia.
Qed.

Lemma cexp_rel_unique x E E' : cexp_rel x E -> cexp_rel x E' -> E = E'.
Proof.
  intros H H'. pose proof (cexp_rel_mono _ _ _ _ H H' ltac:(lra)).
  pose proof (cexp_rel_mono _ _ _ _ H' H ltac:(lra)). lia.
Qed.

Lemma Zdigits2_nonneg m : (0 <= Zdigits2 m)%Z.
Proof. destruct m; simpl; lia. Qed.

(** A positive integer with [d] digits lies in [[2^(d-1), 2^d)]. *)
Lemma Zdigits2_bpow m :
  (0 < m)%Z -> bpow (Zdigits2 m - 1) <= IZR m /\ IZR m + 1 <= bpow (Zdigits2 m).
Proof.
  intros Hm. destruct m as [|p|p]; try lia. simpl Zdigits2.
  destruct (digits2_bounds p) as [H1 H2].
  rewrite !bpow_IZR by lia. split; [apply IZR_le; exact H1|].
  rewrite <- plus_IZR. apply IZR_le. lia.
Qed.

Lemma shr_fexp_spec mx ex lx x :
  (0 <= mx)%Z -> inb mx ex x lx -> (ex <= fexp (Zdigits2 mx + ex))%Z ->
  let '(mrs, e) := shr_fexp prec emax mx ex lx in
  inb (shr_m mrs) e x (loc_of_shr_record mrs)
  /\ (0 <= shr_m mrs)%Z
  /\ e = fexp (Zdigits2 mx + ex)
  /\ cexp_rel x e.
Proof.
  intros Hm Hin Hex. unfold shr_fexp, shr.
  assert (Hc : cexp_rel x (fexp (Zdigits2 mx + ex))).
  { rewrite fexp_eq in *. apply inb_bounds in Hin.
    destruct (Z.eq_dec mx 0%Z) as [->|Hne].
    - simpl Zdigits2 in *. left. split; [lia|].
      assert (F2R (0 + 1) ex = bpow ex) as E1 by (unfold F2R; change (0 + 1)%Z with 1%Z; lra).
      pose proof (bpow_le ex (emin + 53) ltac:(lia)). lra.
    - destruct (Zdigits2_bpow mx ltac:(lia)) as [H1 H2].
      assert (Hlo : bpow (Zdigits2 mx + ex - 1) <= x).
      { replace (Zdigits2 mx + ex - 1)%Z with ((Zdigits2 mx - 1) + ex)%Z by lia.
        rewrite bpow_plus. unfold F2R in Hin. pose proof (bpow_gt_0 ex). nra. }
      assert (Hhi : x < bpow (Zdigits2 mx + ex)).
      { rewrite bpow_plus. unfold F2R in Hin. rewrite plus_IZR in Hin.
        pose proof (bpow_gt_0 ex). nra. }
      destruct (Z_lt_le_dec emin (Zdigits2 mx + ex - 53)%Z) as [Hn|Hs].
      + right. rewrite Z.max_l by lia. split; [lia|].
        replace (Zdigits2 mx + ex - 53 + 52)%Z with (Zdigits2 mx + ex - 1)%Z by lia.
        replace (Zdigits2 mx + ex - 53 + 53)%Z with (Zdigits2 mx + ex)%Z by lia. lra.
      + left. rewrite Z.max_r by lia. split; [reflexivity|].
        pose proof (bpow_le (Zdigits2 mx + ex) (emin + 53) ltac:(lia)). lra. }
  destruct (fexp (Zdigits2 mx + ex) - ex)%Z as [|n|n] eqn:En; try lia.
  - rewrite loc_of_shr_record_of_loc, shr_m_record_of_loc.
    replace (fexp (Zdigits2 mx + ex)) with ex in * by lia. auto.
  - pose proof (iter_shr_1_inb n (shr_record_of_loc mx lx) ex x) as Hi.
    rewrite loc_of_shr_record_of_loc, shr_m_record_of_loc in Hi.
    destruct (Hi Hm Hin) as (H1 & H2 & _).
    replace (fexp (Zdigits2 mx + ex)) with (ex + Zpos n)%Z in * by lia. auto.
Qed.

Lemma F2R_twice m E : F2R (2 * m) E = 2 * F2R m E.
Proof. unfold F2R. rewrite mult_IZR. ring. Qed.

Lemma F2R_eq_inv m1 m2 e : F2R m1 e = F2R m2 e -> m1 = m2.
Proof.
  intros H. apply Z.le_antisymm; apply (F2R_le_inv _ _ e); lra.
Qed.

Lemma round_nearest_even_rel m E x l :
  inb m E x l -> rne_rel x E (round_nearest_even m l).
Proof.
  unfold inb, rne_rel. intros H.
  pose proof (bpow_gt_0 E) as Hb.
  assert (F1 : forall k, F2R (2 * k - 1) E = 2 * F2R k E - bpow E).
  { intros k. unfold F2R. rewrite minus_IZR, mult_IZR. ring. }
  assert (F2 : forall k, F2R (2 * k + 1) E = 2 * F2R k E + bpow E).
  { intros k. unfold F2R. rewrite plus_IZR, mult_IZR. ring. }
  assert (F3 : F2R (m + 1) E = F2R m E + bpow E).
  { unfold F2R. rewrite plus_IZR. ring. }
  destruct l as [|[| |]]; simpl in *.
  - rewrite F1, F2. split; [lra|]. intros [?|?]; lra.
  - destruct (Z.even m) eqn:Ev.
    + rewrite F1, F2. split; [lra|]. intros _. exact Ev.
    + rewrite F1, F2, F3. split; [lra|]. intros _.
      rewrite Z.even_add, Ev. reflexivity.
  - rewrite F1, F2. split; [lra|]. intros [?|?]; lra.
  - rewrite F1, F2, F3. split; [lra|]. intros [?|?]; lra.
Qed.

Lemma rne_rel_mono x x' E M M' :
  rne_rel x E M -> rne_rel x' E M' -> x <= x' -> (M <= M')%Z.
Proof.
  intros [[H1 H2] He] [[H1' H2'] He'] Hx.
  destruct (Z_lt_le_dec M' M) as [Hlt|]; [|assumption]. exfalso.
  assert (Hle : F2R (2 * M' + 1) E <= F2R (2 * M - 1) E) by (apply F2R_le; lia).
  assert (E1 : 2 * x = F2R (2 * M - 1) E) by lra.
  assert (E2 : 2 * x' = F2R (2 * M' + 1) E) by lra.
  assert (E3 : F2R (2 * M' + 1) E = F2R (2 * M - 1) E) by lra.
  apply F2R_eq_inv in E3.
  specialize (He (or_introl E1)). specialize (He' (or_intror E2)).
  replace M with (M' + 1)%Z in He by lia.
  rewrite Z.even_add, He' in He. discriminate.
Qed.

Lemma rne_rel_unique x E M M' : rne_rel x E M -> rne_rel x E M' -> M = M'.
Proof.
  intros H H'. pose proof (rne_rel_mono _ _ _ _ _ H H' ltac:(lra)).
  pose proof (rne_rel_mono _ _ _ _ _ H' H ltac:(lra)). lia.
Qed.

(** An integer multiple of [2^E] rounds to itself. *)
Lemma rne_rel_exact E M : rne_rel (F2R M E) E M.
Proof.
  unfold rne_rel. pose proof (bpow_gt_0 E).
  assert (F2R (2 * M - 1) E = 2 * F2R M E - bpow E)
    by (unfold F2R; rewrite minus_IZR, mult_IZR; ring).
  assert (F2R (2 * M + 1) E = 2 * F2R M E + bpow E)
    by (unfold F2R; rewrite plus_IZR, mult_IZR; ring).
  split; [lra|]. intros [?|?]; lra.
Qed.

Lemma F2R_bpow k E : (0 <= k)%Z -> F2R (2 ^ k) E = bpow (E + k).
Proof. intros H. unfold F2R. rewrite <- bpow_IZR by exact H. rewrite bpow_plus. ring. Qed.

Lemma rne_rel_nonneg x E M : rne_rel x E M -> 0 <= x -> (0 <= M)%Z.
Proof.
  intros [[_ H] _] Hx.
  assert (F2R (-1) E < F2R (2 * M + 1) E).
  { unfold F2R at 1. pose proof (bpow_gt_0 E). lra. }
  apply F2R_lt_inv in H0. lia.
Qed.

Lemma rne_rel_le_pow x E M k :
  rne_rel x E M -> (0 <= k)%Z -> x <= bpow (E + k) -> (M <= 2 ^ k)%Z.
Proof.
  intros HM Hk Hx.
  apply (rne_rel_mono x (F2R (2 ^ k) E) E); [exact HM|apply rne_rel_exact|].
  rewrite F2R_bpow by exact Hk. exact Hx.
Qed.

Lemma rne_rel_ge_pow x E M k :
  rne_rel x E M -> (0 <= k)%Z -> bpow (E + k) <= x -> (2 ^ k <= M)%Z.
Proof.
  intros HM Hk Hx.
  apply (rne_rel_mono (F2R (2 ^ k) E) x E); [apply rne_rel_exact|exact HM|].
  rewrite F2R_bpow by exact Hk. exact Hx.
Qed.

Lemma Zdigits2_le m k : (0 <= m < 2 ^ k)%Z -> (0 <= k)%Z -> (Zdigits2 m <= k)%Z.
Proof.
  intros [H0 H1] Hk. destruct (Z.eq_dec m 0%Z) as [->|Hne]; [simpl; lia|].
  destruct (Zdigits2_bpow m ltac:(lia)) as [H2 _].
  assert (bpow (Zdigits2 m - 1) < bpow k).
  { apply Rle_lt_trans with (IZR m); [exact H2|].
    rewrite bpow_IZR by exact Hk. apply IZR_lt. exact H1. }
  apply bpow_lt_inv in H. lia.
Qed.

Lemma shr_fexp_rounded M E :
  (0 <= M <= 2 ^ 53)%Z -> (emin <= E)%Z ->
  shr_fexp prec emax M E loc_Exact
  = ({| shr_m := fst (norm M E); shr_r := false; shr_s := false |}, snd (norm M E)).
Proof.
  intros HM HE. unfold norm, shr_fexp, shr.
  destruct (M =? 2 ^ 53)%Z eqn:Eq.
  - apply Z.eqb_eq in Eq. subst M.
    replace (fexp (Zdigits2 (2 ^ 53) + E) - E)%Z with 1%Z.
    + reflexivity.
    + rewrite fexp_eq. change (Zdigits2 (2 ^ 53)) with 54%Z. lia.
  - apply Z.eqb_neq in Eq.
    assert (Hd : (Zdigits2 M <= 53)%Z) by (apply Zdigits2_le; lia).
    pose proof (Zdigits2_nonneg M).
    rewrite fexp_eq.
    destruct (Z.max (Zdigits2 M + E - 53) emin - E)%Z eqn:En; try lia; reflexivity.
Qed.

Theorem binary_round_aux_spec sx mx ex lx x :
  (0 <= mx)%Z -> inb mx ex x lx -> (ex <= fexp (Zdigits2 mx + ex))%Z ->
  Rnd sx x (binary_round_aux prec emax sx mx ex lx).
Proof.
  intros Hm Hin Hex. unfold binary_round_aux.
  pose proof (shr_fexp_spec mx ex lx x Hm Hin Hex) as Hs.
  destruct (shr_fexp prec emax mx ex lx) as [mrs e].
  destruct Hs as (Hi & Hm' & He & Hc).
  pose proof (round_nearest_even_rel _ _ _ _ Hi) as Hr.
  set (M := round_nearest_even (shr_m mrs) (loc_of_shr_record mrs)) in *.
  assert (Hx : 0 <= x).
  { apply inb_bounds in Hin. pose proof (F2R_le 0 mx ex Hm). rewrite F2R_0 in *. lra. }
  assert (HM : (0 <= M <= 2 ^ 53)%Z).
  { split; [apply (rne_rel_nonneg x e); assumption|].
    apply (rne_rel_le_pow x e); [assumption|lia|].
    pose proof (cexp_rel_lt _ _ Hc). lra. }
  rewrite (shr_fexp_rounded M e HM (cexp_rel_ge _ _ Hc)).
  exists M, e. split; [exact Hc|split; [exact Hr|]].
  unfold pack. destruct (norm M e) as [M' E']. reflexivity.
Qed.

Lemma F2R_opp m e : F2R (- m) e = - F2R m e.
Proof. unfold F2R. rewrite opp_IZR. ring. Qed.

Lemma F2R_pos m e : (0 < m)%Z -> 0 < F2R m e.
Proof. intros H. rewrite <- (F2R_0 e). apply F2R_lt. exact H. Qed.

Lemma F2R_norm M E : F2R (fst (norm M E)) (snd (norm M E)) = F2R M E.
Proof.
  unfold norm. destruct (M =? 2 ^ 53)%Z eqn:Eq; [|reflexivity].
  apply Z.eqb_eq in Eq. subst M. cbn [fst snd].
  rewrite !F2R_bpow by lia. f_equal. lia.
Qed.

Lemma norm_pos M E : (0 < M)%Z -> (0 < fst (norm M E))%Z.
Proof. intros H. unfold norm. destruct (M =? 2 ^ 53)%Z; simpl; lia. Qed.

Lemma pack_cases s M E :
  (0 <= M)%Z ->
  (M = 0%Z /\ pack s M E = S754_zero s)
  \/ ((0 < M)%Z /\ (snd (norm M E) <= 971)%Z
      /\ exists m, pack s M E = S754_finite s m (snd (norm M E))
                   /\ F2R (Zpos m) (snd (norm M E)) = F2R M E)
  \/ ((0 < M)%Z /\ (971 < snd (norm M E))%Z /\ pack s M E = S754_infinity s).
Proof.
  intros HM. destruct (Z.eq_dec M 0%Z) as [->|Hne]; [left; split; reflexivity|].
  right. assert (Hpos : (0 < M)%Z) by lia.
  pose proof (norm_pos M E Hpos) as Hn. pose proof (F2R_norm M E) as Hv.
  unfold pack. destruct (norm M E) as [M' E']. cbn [fst snd] in *.
  destruct M' as [|m|m]; try lia.
  destruct (E' <=? 971)%Z eqn:Ele.
  - left. apply Z.leb_le in Ele. split; [exact Hpos|split; [exact Ele|]].
    exists m. split; [reflexivity|exact Hv].
  - right. apply Z.leb_gt in Ele. auto.
Qed.

(** Rounding keeps a value under a power of two that bounds it. *)
Lemma Rnd_upper s x r B :
  Rnd s x r -> 0 <= x <= bpow B -> (emin <= B <= 1023)%Z ->
  r = S754_zero s
  \/ exists m e, r = S754_finite s m e /\ F2R (Zpos m) e <= bpow B.
Proof.
  intros (M & E & Hc & Hr & ->) [Hx0 Hx] HB.
  assert (HE : (E <= B)%Z /\ (E <= 971)%Z).
  { destruct Hc as [[-> _]|[_ [Hlo _]]]; [unfold emin in *; lia|].
    assert (bpow (E + 52) <= bpow B) as Hp by lra.
    apply bpow_le_inv in Hp. lia. }
  assert (HM : (M <= 2 ^ (B - E))%Z).
  { apply (rne_rel_le_pow x E); [exact Hr|lia|].
    replace (E + (B - E))%Z with B by lia. exact Hx. }
  assert (HF : F2R M E <= bpow B).
  { replace B with (E + (B - E))%Z at 1 by lia.
    rewrite <- F2R_bpow by lia. apply F2R_le. exact HM. }
  destruct (pack_cases s M E (rne_rel_nonneg _ _ _ Hr Hx0))
    as [[_ H]|[(_ & _ & m & H & Hv)|(Hpos & Hinf & _)]].
  - left. exact H.
  - right. exists m, (snd (norm M E)). split; [exact H|lra].
  - exfalso. unfold norm in Hinf. destruct (M =? 2 ^ 53)%Z eqn:Eq; cbn [snd] in Hinf; [|lia].
    apply Z.eqb_eq in Eq. subst M.
    assert (53 <= B - E)%Z; [|lia].
    apply Z.pow_le_mono_r_iff with (a := 2%Z); lia.
Qed.

(** Rounding keeps a value above a power of two below it. *)
Lemma Rnd_lower s x r c :
  Rnd s x r -> bpow c <= x -> (emin <= c)%Z ->
  r = S754_infinity s
  \/ exists m e, r = S754_finite s m e /\ bpow c <= F2R (Zpos m) e.
Proof.
  intros (M & E & Hc & Hr & ->) Hx Hcmin.
  pose proof (bpow_gt_0 c) as Hc0.
  assert (HF : bpow c <= F2R M E).
  { destruct (Z_le_gt_dec E c) as [Hle|Hgt].
    - replace c with (E + (c - E))%Z at 1 by lia.
      rewrite <- F2R_bpow by lia. apply F2R_le.
      apply (rne_rel_ge_pow x E); [exact Hr|lia|].
      replace (E + (c - E))%Z with c by lia. exact Hx.
    - destruct Hc as [[-> _]|[_ [Hlo _]]]; [lia|].
      apply Rle_trans with (bpow (E + 52)); [apply bpow_le; lia|].
      rewrite <- F2R_bpow by lia. apply F2R_le.
      apply (rne_rel_ge_pow x E); [exact Hr|lia|exact Hlo]. }
  destruct (pack_cases s M E (rne_rel_nonneg _ _ _ Hr ltac:(lra)))
    as [[-> _]|[(_ & _ & m & H & Hv)|(_ & _ & H)]].
  - rewrite F2R_0 in HF. lra.
  - right. exists m, (snd (norm M E)). split; [exact H|lra].
  - left. exact H.
Qed.

(** ** Valid (canonical) finite floats *)

Lemma valid_finite s m e :
  valid_binary (S754_finite s m e) = true ->
  e = fexp (Zpos (digits2_pos m) + e) /\ (e <= 971)%Z.
Proof.
  unfold SpecFloat.valid_binary, bounded, canonical_mantissa.
  intros H. apply andb_true_iff in H as [H1 H2].
  apply Z.eqb_eq in H1. apply Z.leb_le in H2. split; [symmetry; exact H1|exact H2].
Qed.

Lemma valid_finite_range s m e :
  valid_binary (S754_finite s m e) = true ->
  (emin <= e <= 971)%Z /\ (Zpos (digits2_pos m) <= 53)%Z
  /\ ((emin < e)%Z -> Zpos (digits2_pos m) = 53%Z).
Proof.
  intros H. apply valid_finite in H as [H1 H2]. rewrite fexp_eq in H1. lia.
Qed.

Lemma valid_finite_bpow s m e :
  valid_binary (S754_finite s m e) = true ->
  F2R (Zpos m) e < bpow (e + 53)
  /\ ((emin < e)%Z -> bpow (e + 52) <= F2R (Zpos m) e).
Proof.
  intros H. apply valid_finite_range in H as (He & Hd & Hn).
  destruct (digits2_bpow m) as [H1 H2]. pose proof (bpow_gt_0 e) as Hb. split.
  - rewrite Z.add_comm, bpow_plus. unfold F2R.
    pose proof (bpow_le (Zpos (digits2_pos m)) 53 Hd). nra.
  - intros Hlt. rewrite (Hn Hlt) in H1. rewrite Z.add_comm, bpow_plus. unfold F2R.
    change (53 - 1)%Z with 52%Z in H1. nra.
Qed.

(** ** Multiplication *)

Lemma digits2_mul mx my :
  (Zpos (digits2_pos mx) + Zpos (digits2_pos my) - 1 <= Zpos (digits2_pos (mx * my)))%Z.
Proof.
  destruct (digits2_bpow mx) as [Hx _]. destruct (digits2_bpow my) as [Hy _].
  destruct (digits2_bpow (mx * my)) as [_ Hxy].
  rewrite Pos2Z.inj_mul, mult_IZR in Hxy.
  pose proof (bpow_gt_0 (Zpos (digits2_pos mx) - 1)).
  pose proof (bpow_gt_0 (Zpos (digits2_pos my) - 1)).
  assert (Hlt : bpow (Zpos (digits2_pos mx) - 1 + (Zpos (digits2_pos my) - 1))
                < bpow (Zpos (digits2_pos (mx * my)))).
  { rewrite bpow_plus. nra. }
  apply bpow_lt_inv in Hlt. lia.
Qed.

Theorem SFmul_finite sx mx ex sy my ey :
  valid_binary (S754_finite sx mx ex) = true ->
  valid_binary (S754_finite sy my ey) = true ->
  Rnd (xorb sx sy) (F2R (Zpos mx) ex * F2R (Zpos my) ey)
      (SFmul prec emax (S754_finite sx mx ex) (S754_finite sy my ey)).
Proof.
  intros Hx Hy. cbn [SFmul].
  apply binary_round_aux_spec.
  - lia.
  - unfold inb, loc_ok. unfold F2R. rewrite Pos2Z.inj_mul, mult_IZR, bpow_plus. ring.
  - apply valid_finite in Hx as [Hx _]. apply valid_finite in Hy as [Hy _].
    rewrite fexp_eq in *. pose proof (digits2_mul mx my). cbn [Zdigits2].
    unfold emin in *. lia.
Qed.

(** ** Division *)

Lemma new_location_spec m2 r :
  (0 < m2)%Z -> (0 <= r < m2)%Z ->
  match new_location m2 r with
  | loc_Exact => r = 0%Z
  | loc_Inexact Lt => (0 < r /\ 2 * r < m2)%Z
  | loc_Inexact Eq => (0 < r /\ 2 * r = m2)%Z
  | loc_Inexact Gt => (0 < r /\ m2 < 2 * r)%Z
  end.
Proof.
  intros Hm Hr. unfold new_location, new_location_even, new_location_odd.
  destruct (Z.even m2) eqn:Ev.
  - destruct (Z.eqb_spec r 0%Z) as [|Hne]; [assumption|].
    destruct (Z.compare_spec (2 * r)%Z m2); lia.
  - destruct (Z.eqb_spec r 0%Z) as [|Hne]; [assumption|].
    assert (2 * r <> m2)%Z.
    { intros E. rewrite <- E, Z.even_mul in Ev. discriminate. }
    destruct (Z.compare_spec (2 * r + 1)%Z m2); lia.
Qed.

Lemma SFdiv_core_spec m1 e1 m2 e2 :
  let '(q, e, l) := SFdiv_core_binary prec emax (Zpos m1) e1 (Zpos m2) e2 in
  inb q e (F2R (Zpos m1) e1 / F2R (Zpos m2) e2) l
  /\ (0 <= q)%Z
  /\ (e <= fexp (Zdigits2 q + e))%Z.
Proof.
  unfold SFdiv_core_binary.
  set (d1 := Zdigits2 (Zpos m1)). set (d2 := Zdigits2 (Zpos m2)).
  set (e := Z.min (fexp (d1 + e1 - (d2 + e2))) (e1 - e2)).
  set (s := (e1 - e2 - e)%Z).
  assert (Hs : (0 <= s)%Z) by (unfold s, e; lia).
  set (m' := match s with Zpos _ => Z.shiftl (Zpos m1) s | Z0 => Zpos m1 | Zneg _ => 0%Z end).
  assert (Hm' : m' = (Zpos m1 * 2 ^ s)%Z).
  { unfold m'. destruct s as [|p|p]; [lia| |lia]. rewrite Z.shiftl_mul_pow2 by lia. reflexivity. }
  pose proof (Z_div_mod m' (Zpos m2) ltac:(lia)) as Hdiv.
  destruct (Z.div_eucl m' (Zpos m2)) as [q r]. destruct Hdiv as [Hq Hr].
  assert (Hq0 : (0 <= q)%Z) by nia.
  pose proof (bpow_gt_0 e) as Hbe. pose proof (bpow_gt_0 e2) as Hb2.
  assert (Hm2 : 0 < IZR (Zpos m2)) by (apply IZR_lt; lia).
  set (x := F2R (Zpos m1) e1 / F2R (Zpos m2) e2).
  assert (Hx : x * IZR (Zpos m2) = (IZR q * IZR (Zpos m2) + IZR r) * bpow e).
  { rewrite <- mult_IZR, <- plus_IZR, Z.mul_comm, <- Hq, Hm', mult_IZR.
    rewrite <- bpow_IZR by exact Hs. unfold x, F2R.
    replace e1 with (e2 + (s + e))%Z by (unfold s; lia).
    rewrite !bpow_plus. pose proof (bpow_gt_0 s). field. split; lra. }
  assert (Hr' : 0 <= IZR r < IZR (Zpos m2)) by (split; [apply IZR_le|apply IZR_lt]; lia).
  split; [|split; [exact Hq0|]].
  - pose proof (new_location_spec (Zpos m2) r ltac:(lia) Hr) as Hl.
    set (t := IZR r / IZR (Zpos m2)).
    assert (Ht : t * IZR (Zpos m2) = IZR r) by (unfold t; field; lra).
    assert (Hxq : x = F2R q e + t * bpow e).
    { unfold F2R. apply Rmult_eq_reg_r with (IZR (Zpos m2)); [|lra]. rewrite Hx.
      rewrite <- Ht. ring. }
    assert (Hq1 : F2R (q + 1) e = F2R q e + bpow e).
    { unfold F2R. rewrite plus_IZR. ring. }
    assert (Hlt : forall a b : R, a * IZR (Zpos m2) < b * IZR (Zpos m2) -> a < b).
    { intros a b Hab. apply Rmult_lt_reg_r with (IZR (Zpos m2)); assumption. }
    unfold inb. rewrite Hq1, Hxq.
    destruct (new_location (Zpos m2) r) as [|[| |]]; unfold loc_ok.
    + subst r. assert (t = 0) as -> by (unfold t, Rdiv; ring). ring.
    + destruct Hl as [Hl1 Hl2].
      assert (t = / 2) as ->; [|lra].
      apply Rmult_eq_reg_r with (IZR (Zpos m2)); [|lra].
      rewrite Ht, <- Hl2, mult_IZR. lra.
    + destruct Hl as [Hl1 Hl2]. apply IZR_lt in Hl1, Hl2. rewrite mult_IZR in Hl2.
      assert (0 < t) by (apply Hlt; lra).
      assert (t < / 2) by (apply Hlt; lra).
      nra.
    + destruct Hl as [Hl1 Hl2]. apply IZR_lt in Hl1, Hl2. rewrite mult_IZR in Hl2.
      assert (/ 2 < t) by (apply Hlt; lra).
      assert (t < 1) by (apply Hlt; lra).
      nra.
  - (* the exponent is small enough *)
    assert (Hg : (d1 + e1 - (d2 + e2) <= Zdigits2 q + e)%Z).
    { destruct (Zdigits2_bpow (Zpos m1) ltac:(lia)) as [H1 _].
      destruct (Zdigits2_bpow (Zpos m2) ltac:(lia)) as [_ H2]. fold d1 in H1. fold d2 in H2.
      assert (Hq1 : IZR q + 1 <= bpow (Zdigits2 q)).
      { destruct (Z.eq_dec q 0%Z) as [->|Hne]; [cbn [Zdigits2]; rewrite bpow_0; lra|].
        apply Zdigits2_bpow. lia. }
      assert (Hlt : bpow (d1 - 1 + e1) < bpow (Zdigits2 q + e + (d2 + e2))).
      { rewrite !bpow_plus.
        pose proof (bpow_gt_0 (d1 - 1)). pose proof (bpow_gt_0 e1).
        pose proof (bpow_gt_0 d2). pose proof (bpow_gt_0 (Zdigits2 q)).
        assert (Hx1 : F2R (Zpos m1) e1 = x * F2R (Zpos m2) e2).
        { unfold x. field. unfold F2R. nra. }
        assert (Hx2 : x < (IZR q + 1) * bpow e).
        { apply Rmult_lt_reg_r with (IZR (Zpos m2)); [lra|]. rewrite Hx. nra. }
        assert (Hx0 : 0 < x).
        { unfold x. apply Rdiv_lt_0_compat; unfold F2R; nra. }
        apply Rle_lt_trans with (F2R (Zpos m1) e1); [unfold F2R; nra|].
        rewrite Hx1. unfold F2R.
        apply Rlt_le_trans with ((IZR q + 1) * bpow e * (IZR (Zpos m2) * bpow e2)).
        - apply Rmult_lt_compat_r; [nra|exact Hx2].
        - assert (0 <= IZR q) by (apply IZR_le; lia).
          assert (HA : (IZR q + 1) * IZR (Zpos m2) <= bpow (Zdigits2 q) * bpow d2) by nra.
          replace ((IZR q + 1) * bpow e * (IZR (Zpos m2) * bpow e2))
            with ((IZR q + 1) * IZR (Zpos m2) * (bpow e * bpow e2)) by ring.
          replace (bpow (Zdigits2 q) * bpow e * (bpow d2 * bpow e2))
            with (bpow (Zdigits2 q) * bpow d2 * (bpow e * bpow e2)) by ring.
          apply Rmult_le_compat_r; [|exact HA].
          apply Rmult_le_pos; lra. }
      apply bpow_lt_inv in Hlt. lia. }
    unfold e at 1. rewrite !fexp_eq in *. lia.
Qed.

Theorem SFdiv_finite sx mx ex sy my ey :
  Rnd (xorb sx sy) (F2R (Zpos mx) ex / F2R (Zpos my) ey)
      (SFdiv prec emax (S754_finite sx mx ex) (S754_finite sy my ey)).
Proof.
  cbn [SFdiv]. pose proof (SFdiv_core_spec mx ex my ey) as H.
  destruct (SFdiv_core_binary prec emax (Zpos mx) ex (Zpos my) ey) as [[q e] l].
  destruct H as (Hi & Hq & He). apply binary_round_aux_spec; assumption.
Qed.

(** ** Addition and subtraction *)

Lemma iter_xO mx d :
  Zpos (Pos.iter xO mx d) = (Zpos mx * 2 ^ Zpos d)%Z
  /\ Zpos (digits2_pos (Pos.iter xO mx d)) = (Zpos (digits2_pos mx) + Zpos d)%Z.
Proof.
  induction d as [|d IH] using Pos.peano_ind.
  - simpl. split; lia.
  - rewrite Pos.iter_succ. destruct IH as [IH1 IH2]. cbn [digits2_pos]. split.
    + rewrite Pos2Z.inj_xO, IH1, Pos2Z.inj_succ, Z.pow_succ_r by lia. ring.
    + rewrite Pos2Z.inj_succ, IH2, Pos2Z.inj_succ. lia.
Qed.

Lemma shl_align_spec mx ex ex' :
  let '(mz, ez) := shl_align mx ex ex' in
  F2R (Zpos mz) ez = F2R (Zpos mx) ex
  /\ ez = Z.min ex ex'
  /\ (Zpos (digits2_pos mz) + ez = Zpos (digits2_pos mx) + ex)%Z.
Proof.
  unfold shl_align. destruct (ex' - ex)%Z as [|d|d] eqn:Ed.
  - split; [reflexivity|]. lia.
  - split; [reflexivity|]. lia.
  - destruct (iter_xO mx d) as [H1 H2]. split; [|split; lia].
    rewrite H1, F2R_shift by lia. f_equal. lia.
Qed.

Theorem binary_round_spec sx mx ex :
  Rnd sx (F2R (Zpos mx) ex) (binary_round prec emax sx mx ex).
Proof.
  unfold binary_round.
  pose proof (shl_align_spec mx ex (fexp (Zpos (digits2_pos mx) + ex))) as H.
  destruct (shl_align mx ex _) as [mz ez]. destruct H as (Hv & He & Hd).
  rewrite <- Hv. apply binary_round_aux_spec.
  - lia.
  - reflexivity.
  - cbn [Zdigits2]. rewrite Hd. lia.
Qed.

Theorem binary_normalize_spec m e :
  Rnd_signed (F2R m e) (binary_normalize prec emax m e false).
Proof.
  destruct m as [|p|p]; cbn [binary_normalize].
  - left. split; [apply F2R_0|reflexivity].
  - right. left. split; [apply F2R_pos; lia|apply binary_round_spec].
  - right. right. change (Zneg p) with (- Zpos p)%Z. rewrite F2R_opp, Ropp_involutive.
    split; [|apply binary_round_spec].
    pose proof (F2R_pos (Zpos p) e ltac:(lia)). lra.
Qed.

Lemma SF2R_finite s m e : SF2R (S754_finite s m e) = F2R (cond_Zopp s (Zpos m)) e.
Proof. reflexivity. Qed.

Lemma F2R_cond_Zopp s m e : F2R (cond_Zopp s m) e = (if s then - F2R m e else F2R m e).
Proof. destruct s; simpl; [apply F2R_opp|reflexivity]. Qed.

Lemma aligned_value s m e ez :
  (ez <= e)%Z ->
  F2R (cond_Zopp s (Zpos (fst (shl_align m e ez)))) ez = SF2R (S754_finite s m e).
Proof.
  intros Hle. pose proof (shl_align_spec m e ez) as H.
  destruct (shl_align m e ez) as [mz ez']. destruct H as (Hv & He & _).
  cbn [fst SF2R]. rewrite !F2R_cond_Zopp. replace ez' with ez in Hv by lia.
  rewrite Hv. reflexivity.
Qed.

Theorem SFadd_finite sx mx ex sy my ey :
  Rnd_signed (SF2R (S754_finite sx mx ex) + SF2R (S754_finite sy my ey))
             (SFadd prec emax (S754_finite sx mx ex) (S754_finite sy my ey)).
Proof.
  cbn [SFadd].
  rewrite <- (aligned_value sx mx ex (Z.min ex ey)) by lia.
  rewrite <- (aligned_value sy my ey (Z.min ex ey)) by lia.
  rewrite <- F2R_plus. apply binary_normalize_spec.
Qed.

Theorem SFsub_finite sx mx ex sy my ey :
  Rnd_signed (SF2R (S754_finite sx mx ex) - SF2R (S754_finite sy my ey))
             (SFsub prec emax (S754_finite sx mx ex) (S754_finite sy my ey)).
Proof.
  cbn [SFsub].
  rewrite <- (aligned_value sx mx ex (Z.min ex ey)) by lia.
  rewrite <- (aligned_value sy my ey (Z.min ex ey)) by lia.
  unfold Rminus. rewrite <- F2R_opp, <- F2R_plus. apply binary_normalize_spec.
Qed.

Lemma valid_exp_lt m1 e1 m2 e2 :
  valid_binary (S754_finite false m1 e1) = true ->
  valid_binary (S754_finite false m2 e2) = true ->
  (e1 < e2)%Z -> F2R (Zpos m1) e1 < F2R (Zpos m2) e2.
Proof.
  intros H1 H2 Hlt.
  pose proof (valid_finite_range _ _ _ H1) as (He1 & _).
  destruct (valid_finite_bpow _ _ _ H1) as [Hu _].
  destruct (valid_finite_bpow _ _ _ H2) as [_ Hl].
  specialize (Hl ltac:(lia)).
  pose proof (bpow_le (e1 + 53) (e2 + 52) ltac:(lia)). lra.
Qed.

Lemma valid_sign_irrelevant s s' m e :
  valid_binary (S754_finite s m e) = valid_binary (S754_finite s' m e).
Proof. reflexivity. Qed.

Lemma pos_compare_pos m1 m2 e :
  match Pos.compare_cont Eq m1 m2 with
  | Lt => F2R (Zpos m1) e < F2R (Zpos m2) e
  | Eq => m1 = m2
  | Gt => F2R (Zpos m2) e < F2R (Zpos m1) e
  end.
Proof.
  change (Pos.compare_cont Eq m1 m2) with (Pos.compare m1 m2).
  destruct (Pos.compare_spec m1 m2); [assumption| |]; apply F2R_lt; lia.
Qed.

Theorem SFcompare_spec x y :
  valid_binary x = true -> valid_binary y = true -> is_fin x -> is_fin y ->
  match SFcompare x y with
  | Some Lt => SF2R x < SF2R y
  | Some Eq => SF2R x = SF2R y
  | Some Gt => SF2R y < SF2R x
  | None => False
  end.
Proof.
  intros Vx Vy Fx Fy.
  destruct x as [sx|sx| |sx mx ex]; try contradiction;
  destruct y as [sy|sy| |sy my ey]; try contradiction; cbn [SFcompare SF2R].
  - reflexivity.
  - rewrite F2R_cond_Zopp. pose proof (F2R_pos (Zpos my) ey ltac:(lia)).
    destruct sy; lra.
  - rewrite F2R_cond_Zopp. pose proof (F2R_pos (Zpos mx) ex ltac:(lia)).
    destruct sx; lra.
  - rewrite !F2R_cond_Zopp.
    pose proof (F2R_pos (Zpos mx) ex ltac:(lia)). pose proof (F2R_pos (Zpos my) ey ltac:(lia)).
    rewrite (valid_sign_irrelevant sx false) in Vx.
    rewrite (valid_sign_irrelevant sy false) in Vy.
    destruct sx, sy; try lra.
    + destruct (Z.compare_spec ex ey) as [->|Hlt|Hgt].
      * pose proof (pos_compare_pos mx my ey) as Hc.
        destruct (Pos.compare_cont Eq mx my); cbn [CompOpp]; [subst; lra|lra|lra].
      * pose proof (valid_exp_lt _ _ _ _ Vx Vy Hlt). lra.
      * pose proof (valid_exp_lt _ _ _ _ Vy Vx Hgt). lra.
    + destruct (Z.compare_spec ex ey) as [->|Hlt|Hgt].
      * pose proof (pos_compare_pos mx my ey) as Hc.
        destruct (Pos.compare_cont Eq mx my); [subst; lra|lra|lra].
      * pose proof (valid_exp_lt _ _ _ _ Vx Vy Hlt). lra.
      * pose proof (valid_exp_lt _ _ _ _ Vy Vx Hgt). lra.
Qed.

Lemma round_nearest_even_nonneg m l : (0 <= m)%Z -> (0 <= round_nearest_even m l)%Z.
Proof.
  intros H. destruct l as [|[| |]]; simpl; try lia. destruct (Z.even m); lia.
Qed.

Lemma shr_fexp_nonneg m e l :
  (0 <= m)%Z -> (0 <= shr_m (fst (shr_fexp prec emax m e l)))%Z.
Proof.
  intros H. unfold shr_fexp, shr.
  destruct (fexp (Zdigits2 m + e) - e)%Z as [|p|p]; cbn [fst];
    try (rewrite shr_m_record_of_loc; exact H).
  rewrite iter_shr_1_m by (rewrite shr_m_record_of_loc; exact H).
  rewrite shr_m_record_of_loc. apply Z.div_pos; [exact H|].
  apply Z.pow_pos_nonneg; lia.
Qed.

Lemma binary_round_aux_signed s mx ex lx :
  (0 <= mx)%Z -> signed s (binary_round_aux prec emax s mx ex lx).
Proof.
  intros H. unfold binary_round_aux.
  pose proof (shr_fexp_nonneg mx ex lx H) as H1.
  destruct (shr_fexp prec emax mx ex lx) as [mrs e]. cbn [fst] in H1.
  pose proof (round_nearest_even_nonneg _ (loc_of_shr_record mrs) H1) as H2.
  pose proof (shr_fexp_nonneg _ e loc_Exact H2) as H3.
  destruct (shr_fexp prec emax _ e loc_Exact) as [mrs' e']. cbn [fst] in H3.
  destruct (shr_m mrs') as [|p|p]; [reflexivity| |lia].
  destruct (e' <=? emax - prec)%Z; reflexivity.
Qed.

Lemma Rnd_signed_sign s x r : Rnd s x r -> 0 <= x -> signed s r.
Proof.
  intros (M & E & _ & Hr & ->) Hx.
  destruct (pack_cases s M E (rne_rel_nonneg _ _ _ Hr Hx))
    as [[_ ->]|[(_ & _ & m & -> & _)|(_ & _ & ->)]]; reflexivity.
Qed.

Lemma SFsqrt_signed m e : signed false (SFsqrt prec emax (S754_finite false m e)).
Proof.
  cbn [SFsqrt]. unfold SFsqrt_core_binary.
  set (m' := match (e - 2 * _)%Z with Zpos _ => _ | Z0 => _ | Zneg _ => _ end).
  assert (Hm' : (0 <= m')%Z).
  { unfold m'. destruct (e - 2 * _)%Z; try lia. apply Z.shiftl_nonneg. lia. }
  pose proof (Z.sqrtrem_spec m' Hm') as Hs.
  destruct (Z.sqrtrem m') as [q r]. apply binary_round_aux_signed. nia.
Qed.

Lemma Rabs_SF2R_finite s m e : Rabs (SF2R (S754_finite s m e)) = F2R (Zpos m) e.
Proof.
  cbn [SF2R]. rewrite F2R_cond_Zopp. pose proof (F2R_pos (Zpos m) e ltac:(lia)).
  destruct s; [rewrite Rabs_Ropp|]; apply Rabs_pos_eq; lra.
Qed.

Lemma SFBnd_zero B s : SFBnd B (S754_zero s).
Proof.
  split; [exact I|]. cbn [SF2R]. rewrite Rabs_R0. left. apply bpow_gt_0.
Qed.

Lemma SFBnd_weaken a b f : SFBnd a f -> (a <= b)%Z -> SFBnd b f.
Proof.
  intros [H1 H2] Hab. split; [exact H1|]. pose proof (bpow_le a b Hab). lra.
Qed.

Lemma SFBnd_finite_inv B s m e :
  SFBnd B (S754_finite s m e) -> F2R (Zpos m) e <= bpow B.
Proof. intros [_ H]. rewrite Rabs_SF2R_finite in H. exact H. Qed.

Lemma Rnd_upper_Bnd s x r B :
  Rnd s x r -> 0 <= x <= bpow B -> (emin <= B <= 1023)%Z -> SFBnd B r.
Proof.
  intros H Hx HB. destruct (Rnd_upper s x r B H Hx HB) as [->|(m & e & -> & Hle)].
  - apply SFBnd_zero.
  - split; [exact I|]. rewrite Rabs_SF2R_finite. exact Hle.
Qed.

Lemma Rnd_signed_Bnd v r B :
  Rnd_signed v r -> Rabs v <= bpow B -> (emin <= B <= 1023)%Z -> SFBnd B r.
Proof.
  intros [[_ ->]|[[Hv H]|[Hv H]]] Hb HB.
  - apply SFBnd_zero.
  - apply (Rnd_upper_Bnd false v); [exact H| |exact HB].
    rewrite Rabs_pos_eq in Hb; lra.
  - apply (Rnd_upper_Bnd true (- v)); [exact H| |exact HB].
    rewrite Rabs_left in Hb; lra.
Qed.

Theorem SFmul_Bnd a b x y :
  valid_binary x = true -> valid_binary y = true ->
  SFBnd a x -> SFBnd b y -> (emin <= a + b <= 1023)%Z ->
  SFBnd (a + b) (SFmul prec emax x y).
Proof.
  intros Vx Vy Hx Hy Hab.
  destruct x as [sx|sx| |sx mx ex]; try (exfalso; exact (proj1 Hx));
  destruct y as [sy|sy| |sy my ey]; try (exfalso; exact (proj1 Hy));
    try apply SFBnd_zero.
  apply SFBnd_finite_inv in Hx, Hy.
  apply (Rnd_upper_Bnd _ _ _ _ (SFmul_finite _ _ _ _ _ _ Vx Vy)); [|exact Hab].
  pose proof (F2R_pos (Zpos mx) ex ltac:(lia)). pose proof (F2R_pos (Zpos my) ey ltac:(lia)).
  rewrite bpow_plus. split; nra.
Qed.

Theorem SFadd_Bnd a x y :
  SFBnd a x -> SFBnd a y -> (emin <= a + 1 <= 1023)%Z ->
  SFBnd (a + 1) (SFadd prec emax x y).
Proof.
  intros Hx Hy Ha.
  destruct x as [sx|sx| |sx mx ex]; try (exfalso; exact (proj1 Hx));
  destruct y as [sy|sy| |sy my ey]; try (exfalso; exact (proj1 Hy)).
  - cbn [SFadd]. destruct sx, sy; apply SFBnd_zero.
  - apply SFBnd_weaken with a; [exact Hy|lia].
  - apply SFBnd_weaken with a; [exact Hx|lia].
  - apply (Rnd_signed_Bnd _ _ _ (SFadd_finite _ _ _ _ _ _)); [|exact Ha].
    destruct Hx as [_ Hx], Hy as [_ Hy]. rewrite bpow_succ.
    pose proof (Rabs_triang (SF2R (S754_finite sx mx ex)) (SF2R (S754_finite sy my ey))). lra.
Qed.

Theorem SFsub_Bnd a x y :
  SFBnd a x -> SFBnd a y -> (emin <= a + 1 <= 1023)%Z ->
  SFBnd (a + 1) (SFsub prec emax x y).
Proof.
  intros Hx Hy Ha.
  destruct x as [sx|sx| |sx mx ex]; try (exfalso; exact (proj1 Hx));
  destruct y as [sy|sy| |sy my ey]; try (exfalso; exact (proj1 Hy)).
  - cbn [SFsub]. destruct sx, sy; apply SFBnd_zero.
  - cbn [SFsub]. apply SFBnd_weaken with a; [|lia].
    split; [exact I|]. rewrite Rabs_SF2R_finite. apply (SFBnd_finite_inv _ _ _ _ Hy).
  - apply SFBnd_weaken with a; [exact Hx|lia].
  - apply (Rnd_signed_Bnd _ _ _ (SFsub_finite _ _ _ _ _ _)); [|exact Ha].
    destruct Hx as [_ Hx], Hy as [_ Hy]. rewrite bpow_succ.
    pose proof (Rabs_triang (SF2R (S754_finite sx mx ex)) (- SF2R (S754_finite sy my ey))).
    rewrite Rabs_Ropp in H. unfold Rminus. lra.
Qed.

Theorem SFdiv_Bnd a c x y :
  SFBnd a x -> SFLow c y -> (emin <= a - c <= 1023)%Z ->
  SFBnd (a - c) (SFdiv prec emax x y).
Proof.
  intros Hx Hy Hac.
  destruct x as [sx|sx| |sx mx ex]; try (exfalso; exact (proj1 Hx));
  destruct y as [sy|sy| |sy my ey]; try contradiction; try apply SFBnd_zero.
  apply SFBnd_finite_inv in Hx. cbn [SFLow] in Hy.
  apply (Rnd_upper_Bnd _ _ _ _ (SFdiv_finite _ _ _ _ _ _)); [|exact Hac].
  pose proof (F2R_pos (Zpos mx) ex ltac:(lia)). pose proof (F2R_pos (Zpos my) ey ltac:(lia)).
  pose proof (bpow_gt_0 c).
  split; [apply Rlt_le, Rdiv_lt_0_compat; lra|].
  unfold Zminus. rewrite bpow_plus. 
  apply Rmult_le_reg_r with (F2R (Zpos my) ey); [lra|].
  unfold Rdiv. rewrite Rmult_assoc, Rinv_l by lra. rewrite Rmult_1_r.
  apply Rle_trans with (bpow a * 1); [lra|].
  rewrite Rmult_assoc. apply Rmult_le_compat_l; [left; apply bpow_gt_0|].
  replace 1 with (bpow (- c) * bpow c).
  - apply Rmult_le_compat_l; [left; apply bpow_gt_0|exact Hy].
  - rewrite <- bpow_plus. replace (- c + c)%Z with 0%Z by lia. apply bpow_0.
Qed.

(** ** Rounding is a function of the exact value, odd in the sign *)

Lemma pack_opp s M E : pack (negb s) M E = SFopp (pack s M E).
Proof.
  unfold pack. destruct (norm M E) as [M' E'].
  destruct M' as [|m|m]; try reflexivity. destruct (E' <=? 971)%Z; reflexivity.
Qed.

Lemma Rnd_fun s x r r' : Rnd s x r -> Rnd s x r' -> r = r'.
Proof.
  intros (M & E & Hc & Hr & ->) (M' & E' & Hc' & Hr' & ->).
  pose proof (cexp_rel_unique _ _ _ Hc Hc'). subst E'.
  pose proof (rne_rel_unique _ _ _ _ Hr Hr'). subst M'. reflexivity.
Qed.

Lemma Rnd_opp s x r : Rnd s x r -> Rnd (negb s) x (SFopp r).
Proof.
  intros (M & E & Hc & Hr & ->). exists M, E. rewrite pack_opp. auto.
Qed.

Lemma SFopp_involutive f : SFopp (SFopp f) = f.
Proof. destruct f as [s|s| |s m e]; cbn; rewrite ?negb_involutive; reflexivity. Qed.

Lemma binary_round_aux_opp s m e l :
  binary_round_aux prec emax (negb s) m e l = SFopp (binary_round_aux prec emax s m e l).
Proof.
  unfold binary_round_aux. destruct (shr_fexp prec emax m e l) as [mrs e'].
  destruct (shr_fexp prec emax _ e' loc_Exact) as [mrs' e''].
  destruct (shr_m mrs') as [|p|p]; try reflexivity.
  destruct (e'' <=? emax - prec)%Z; reflexivity.
Qed.

Lemma SFmul_opp_r x y : SFmul prec emax x (SFopp y) = SFopp (SFmul prec emax x y).
Proof.
  destruct x as [sx|sx| |sx mx ex], y as [sy|sy| |sy my ey]; cbn [SFmul SFopp];
    try reflexivity; try (f_equal; destruct sx, sy; reflexivity).
  rewrite <- binary_round_aux_opp. f_equal. destruct sx, sy; reflexivity.
Qed.

Lemma SFdiv_opp_l x y : SFdiv prec emax (SFopp x) y = SFopp (SFdiv prec emax x y).
Proof.
  destruct x as [sx|sx| |sx mx ex], y as [sy|sy| |sy my ey]; cbn [SFdiv SFopp];
    try reflexivity; try (f_equal; destruct sx, sy; reflexivity).
  destruct (SFdiv_core_binary prec emax (Zpos mx) ex (Zpos my) ey) as [[q e] l].
  rewrite <- binary_round_aux_opp. f_equal. destruct sx, sy; reflexivity.
Qed.

Lemma SFmul_opp_opp x : SFmul prec emax (SFopp x) (SFopp x) = SFmul prec emax x x.
Proof.
  destruct x as [s|s| |s m e]; cbn [SFmul SFopp]; try reflexivity;
    destruct s; reflexivity.
Qed.

(** A valid float is the rounding of its own value. *)
Lemma Rnd_self s m e :
  valid_binary (S754_finite s m e) = true ->
  Rnd s (F2R (Zpos m) e) (S754_finite s m e).
Proof.
  intros V. exists (Zpos m), e.
  pose proof (valid_finite_range _ _ _ V) as (He & Hd & Hn).
  destruct (valid_finite_bpow _ _ _ V) as [Hu Hl].
  split; [|split; [apply rne_rel_exact|]].
  - destruct (Z.eq_dec e emin) as [->|Hne].
    + left. split; [reflexivity|exact Hu].
    + right. split; [lia|]. split; [apply Hl; lia|exact Hu].
  - unfold pack, norm.
    assert (Hlt : (Zpos m < 2 ^ 53)%Z).
    { destruct (digits2_bounds m) as [_ H].
      apply Z.lt_le_trans with (1 := H). apply Z.pow_le_mono_r; lia. }
    destruct (Z.eqb_spec (Zpos m) (2 ^ 53)%Z) as [E|_]; [lia|].
    destruct (Z.leb_spec e 971%Z); [reflexivity|lia].
Qed.

Lemma Rnd_signed_any v r : Rnd_signed v r -> Rnd_any v r.
Proof. intros [[H ->]|[H|H]]; [left; eauto|right; left; exact H|right; right; exact H]. Qed.

Lemma Rnd_any_self s m e :
  valid_binary (S754_finite s m e) = true ->
  Rnd_any (SF2R (S754_finite s m e)) (S754_finite s m e).
Proof.
  intros V. cbn [SF2R]. rewrite F2R_cond_Zopp.
  pose proof (F2R_pos (Zpos m) e ltac:(lia)). destruct s.
  - right. right. split; [lra|]. rewrite Ropp_involutive. apply Rnd_self. exact V.
  - right. left. split; [lra|]. apply Rnd_self. exact V.
Qed.

Theorem SFsub_spec x y :
  valid_binary x = true -> valid_binary y = true -> is_fin x -> is_fin y ->
  Rnd_any (SF2R x - SF2R y) (SFsub prec emax x y).
Proof.
  intros Vx Vy Fx Fy.
  destruct x as [sx|sx| |sx mx ex]; try contradiction;
  destruct y as [sy|sy| |sy my ey]; try contradiction.
  - left. cbn [SF2R SFsub]. split; [lra|]. destruct sx, sy; eauto.
  - cbn [SFsub]. replace (SF2R (S754_zero sx) - SF2R (S754_finite sy my ey))
      with (SF2R (S754_finite (negb sy) my ey)).
    + apply Rnd_any_self. exact Vy.
    + cbn [SF2R]. rewrite !F2R_cond_Zopp. destruct sy; cbn [negb]; lra.
  - cbn [SFsub]. replace (SF2R (S754_finite sx mx ex) - SF2R (S754_zero sy))
      with (SF2R (S754_finite sx mx ex)) by (cbn [SF2R]; lra).
    apply Rnd_any_self. exact Vx.
  - apply Rnd_signed_any, SFsub_finite.
Qed.

Theorem SFadd_spec x y :
  valid_binary x = true -> valid_binary y = true -> is_fin x -> is_fin y ->
  Rnd_any (SF2R x + SF2R y) (SFadd prec emax x y).
Proof.
  intros Vx Vy Fx Fy.
  destruct x as [sx|sx| |sx mx ex]; try contradiction;
  destruct y as [sy|sy| |sy my ey]; try contradiction.
  - left. cbn [SF2R SFadd]. split; [lra|]. destruct sx, sy; eauto.
  - cbn [SFadd]. replace (SF2R (S754_zero sx) + SF2R (S754_finite sy my ey))
      with (SF2R (S754_finite sy my ey)) by (cbn [SF2R]; lra).
    apply Rnd_any_self. exact Vy.
  - cbn [SFadd]. replace (SF2R (S754_finite sx mx ex) + SF2R (S754_zero sy))
      with (SF2R (S754_finite sx mx ex)) by (cbn [SF2R]; lra).
    apply Rnd_any_self. exact Vx.
  - apply Rnd_signed_any, SFadd_finite.
Qed.

(** ** Rounding is monotone *)

Lemma Rnd_parts s x r :
  Rnd s x r -> 0 <= x ->
  exists M E, cexp_rel x E /\ rne_rel x E M /\ r = pack s M E
    /\ (0 <= M <= 2 ^ 53)%Z /\ ((emin < E)%Z -> (2 ^ 52 <= M)%Z).
Proof.
  intros (M & E & Hc & Hr & ->) Hx. exists M, E.
  split; [exact Hc|split; [exact Hr|split; [reflexivity|split; [split|]]]].
  - apply (rne_rel_nonneg x E); assumption.
  - apply (rne_rel_le_pow x E); [exact Hr|lia|]. left. apply cexp_rel_lt. exact Hc.
  - intros HE. apply (rne_rel_ge_pow x E); [exact Hr|lia|].
    destruct Hc as [[-> _]|[_ [H _]]]; [lia|exact H].
Qed.

Theorem Rnd_le x x' r r' :
  Rnd false x r -> Rnd false x' r' -> 0 <= x <= x' ->
  valid_binary r = true -> valid_binary r' = true ->
  SFleb r r' = true.
Proof.
  intros H H' [Hx0 Hxx'] V V'.
  destruct (Rnd_parts _ _ _ H Hx0) as (M & E & Hc & Hr & -> & HM & HMn).
  destruct (Rnd_parts _ _ _ H' ltac:(lra)) as (M' & E' & Hc' & Hr' & -> & HM' & HMn').
  pose proof (cexp_rel_mono _ _ _ _ Hc Hc' Hxx') as HE.
  pose proof (cexp_rel_ge _ _ Hc) as HEmin.
  assert (HMM : E = E' -> (M <= M')%Z).
  { intros <-. apply (rne_rel_mono x x' E); assumption. }
  assert (Hval : F2R M E <= F2R M' E').
  { destruct (Z.eq_dec E E') as [<-|Hne].
    - apply F2R_le. apply HMM. reflexivity.
    - apply Rle_trans with (F2R (2 ^ 53) E); [apply F2R_le; lia|].
      apply Rle_trans with (F2R (2 ^ 52) E'); [|apply F2R_le; apply HMn'; lia].
      rewrite !F2R_bpow by lia. apply bpow_le. lia. }
  assert (Hnorm : (snd (norm M E) <= snd (norm M' E'))%Z).
  { unfold norm. destruct (Z.eqb_spec M (2 ^ 53)%Z), (Z.eqb_spec M' (2 ^ 53)%Z); cbn [snd]; lia. }
  assert (Hzero : M' = 0%Z -> M = 0%Z).
  { intros ->. destruct (Z.eq_dec E' emin) as [->|Hne].
    - assert (E = emin) by lia. specialize (HMM H0). lia.
    - specialize (HMn' ltac:(pose proof (cexp_rel_ge _ _ Hc'); lia)). lia. }
  destruct (pack_cases false M E ltac:(lia))
    as [[HM0 Hp]|[(HMp & Hn & m & Hp & Hv)|(HMp & Hn & Hp)]];
  destruct (pack_cases false M' E' ltac:(lia))
    as [[HM0' Hp']|[(HMp' & Hn' & m' & Hp' & Hv')|(HMp' & Hn' & Hp')]];
    rewrite ?Hp, ?Hp' in *; try reflexivity; try lia.
  pose proof (SFcompare_spec _ _ V V' I I) as Hcmp. cbn [SF2R cond_Zopp] in Hcmp.
  unfold SFleb. destruct (SFcompare _ _) as [[| |]|]; try reflexivity; try contradiction.
  lra.
Qed.

(** A result that is at least the smallest positive float is not zero. *)
Lemma Rnd_nonzero s x r sz : Rnd s x r -> bpow emin <= x -> r <> S754_zero sz.
Proof.
  intros H Hx. destruct (Rnd_lower s x r emin H Hx ltac:(lia)) as [->|(m & e & -> & _)];
    discriminate.
Qed.

Lemma F2R_int_lower n e : n <> 0%Z -> bpow e <= Rabs (F2R n e).
Proof.
  intros Hn. unfold F2R. rewrite Rabs_mult, (Rabs_pos_eq (bpow e)) by (left; apply bpow_gt_0).
  pose proof (bpow_gt_0 e).
  assert (1 <= Rabs (IZR n)).
  { rewrite <- abs_IZR. apply IZR_le. lia. }
  nra.
Qed.

(** The sum of two valid floats is [-0] only for [-0 + -0]. *)
Theorem SFadd_negzero x y :
  valid_binary x = true -> valid_binary y = true ->
  SFadd prec emax x y = S754_zero true -> x = S754_zero true /\ y = S754_zero true.
Proof.
  intros Vx Vy.
  destruct x as [[|]|[|]| |sx mx ex], y as [[|]|[|]| |sy my ey]; cbn [SFadd];
    try discriminate; auto.
  intros Hz.
  pose proof (valid_finite_range _ _ _ Vx) as (Hex & _).
  pose proof (valid_finite_range _ _ _ Vy) as (Hey & _).
  set (ez := Z.min ex ey) in *.
  set (n := (cond_Zopp sx (Zpos (fst (shl_align mx ex ez)))
             + cond_Zopp sy (Zpos (fst (shl_align my ey ez))))%Z) in *.
  pose proof (binary_normalize_spec n ez) as Hs. rewrite Hz in Hs.
  assert (Hlow : n <> 0%Z -> bpow emin <= Rabs (F2R n ez)).
  { intros Hn. apply Rle_trans with (bpow ez); [apply bpow_le; lia|].
    apply F2R_int_lower. exact Hn. }
  destruct Hs as [[_ Hs]|[[Hv Hs]|[Hv Hs]]]; [discriminate| |].
  - exfalso. apply (Rnd_nonzero _ _ _ true Hs); [|reflexivity].
    rewrite <- (Rabs_pos_eq (F2R n ez)) by lra. apply Hlow.
    intros ->. rewrite F2R_0 in Hv. lra.
  - exfalso. apply (Rnd_nonzero _ _ _ true Hs); [|reflexivity].
    rewrite <- (Rabs_left (F2R n ez)) by lra. apply Hlow.
    intros ->. rewrite F2R_0 in Hv. lra.
Qed.

Lemma Bnd_weaken a b x : Bnd a x -> (a <= b)%Z -> Bnd b x.
Proof. apply SFBnd_weaken. Qed.

Lemma zero_Bnd B x : zero x -> Bnd B x.
Proof. intros [s H]. unfold Bnd. rewrite H. apply SFBnd_zero. Qed.

Theorem mul_Bnd a b x y :
  Bnd a x -> Bnd b y -> (emin <= a + b <= 1023)%Z -> Bnd (a + b) (x * y).
Proof.
  unfold Bnd. rewrite FloatAxioms.mul_spec. apply SFmul_Bnd; apply Prim2SF_valid.
Qed.

Theorem add_Bnd a x y :
  Bnd a x -> Bnd a y -> (emin <= a + 1 <= 1023)%Z -> Bnd (a + 1) (x + y).
Proof. unfold Bnd. rewrite FloatAxioms.add_spec. apply SFadd_Bnd. Qed.

Theorem sub_Bnd a x y :
  Bnd a x -> Bnd a y -> (emin <= a + 1 <= 1023)%Z -> Bnd (a + 1) (x - y).
Proof. unfold Bnd. rewrite FloatAxioms.sub_spec. apply SFsub_Bnd. Qed.

Theorem div_Bnd a c x y :
  Bnd a x -> Low c y -> (emin <= a - c <= 1023)%Z -> Bnd (a - c) (x / y).
Proof. unfold Bnd, Low. rewrite FloatAxioms.div_spec. apply SFdiv_Bnd. Qed.

(** A bounded float is finite in the sense of [PrimFloat.is_finite]. *)
Lemma SFcompare_refl_fin f : is_fin f -> SFcompare f f = Some Eq.
Proof.
  destruct f as [s|s| |s m e]; try contradiction; intros _; cbn [SFcompare].
  - reflexivity.
  - rewrite Z.compare_refl.
    change (Pos.compare_cont Eq m m) with (Pos.compare m m). rewrite Pos.compare_refl.
    destruct s; reflexivity.
Qed.

Theorem Bnd_is_finite B x : Bnd B x -> is_finite x = true.
Proof.
  intros [H _]. unfold is_finite, is_nan, is_infinity.
  rewrite !FloatAxioms.eqb_spec, FloatAxioms.abs_spec. unfold SFeqb.
  rewrite (SFcompare_refl_fin _ H).
  destruct (Prim2SF x) as [s|s| |s m e]; try contradiction; reflexivity.
Qed.

(** Bounds of a float given by its representation. *)
Lemma valid_Bnd s m e :
  valid_binary (S754_finite s m e) = true -> SFBnd (e + 53) (S754_finite s m e).
Proof.
  intros V. split; [exact I|]. rewrite Rabs_SF2R_finite.
  left. apply (valid_finite_bpow _ _ _ V).
Qed.

Lemma valid_Low s m e :
  valid_binary (S754_finite s m e) = true -> (emin < e)%Z ->
  SFLow (e + 52) (S754_finite s m e).
Proof. intros V He. cbn [SFLow]. apply (valid_finite_bpow _ _ _ V). exact He. Qed.

Lemma Prim2SF_Bnd x s m e : Prim2SF x = S754_finite s m e -> Bnd (e + 53) x.
Proof.
  intros H. unfold Bnd. rewrite H. apply valid_Bnd. rewrite <- H. apply Prim2SF_valid.
Qed.

Lemma Prim2SF_Low x s m e :
  Prim2SF x = S754_finite s m e -> (emin < e)%Z -> Low (e + 52) x.
Proof.
  intros H He. unfold Low. rewrite H. apply valid_Low; [|exact He].
  rewrite <- H. apply Prim2SF_valid.
Qed.

(** Comparisons of primitive floats. *)
Lemma leb_B2R x y :
  is_fin (Prim2SF x) -> is_fin (Prim2SF y) -> (x <=? y)%float = true -> B2R x <= B2R y.
Proof.
  intros Fx Fy. rewrite FloatAxioms.leb_spec. unfold SFleb, B2R.
  pose proof (SFcompare_spec _ _ (Prim2SF_valid x) (Prim2SF_valid y) Fx Fy) as H.
  destruct (SFcompare _ _) as [[| |]|]; try discriminate; lra.
Qed.

Lemma B2R_leb x y :
  is_fin (Prim2SF x) -> is_fin (Prim2SF y) -> B2R x <= B2R y -> (x <=? y)%float = true.
Proof.
  intros Fx Fy Hle. rewrite FloatAxioms.leb_spec. unfold SFleb, B2R in *.
  pose proof (SFcompare_spec _ _ (Prim2SF_valid x) (Prim2SF_valid y) Fx Fy) as H.
  destruct (SFcompare _ _) as [[| |]|]; try reflexivity; [lra|contradiction].
Qed.

Lemma ltb_false_B2R x y :
  is_fin (Prim2SF x) -> is_fin (Prim2SF y) -> (x <? y)%float = false -> B2R y <= B2R x.
Proof.
  intros Fx Fy. rewrite FloatAxioms.ltb_spec. unfold SFltb, B2R.
  pose proof (SFcompare_spec _ _ (Prim2SF_valid x) (Prim2SF_valid y) Fx Fy) as H.
  destruct (SFcompare _ _) as [[| |]|]; try discriminate; lra.
Qed.

(** A lower bound between two thresholds: a float that is not below the
    finite float [t], itself at least [2^c], is at least [2^c]. *)
Theorem not_ltb_Low c t x :
  nonneg x -> nonneg t -> Low c t -> is_fin (Prim2SF t) ->
  (x <? t)%float = false -> Low c x.
Proof.
  intros Hx Ht Hlow Ft Hlt. unfold nonneg, Low in *.
  pose proof (Prim2SF_valid x) as Vx. pose proof (Prim2SF_valid t) as Vt.
  rewrite FloatAxioms.ltb_spec in Hlt. unfold SFltb in Hlt.
  destruct (Prim2SF t) as [st|st| |st mt et]; try contradiction.
  cbn [signed SFLow] in *. subst st.
  destruct (Prim2SF x) as [sx|sx| |sx mx ex]; try contradiction;
    cbn [signed SFLow] in *; subst; [discriminate|exact I|].
  pose proof (SFcompare_spec _ _ Vx Vt I I) as H. cbn [SF2R cond_Zopp] in H.
  destruct (SFcompare _ _) as [[| |]|]; try discriminate; try contradiction; lra.
Qed.

(** ** Signs and zeros *)

Lemma Bnd_fin B x : Bnd B x -> is_fin (Prim2SF x).
Proof. intros [H _]. exact H. Qed.

Theorem mul_self_nonneg B x : Bnd B x -> nonneg (x * x)%float.
Proof.
  intros [Hf _]. unfold nonneg. rewrite FloatAxioms.mul_spec.
  pose proof (Prim2SF_valid x) as V.
  destruct (Prim2SF x) as [s|s| |s m e]; try contradiction.
  - cbn. destruct s; reflexivity.
  - replace false with (xorb s s) by (destruct s; reflexivity).
    apply (Rnd_signed_sign _ _ _ (SFmul_finite _ _ _ _ _ _ V V)).
    pose proof (F2R_pos (Zpos m) e ltac:(lia)). nra.
Qed.

Theorem add_nonneg x y : nonneg x -> nonneg y -> nonneg (x + y)%float.
Proof.
  unfold nonneg. rewrite FloatAxioms.add_spec.
  destruct (Prim2SF x) as [sx|sx| |sx mx ex]; try contradiction;
  destruct (Prim2SF y) as [sy|sy| |sy my ey]; try contradiction;
    cbn [signed]; intros -> ->; try reflexivity.
  pose proof (SFadd_finite false mx ex false my ey) as H.
  cbn [SF2R cond_Zopp] in H.
  pose proof (F2R_pos (Zpos mx) ex ltac:(lia)). pose proof (F2R_pos (Zpos my) ey ltac:(lia)).
  destruct H as [[H _]|[[_ H]|[H _]]]; try lra.
  apply (Rnd_signed_sign _ _ _ H). lra.
Qed.

Theorem sqrt_nonneg x : nonneg x -> nonneg (PrimFloat.sqrt x).
Proof.
  unfold nonneg. rewrite FloatAxioms.sqrt_spec.
  destruct (Prim2SF x) as [s|s| |s m e]; try contradiction; cbn [signed]; intros ->.
  - reflexivity.
  - reflexivity.
  - apply SFsqrt_signed.
Qed.

Theorem mul_zero_l B x y : zero x -> Bnd B y -> zero (x * y)%float.
Proof.
  intros [s Hx] [Hy _]. unfold zero. rewrite FloatAxioms.mul_spec, Hx.
  destruct (Prim2SF y) as [sy|sy| |sy my ey]; try contradiction; cbn; eauto.
Qed.

Theorem mul_zero_r B x y : Bnd B x -> zero y -> zero (x * y)%float.
Proof.
  intros [Hx _] [s Hy]. unfold zero. rewrite FloatAxioms.mul_spec, Hy.
  destruct (Prim2SF x) as [sx|sx| |sx mx ex]; try contradiction; cbn; eauto.
Qed.

Theorem div_zero_l c x y : zero x -> Low c y -> zero (x / y)%float.
Proof.
  intros [s Hx] Hy. unfold zero, Low in *. rewrite FloatAxioms.div_spec, Hx.
  destruct (Prim2SF y) as [sy|sy| |sy my ey]; try contradiction; cbn; eauto.
Qed.

(** [x + 0] is [x] itself, unless [x] is [-0]. *)
Theorem add_zero_r x z :
  zero z -> Prim2SF x <> S754_zero true -> (x + z)%float = x.
Proof.
  intros [s Hz] Hx. apply Prim2SF_inj. rewrite FloatAxioms.add_spec, Hz.
  destruct (Prim2SF x) as [[|]|sx| |sx mx ex]; try reflexivity; try congruence.
  destruct s; reflexivity.
Qed.

(** A sum is [-0] only when its first operand is. *)
Theorem add_negzero x y :
  Prim2SF (x + y)%float = S754_zero true -> Prim2SF x = S754_zero true.
Proof.
  rewrite FloatAxioms.add_spec. intros H.
  apply (SFadd_negzero _ _ (Prim2SF_valid x) (Prim2SF_valid y) H).
Qed.

(** ** Offsets that mirror each other have the same square *)

Theorem sub_mirror_square B p a b :
  Bnd B p -> Bnd B a -> Bnd B b ->
  2 * B2R p = B2R a + B2R b ->
  ((p - a) * (p - a))%float = ((p - b) * (p - b))%float.
Proof.
  intros [Fp _] [Fa _] [Fb _] Hmid. apply Prim2SF_inj.
  rewrite !FloatAxioms.mul_spec, !FloatAxioms.sub_spec.
  pose proof (SFsub_spec _ _ (Prim2SF_valid p) (Prim2SF_valid a) Fp Fa) as H1.
  pose proof (SFsub_spec _ _ (Prim2SF_valid p) (Prim2SF_valid b) Fp Fb) as H2.
  fold (B2R p) in *. fold (B2R a) in *. fold (B2R b) in *.
  replace (B2R p - B2R b) with (- (B2R p - B2R a)) in H2 by lra.
  set (v := B2R p - B2R a) in *.
  set (r1 := SFsub prec emax (Prim2SF p) (Prim2SF a)) in *.
  set (r2 := SFsub prec emax (Prim2SF p) (Prim2SF b)) in *.
  change SF64mul with (SFmul prec emax). change SF64sub with (SFsub prec emax).
  fold r1 r2.
  destruct H1 as [[Hv [s1 ->]]|[[Hv H1]|[Hv H1]]];
  destruct H2 as [[Hv' [s2 ->]]|[[Hv' H2]|[Hv' H2]]]; try lra.
  - cbn. destruct s1, s2; reflexivity.
  - rewrite Ropp_involutive in H2.
    rewrite (Rnd_fun _ _ _ _ H2 (Rnd_opp _ _ _ H1)). symmetry. apply SFmul_opp_opp.
  - rewrite (Rnd_fun _ _ _ _ H1 (Rnd_opp _ _ _ H2)). apply SFmul_opp_opp.
Qed.

(** ** A quotient decreases when its denominator grows *)

Theorem div_antitone c lo r1 r2 :
  nonneg c -> is_fin (Prim2SF c) ->
  nonneg r1 -> Low lo r1 -> nonneg r2 -> Low lo r2 ->
  (r1 <=? r2)%float = true ->
  (c / r2 <=? c / r1)%float = true.
Proof.
  unfold nonneg, Low. intros Hc Fc Hn1 Hl1 Hn2 Hl2 Hle.
  rewrite FloatAxioms.leb_spec in *. rewrite !FloatAxioms.div_spec.
  pose proof (Prim2SF_valid (c / r1)%float) as V1.
  pose proof (Prim2SF_valid (c / r2)%float) as V2.
  rewrite FloatAxioms.div_spec in V1, V2.
  pose proof (Prim2SF_valid r1) as Vr1. pose proof (Prim2SF_valid r2) as Vr2.
  change SF64div with (SFdiv prec emax) in *.
  destruct (Prim2SF c) as [sc|sc| |sc mc ec]; try contradiction;
    cbn [signed] in Hc; subst sc;
  destruct (Prim2SF r1) as [s1|s1| |s1 m1 e1]; try contradiction;
    cbn [signed] in Hn1; subst s1;
  destruct (Prim2SF r2) as [s2|s2| |s2 m2 e2]; try contradiction;
    cbn [signed] in Hn2; subst s2; try reflexivity; try discriminate.
  - (* finite / infinite against finite / finite *)
    pose proof (SFdiv_finite false mc ec false m1 e1) as H1.
    set (d := SFdiv prec emax (S754_finite false mc ec) (S754_finite false m1 e1)) in *.
    apply Rnd_signed_sign in H1.
    + cbn [SFdiv xorb] in *. clearbody d.
      destruct d as [s|s| |s m e]; cbn [signed] in H1;
        try contradiction; subst; reflexivity.
    + pose proof (F2R_pos (Zpos mc) ec ltac:(lia)). pose proof (F2R_pos (Zpos m1) e1 ltac:(lia)).
      left. apply Rdiv_lt_0_compat; assumption.
  - (* both finite *)
    pose proof (SFcompare_spec _ _ Vr1 Vr2 I I) as Hcmp. cbn [SF2R cond_Zopp] in Hcmp.
    pose proof (F2R_pos (Zpos mc) ec ltac:(lia)) as Pc.
    pose proof (F2R_pos (Zpos m1) e1 ltac:(lia)) as P1.
    pose proof (F2R_pos (Zpos m2) e2 ltac:(lia)) as P2.
    assert (Hr : F2R (Zpos m1) e1 <= F2R (Zpos m2) e2).
    { unfold SFleb in Hle. destruct (SFcompare _ _) as [[| |]|]; try discriminate; lra. }
    apply (Rnd_le _ _ _ _ (SFdiv_finite false mc ec false m2 e2)
                          (SFdiv_finite false mc ec false m1 e1)); try assumption.
    split; [left; apply Rdiv_lt_0_compat; assumption|].
    unfold Rdiv. apply Rmult_le_compat_l; [lra|].
    apply Rinv_le_contravar; assumption.
Qed.

(** ** Opposites *)

Theorem mul_opp_r x y : (x * - y)%float = (- (x * y))%float.
Proof.
  apply Prim2SF_inj.
  rewrite FloatAxioms.mul_spec, !FloatAxioms.opp_spec, FloatAxioms.mul_spec.
  apply SFmul_opp_r.
Qed.

Theorem div_opp_l x y : (- x / y)%float = (- (x / y))%float.
Proof.
  apply Prim2SF_inj.
  rewrite FloatAxioms.div_spec, !FloatAxioms.opp_spec, FloatAxioms.div_spec.
  apply SFdiv_opp_l.
Qed.

(** A finite [v] added to [0.0] and then cancelled by [- v] leaves [0.0]. *)
Theorem add_opp_cancel v :
  is_fin (Prim2SF v) -> (0 + v + - v)%float = 0%float.
Proof.
  intros Fv. apply Prim2SF_inj.
  rewrite !FloatAxioms.add_spec, FloatAxioms.opp_spec.
  change SF64add with (SFadd prec emax).
  change (Prim2SF 0) with (S754_zero false).
  destruct (Prim2SF v) as [[|]|s| |s m e]; try contradiction; try reflexivity.
  change (SFadd prec emax (S754_zero false) (S754_finite s m e)) with (S754_finite s m e).
  pose proof (SFadd_finite s m e (negb s) m e) as H.
  cbn [SFopp]. set (r := SFadd prec emax _ _) in *. clearbody r.
  assert (E : SF2R (S754_finite s m e) + SF2R (S754_finite (negb s) m e) = 0).
  { cbn [SF2R]. rewrite !F2R_cond_Zopp. destruct s; cbn [negb]; lra. }
  rewrite E in H. destruct H as [[_ ->]|[[H _]|[H _]]]; [reflexivity|lra|lra].
Qed.

(** ** Neutral elements *)



(** ** Comparisons *)

Theorem leb_not_ltb t x :
  is_fin (Prim2SF t) -> (t <=? x)%float = true -> (x <? t)%float = false.
Proof.
  intros Ft. rewrite FloatAxioms.leb_spec, FloatAxioms.ltb_spec. unfold SFleb, SFltb.
  pose proof (Prim2SF_valid t) as Vt. pose proof (Prim2SF_valid x) as Vx.
  destruct (Prim2SF x) as [sx|sx| |sx mx ex] eqn:Ex.
  - pose proof (SFcompare_spec _ _ Vt Vx Ft I) as H1.
    pose proof (SFcompare_spec _ _ Vx Vt I Ft) as H2.
    destruct (SFcompare (Prim2SF t) _) as [[| |]|]; try discriminate;
    destruct (SFcompare _ (Prim2SF t)) as [[| |]|]; try reflexivity; lra.
  - destruct (Prim2SF t) as [st|st| |st mt et]; try contradiction;
      destruct sx; cbn; try discriminate; reflexivity.
  - destruct (Prim2SF t) as [st|st| |st mt et]; try contradiction; discriminate.
  - pose proof (SFcompare_spec _ _ Vt Vx Ft I) as H1.
    pose proof (SFcompare_spec _ _ Vx Vt I Ft) as H2.
    destruct (SFcompare (Prim2SF t) _) as [[| |]|]; try discriminate;
    destruct (SFcompare _ (Prim2SF t)) as [[| |]|]; try reflexivity; lra.
Qed.

(** ** Signs of products and quotients *)

Theorem mul_nonneg x y :
  nonneg x -> nonneg y -> is_fin (Prim2SF x) -> is_fin (Prim2SF y) -> nonneg (x * y)%float.
Proof.
  unfold nonneg. rewrite FloatAxioms.mul_spec.
  pose proof (Prim2SF_valid x) as Vx. pose proof (Prim2SF_valid y) as Vy.
  destruct (Prim2SF x) as [sx|sx| |sx mx ex]; try contradiction;
  destruct (Prim2SF y) as [sy|sy| |sy my ey]; try contradiction;
    cbn [signed]; intros -> -> _ _; try reflexivity.
  change false with (xorb false false) at 1.
  apply (Rnd_signed_sign _ _ _ (SFmul_finite _ _ _ _ _ _ Vx Vy)).
  pose proof (F2R_pos (Zpos mx) ex ltac:(lia)). pose proof (F2R_pos (Zpos my) ey ltac:(lia)).
  nra.
Qed.

Theorem div_nonneg lo c r :
  nonneg c -> is_fin (Prim2SF c) -> nonneg r -> Low lo r -> nonneg (c / r)%float.
Proof.
  unfold nonneg, Low. rewrite FloatAxioms.div_spec.
  destruct (Prim2SF c) as [sx|sx| |sx mx ex]; try contradiction;
  destruct (Prim2SF r) as [sy|sy| |sy my ey]; try contradiction;
    cbn [signed]; intros -> _ -> _; try reflexivity.
  change false with (xorb false false) at 1.
  apply (Rnd_signed_sign _ _ _ (SFdiv_finite _ _ _ _ _ _)).
  pose proof (F2R_pos (Zpos mx) ex ltac:(lia)). pose proof (F2R_pos (Zpos my) ey ltac:(lia)).
  left. apply Rdiv_lt_0_compat; assumption.
Qed.


(** ** A lower guard is monotone *)

Theorem guard_mono t r r' :
  nonneg t -> is_fin (Prim2SF t) -> nonneg r -> nonneg r' ->
  (r <=? r')%float = true ->
  ((if r <? t then t else r) <=? (if r' <? t then t else r'))%float = true.
Proof.
  unfold nonneg. intros Ht Ft Hr Hr' Hle.
  pose proof (Prim2SF_valid t) as Vt. pose proof (Prim2SF_valid r) as Vr.
  pose proof (Prim2SF_valid r') as Vr'.
  destruct (r <? t)%float eqn:E1; destruct (r' <? t)%float eqn:E2; try exact Hle;
    rewrite FloatAxioms.ltb_spec in E1, E2; rewrite FloatAxioms.leb_spec in *;
    unfold SFltb, SFleb in *.
  - pose proof (SFcompare_spec _ _ Vt Vt Ft Ft) as H.
    destruct (SFcompare (Prim2SF t) (Prim2SF t)) as [[| |]|];
      try reflexivity; try lra; contradiction.
  - destruct (Prim2SF r') as [s'|s'| |s' m' e'] eqn:Er'; try contradiction;
      cbn [signed] in Hr'; subst s'.
    + pose proof (SFcompare_spec _ _ Vt Vr' Ft I) as H1.
      pose proof (SFcompare_spec _ _ Vr' Vt I Ft) as H2.
      match goal with |- context [SFcompare ?a ?b] =>
        destruct (SFcompare a b) as [[| |]|] end; try reflexivity; try contradiction;
      match type of E2 with context [SFcompare ?a ?b] =>
        destruct (SFcompare a b) as [[| |]|] end; try discriminate; try contradiction; lra.
    + destruct (Prim2SF t) as [st|st| |st mt et]; try contradiction; reflexivity.
    + pose proof (SFcompare_spec _ _ Vt Vr' Ft I) as H1.
      pose proof (SFcompare_spec _ _ Vr' Vt I Ft) as H2.
      match goal with |- context [SFcompare ?a ?b] =>
        destruct (SFcompare a b) as [[| |]|] end; try reflexivity; try contradiction;
      match type of E2 with context [SFcompare ?a ?b] =>
        destruct (SFcompare a b) as [[| |]|] end; try discriminate; try contradiction; lra.
  - exfalso.
    assert (Fr' : is_fin (Prim2SF r')).
    { destruct (Prim2SF r') as [s'|s'| |s' m' e']; try exact I; try contradiction.
      cbn [signed] in Hr'; subst s'.
      destruct (Prim2SF t) as [st|st| |st mt et]; try contradiction; discriminate. }
    assert (Fr : is_fin (Prim2SF r)).
    { destruct (Prim2SF r) as [s|s| |s m e]; try exact I; try contradiction.
      cbn [signed] in Hr; subst s.
      destruct (Prim2SF r') as [s'|s'| |s' m' e']; try contradiction; discriminate. }
    pose proof (SFcompare_spec _ _ Vr Vr' Fr Fr') as H1.
    pose proof (SFcompare_spec _ _ Vr' Vt Fr' Ft) as H2.
    pose proof (SFcompare_spec _ _ Vr Vt Fr Ft) as H3.
    destruct (SFcompare (Prim2SF r) (Prim2SF r')) as [[| |]|]; try discriminate;
    destruct (SFcompare (Prim2SF r') (Prim2SF t)) as [[| |]|]; try discriminate;
    destruct (SFcompare (Prim2SF r) (Prim2SF t)) as [[| |]|]; try discriminate;
      try contradiction; lra.
Qed.

(** ** The error of one addition *)

Lemma rne_rel_error x E M : rne_rel x E M -> Rabs (F2R M E - x) <= bpow E / 2.
Proof.
  intros [[H1 H2] _]. unfold F2R in *.
  rewrite minus_IZR, mult_IZR in H1. rewrite plus_IZR, mult_IZR in H2.
  pose proof (bpow_gt_0 E). apply Rabs_le. lra.
Qed.

Lemma rne_rel_exact_int N E M : rne_rel (F2R N E) E M -> M = N.
Proof.
  intros [[H1 H2] _]. rewrite <- F2R_twice in H1, H2.
  apply F2R_le_inv in H1, H2. lia.
Qed.

(** Every finite float is an integer multiple of [2^emin]. *)
Lemma SF2R_emin f :
  valid_binary f = true -> exists N, SF2R f = F2R N emin.
Proof.
  destruct f as [s|s| |s m e]; intros V; try (exists 0%Z; cbn [SF2R]; rewrite F2R_0; reflexivity).
  apply valid_finite_range in V as ([He _] & _).
  exists (cond_Zopp s (Zpos m) * 2 ^ (e - emin))%Z. cbn [SF2R].
  rewrite F2R_shift by lia. f_equal. lia.
Qed.

Lemma Rnd_error s x r N :
  Rnd s x r -> 0 <= x -> x = F2R N emin -> is_fin r ->
  exists y, SF2R r = (if s then - y else y) /\ Rabs (y - x) <= bpow (-53) * x.
Proof.
  intros H Hx HN Hf.
  destruct (Rnd_parts _ _ _ H Hx) as (M & E & Hc & Hr & -> & [HM _] & _).
  exists (F2R M E). split.
  - destruct (pack_cases s M E HM) as [[-> ->]|[(_ & _ & m & -> & Hm)|(_ & _ & Hp)]].
    + cbn [SF2R]. rewrite F2R_0. destruct s; lra.
    + cbn [SF2R]. rewrite F2R_cond_Zopp, Hm. reflexivity.
    + rewrite Hp in Hf. contradiction.
  - destruct Hc as [[-> _]|[HE [Hlo _]]].
    + rewrite HN in Hr. apply rne_rel_exact_int in Hr. subst M.
      rewrite <- HN. replace (x - x) with 0 by lra. rewrite Rabs_R0.
      pose proof (bpow_gt_0 (-53)). nra.
    + apply Rle_trans with (bpow E / 2); [apply rne_rel_error, Hr|].
      replace (bpow E / 2) with (bpow (-53) * bpow (E + 52)).
      * apply Rmult_le_compat_l; [left; apply bpow_gt_0|exact Hlo].
      * rewrite <- bpow_plus. replace (-53 + (E + 52))%Z with (E - 1)%Z by lia.
        apply bpow_pred.
Qed.

Lemma Rnd_signed_error v r N :
  Rnd_signed v r -> v = F2R N emin -> is_fin r ->
  Rabs (SF2R r - v) <= bpow (-53) * Rabs v.
Proof.
  intros [[-> ->]|[[Hv H]|[Hv H]]] HN Hf.
  - cbn [SF2R]. replace (0 - 0) with 0 by lra. rewrite Rabs_R0. lra.
  - destruct (Rnd_error _ _ _ N H ltac:(lra) HN Hf) as (y & -> & Hy).
    rewrite (Rabs_pos_eq v) by lra. exact Hy.
  - destruct (Rnd_error _ _ _ (- N) H ltac:(lra) ltac:(rewrite F2R_opp; lra) Hf)
      as (y & -> & Hy).
    rewrite (Rabs_left v) by lra.
    replace (- y - v) with (- (y - - v)) by lra. rewrite Rabs_Ropp. exact Hy.
Qed.

Theorem SFadd_error x y :
  valid_binary x = true -> valid_binary y = true -> is_fin x -> is_fin y ->
  is_fin (SFadd prec emax x y) ->
  Rabs (SF2R (SFadd prec emax x y) - (SF2R x + SF2R y))
  <= bpow (-53) * Rabs (SF2R x + SF2R y).
Proof.
  intros Vx Vy Fx Fy Fr.
  assert (Hex : forall a b : R, a = b -> Rabs (a - b) <= bpow (-53) * Rabs b).
  { intros a b ->. replace (b - b) with 0 by lra. rewrite Rabs_R0.
    pose proof (bpow_gt_0 (-53)). pose proof (Rabs_pos b). nra. }
  destruct (SF2R_emin x Vx) as [Nx Hx]. destruct (SF2R_emin y Vy) as [Ny Hy].
  destruct x as [sx|sx| |sx mx ex]; try contradiction;
  destruct y as [sy|sy| |sy my ey]; try contradiction.
  - apply Hex. destruct sx, sy; cbn; lra.
  - apply Hex. cbn [SFadd SF2R]. lra.
  - apply Hex. cbn [SFadd SF2R]. lra.
  - apply (Rnd_signed_error _ _ (Nx + Ny)); [apply SFadd_finite| |exact Fr].
    rewrite F2R_plus, Hx, Hy. reflexivity.
Qed.

Theorem add_error x y :
  is_fin (Prim2SF x) -> is_fin (Prim2SF y) -> is_fin (Prim2SF (x + y)%float) ->
  Rabs (B2R (x + y)%float - (B2R x + B2R y)) <= bpow (-53) * Rabs (B2R x + B2R y).
Proof.
  unfold B2R. rewrite FloatAxioms.add_spec. intros Fx Fy Fr.
  apply SFadd_error; try assumption; apply Prim2SF_valid.
Qed.

(** ** Sums with a zero *)

(** A zero added to a number that is not a zero leaves the number. *)
Theorem add_zero_nonzero_l z x : zero z -> ~ zero x -> (z + x)%float = x.
Proof.
  intros [s Hz] Hx. apply Prim2SF_inj. rewrite FloatAxioms.add_spec, Hz.
  unfold zero in Hx.
  destruct (Prim2SF x) as [sx|sx| |sx mx ex]; try reflexivity.
  exfalso. apply Hx. eauto.
Qed.

Theorem add_zero_zero z z' : zero z -> zero z' -> zero (z + z')%float.
Proof.
  intros [s Hz] [s' Hz']. unfold zero. rewrite FloatAxioms.add_spec, Hz, Hz'.
  destruct s, s'; cbn; eauto.
Qed.

Theorem opp_zero z : zero z -> zero (- z)%float.
Proof.
  intros [s Hz]. unfold zero. rewrite FloatAxioms.opp_spec, Hz. cbn. eauto.
Qed.

Theorem opp_nonzero x : ~ zero x -> ~ zero (- x)%float.
Proof.
  unfold zero. rewrite FloatAxioms.opp_spec. intros H [s Hs]. apply H.
  destruct (Prim2SF x) as [sx|sx| |sx mx ex]; try discriminate. eauto.
Qed.

Theorem sub_zero_zero z z' : zero z -> zero z' -> zero (z - z')%float.
Proof.
  intros [s Hz] [s' Hz']. unfold zero. rewrite FloatAxioms.sub_spec, Hz, Hz'.
  destruct s, s'; cbn; eauto.
Qed.

(** ** Absolute values *)

Theorem abs_opp x : abs (- x) = abs x.
Proof.
  apply Prim2SF_inj. rewrite !FloatAxioms.abs_spec, FloatAxioms.opp_spec.
  destruct (Prim2SF x) as [s|s| |s m e]; reflexivity.
Qed.

Theorem abs_nonneg x : nonneg x -> abs x = x.
Proof.
  unfold nonneg. intros H. apply Prim2SF_inj. rewrite FloatAxioms.abs_spec.
  destruct (Prim2SF x) as [s|s| |s m e]; cbn [signed] in H; try contradiction;
    subst; reflexivity.
Qed.

Theorem abs_is_nonneg x : is_fin (Prim2SF x) -> nonneg (abs x) /\ is_fin (Prim2SF (abs x)).
Proof.
  unfold nonneg. rewrite FloatAxioms.abs_spec.
  destruct (Prim2SF x) as [s|s| |s m e]; try contradiction; intros _; split; exact I || reflexivity.
Qed.

(** A finite float is its absolute value or the opposite of it. *)
Theorem abs_cases x : is_fin (Prim2SF x) -> x = abs x \/ x = (- abs x)%float.
Proof.
  intros H.
  assert (Prim2SF x = Prim2SF (abs x) \/ Prim2SF x = Prim2SF (- abs x)%float) as [E|E].
  { rewrite FloatAxioms.opp_spec, FloatAxioms.abs_spec.
    destruct (Prim2SF x) as [[|]|s| |[|] m e]; try contradiction; cbn; auto. }
  - left. apply Prim2SF_inj, E.
  - right. apply Prim2SF_inj, E.
Qed.

Theorem abs_Bnd B x : Bnd B x -> Bnd B (abs x).
Proof.
  unfold Bnd. rewrite FloatAxioms.abs_spec. intros [Hf Hb].
  destruct (Prim2SF x) as [s|s| |s m e]; try contradiction.
  - apply SFBnd_zero.
  - split; [exact I|]. cbn [SFabs]. rewrite Rabs_SF2R_finite in *. exact Hb.
Qed.

(** The real value of an absolute value. *)
Theorem B2R_abs x : B2R (abs x) = Rabs (B2R x).
Proof.
  unfold B2R. rewrite FloatAxioms.abs_spec.
  destruct (Prim2SF x) as [s|s| |s m e]; cbn [SFabs SF2R]; try (rewrite Rabs_R0; reflexivity).
  change (F2R (cond_Zopp s (Z.pos m)) e) with (SF2R (S754_finite s m e)).
  rewrite Rabs_SF2R_finite. reflexivity.
Qed.

Theorem leb_0_nonneg x : nonneg x -> (0 <=? x)%float = true.
Proof.
  unfold nonneg. rewrite FloatAxioms.leb_spec. unfold SFleb.
  change (Prim2SF 0) with (S754_zero false).
  destruct (Prim2SF x) as [s|s| |s m e]; cbn [signed]; try contradiction;
    intros ->; reflexivity.
Qed.

(** ** Comparisons with a number that is not NaN *)

Lemma is_nan_false x : is_nan x = false -> Prim2SF x <> S754_nan.
Proof.
  unfold is_nan. rewrite FloatAxioms.eqb_spec. unfold SFeqb. intros H E.
  rewrite E in H. discriminate H.
Qed.

(** What is not below the finite [t] is at least [t]. *)
Theorem not_ltb_leb t x :
  is_fin (Prim2SF t) -> is_nan x = false -> (x <? t)%float = false -> (t <=? x)%float = true.
Proof.
  intros Ft Hx. apply is_nan_false in Hx.
  rewrite FloatAxioms.ltb_spec, FloatAxioms.leb_spec. unfold SFltb, SFleb.
  pose proof (Prim2SF_valid t) as Vt. pose proof (Prim2SF_valid x) as Vx.
  destruct (Prim2SF x) as [sx|sx| |sx mx ex] eqn:Ex; try congruence.
  - pose proof (SFcompare_spec _ _ Vt Vx Ft I) as H1.
    pose proof (SFcompare_spec _ _ Vx Vt I Ft) as H2.
    destruct (SFcompare (Prim2SF t) (S754_zero sx)) as [[| |]|]; try contradiction;
    destruct (SFcompare (S754_zero sx) (Prim2SF t)) as [[| |]|]; try contradiction;
      intros H; try discriminate H; try reflexivity; lra.
  - destruct (Prim2SF t) as [st|st| |st mt et]; try contradiction;
      destruct sx; cbn; intros H; try discriminate H; reflexivity.
  - pose proof (SFcompare_spec _ _ Vt Vx Ft I) as H1.
    pose proof (SFcompare_spec _ _ Vx Vt I Ft) as H2.
    destruct (SFcompare (Prim2SF t) (S754_finite sx mx ex)) as [[| |]|]; try contradiction;
    destruct (SFcompare (S754_finite sx mx ex) (Prim2SF t)) as [[| |]|]; try contradiction;
      intros H; try discriminate H; try reflexivity; lra.
Qed.

(** What is not above the finite [t] is at most [t]. *)
Theorem not_gtb_leb t x :
  is_fin (Prim2SF t) -> is_nan x = false -> (t <? x)%float = false -> (x <=? t)%float = true.
Proof.
  intros Ft Hx. apply is_nan_false in Hx.
  rewrite FloatAxioms.ltb_spec, FloatAxioms.leb_spec. unfold SFltb, SFleb.
  pose proof (Prim2SF_valid t) as Vt. pose proof (Prim2SF_valid x) as Vx.
  destruct (Prim2SF x) as [sx|sx| |sx mx ex] eqn:Ex; try congruence.
  - pose proof (SFcompare_spec _ _ Vt Vx Ft I) as H1.
    pose proof (SFcompare_spec _ _ Vx Vt I Ft) as H2.
    destruct (SFcompare (Prim2SF t) (S754_zero sx)) as [[| |]|]; try contradiction;
    destruct (SFcompare (S754_zero sx) (Prim2SF t)) as [[| |]|]; try contradiction;
      intros H; try discriminate H; try reflexivity; lra.
  - destruct (Prim2SF t) as [st|st| |st mt et]; try contradiction;
      destruct sx; cbn; intros H; try discriminate H; reflexivity.
  - pose proof (SFcompare_spec _ _ Vt Vx Ft I) as H1.
    pose proof (SFcompare_spec _ _ Vx Vt I Ft) as H2.
    destruct (SFcompare (Prim2SF t) (S754_finite sx mx ex)) as [[| |]|]; try contradiction;
    destruct (SFcompare (S754_finite sx mx ex) (Prim2SF t)) as [[| |]|]; try contradiction;
      intros H; try discriminate H; try reflexivity; lra.
Qed.

(** ** Sums of opposites *)

Lemma SFmul_opp_l x y : SFmul prec emax (SFopp x) y = SFopp (SFmul prec emax x y).
Proof.
  destruct x as [sx|sx| |sx mx ex], y as [sy|sy| |sy my ey]; cbn [SFmul SFopp];
    try reflexivity; try (f_equal; destruct sx, sy; reflexivity).
  rewrite <- binary_round_aux_opp. f_equal. destruct sx, sy; reflexivity.
Qed.

Theorem mul_opp_l x y : (- x * y)%float = (- (x * y))%float.
Proof.
  apply Prim2SF_inj.
  rewrite FloatAxioms.mul_spec, !FloatAxioms.opp_spec, FloatAxioms.mul_spec.
  apply SFmul_opp_l.
Qed.

Lemma SF2R_opp f : SF2R (SFopp f) = - SF2R f.
Proof.
  destruct f as [s|s| |s m e]; cbn [SFopp SF2R]; try lra.
  rewrite !F2R_cond_Zopp. destruct s; cbn [negb]; lra.
Qed.

Theorem B2R_opp x : B2R (- x)%float = - B2R x.
Proof. unfold B2R. rewrite FloatAxioms.opp_spec. apply SF2R_opp. Qed.

(** The sum of two opposites is the opposite of the sum, or both sums are
    zeros. *)
Lemma SFadd_opp_opp x y :
  is_fin x -> is_fin y ->
  SFadd prec emax (SFopp x) (SFopp y) = SFopp (SFadd prec emax x y)
  \/ ((exists s, SFadd prec emax x y = S754_zero s)
      /\ exists s, SFadd prec emax (SFopp x) (SFopp y) = S754_zero s).
Proof.
  intros Fx Fy.
  destruct x as [sx|sx| |sx mx ex]; try contradiction;
  destruct y as [sy|sy| |sy my ey]; try contradiction.
  - right. destruct sx, sy; cbn; eauto.
  - left. reflexivity.
  - left. reflexivity.
  - pose proof (SFadd_finite sx mx ex sy my ey) as H.
    pose proof (SFadd_finite (negb sx) mx ex (negb sy) my ey) as H'.
    change (S754_finite (negb sx) mx ex) with (SFopp (S754_finite sx mx ex)) in H'.
    change (S754_finite (negb sy) my ey) with (SFopp (S754_finite sy my ey)) in H'.
    rewrite !SF2R_opp in H'.
    set (v := SF2R (S754_finite sx mx ex) + SF2R (S754_finite sy my ey)) in *.
    replace (- SF2R (S754_finite sx mx ex) + - SF2R (S754_finite sy my ey)) with (- v) in H'
      by (unfold v; lra).
    set (r := SFadd prec emax (S754_finite sx mx ex) (S754_finite sy my ey)) in *.
    set (r' := SFadd prec emax (SFopp (S754_finite sx mx ex)) (SFopp (S754_finite sy my ey))) in *.
    clearbody r r' v.
    destruct H as [[Hv ->]|[[Hv H]|[Hv H]]]; destruct H' as [[Hv' ->]|[[Hv' H']|[Hv' H']]];
      try lra.
    + right. eauto.
    + left. rewrite Ropp_involutive in H'.
      apply (Rnd_fun _ _ _ _ H' (Rnd_opp _ _ _ H)).
    + left. apply (Rnd_fun _ _ _ _ H' (Rnd_opp _ _ _ H)).
Qed.

Theorem add_opp_opp x y :
  is_fin (Prim2SF x) -> is_fin (Prim2SF y) ->
  (- x + - y)%float = (- (x + y))%float \/ (zero (x + y)%float /\ zero (- x + - y)%float).
Proof.
  intros Fx Fy. unfold zero.
  rewrite !FloatAxioms.add_spec, !FloatAxioms.opp_spec.
  destruct (SFadd_opp_opp _ _ Fx Fy) as [E|E]; [left|right; exact E].
  apply Prim2SF_inj. rewrite FloatAxioms.opp_spec, !FloatAxioms.add_spec, !FloatAxioms.opp_spec.
  exact E.
Qed.

(** ** Square roots *)

Lemma sq_le_inv (a y : R) : 0 <= y -> a * a <= y * y -> a <= y.
Proof. intros Hy H. destruct (Rle_lt_dec a y); [assumption|nra]. Qed.

Lemma sq_lt_inv (y a : R) : 0 <= a -> y * y < a * a -> y < a.
Proof. intros Ha H. destruct (Rlt_le_dec y a); [assumption|nra]. Qed.

Lemma div2_double e : (2 * Z.div2 e <= e <= 2 * Z.div2 e + 1)%Z.
Proof. pose proof (Z.div2_odd e) as H. destruct (Z.odd e); cbn [Z.b2z] in H; lia. Qed.

Lemma SFsqrt_core_spec m e :
  let '(q, e', l) := SFsqrt_core_binary prec emax (Zpos m) e in
  inb q e' (sqrt (F2R (Zpos m) e)) l
  /\ (0 <= q)%Z
  /\ (e' <= fexp (Zdigits2 q + e'))%Z.
Proof.
  unfold SFsqrt_core_binary.
  set (d := Zdigits2 (Zpos m)). set (g := Z.div2 (d + e + 1)).
  set (e' := Z.min (fexp g) (Z.div2 e)).
  set (s := (e - 2 * e')%Z).
  pose proof (div2_double e) as He2. pose proof (div2_double (d + e + 1)) as Hg2. fold g in Hg2.
  assert (Hs : (0 <= s)%Z) by (unfold s, e'; lia).
  set (m' := match s with Zpos _ => Z.shiftl (Zpos m) s | Z0 => Zpos m | Zneg _ => 0%Z end).
  assert (Hm' : m' = (Zpos m * 2 ^ s)%Z).
  { unfold m'. destruct s as [|p|p]; [lia| |lia]. rewrite Z.shiftl_mul_pow2 by lia. reflexivity. }
  assert (Hm'0 : (0 < m')%Z) by (rewrite Hm'; apply Z.mul_pos_pos; [lia|apply Z.pow_pos_nonneg; lia]).
  pose proof (Z.sqrtrem_spec m' ltac:(lia)) as Hsq.
  destruct (Z.sqrtrem m') as [q r]. destruct Hsq as [Hq Hr].
  assert (Hq0 : (0 <= q)%Z) by lia.
  pose proof (bpow_gt_0 e') as Hbe.
  set (x := sqrt (F2R (Zpos m) e)).
  set (y := sqrt (IZR m')).
  assert (Hy0 : 0 <= y) by apply sqrt_pos.
  assert (Hyy : y * y = IZR q * IZR q + IZR r).
  { unfold y. rewrite sqrt_sqrt by (apply IZR_le; lia). rewrite Hq, plus_IZR, mult_IZR. reflexivity. }
  assert (Hx : x = y * bpow e').
  { unfold x, y, F2R. replace e with (s + (e' + e'))%Z by (unfold s; lia).
    rewrite !bpow_plus, Hm', mult_IZR, <- (bpow_IZR s) by exact Hs.
    replace (IZR (Zpos m) * (bpow s * (bpow e' * bpow e')))
      with ((IZR (Zpos m) * bpow s) * (bpow e' * bpow e')) by ring.
    rewrite sqrt_mult_alt.
    - rewrite sqrt_square by lra. reflexivity.
    - apply Rmult_le_pos; [apply IZR_le; lia|left; apply bpow_gt_0]. }
  assert (Hr' : 0 <= IZR r <= 2 * IZR q).
  { split; [apply IZR_le; lia|]. rewrite <- mult_IZR. apply IZR_le. lia. }
  assert (Hqr : 0 <= IZR q) by (apply IZR_le; exact Hq0).
  assert (Hlo : IZR q <= y) by (apply sq_le_inv; [exact Hy0|rewrite Hyy; lra]).
  assert (Hhi : y < IZR q + 1) by (apply sq_lt_inv; [lra|rewrite Hyy; nra]).
  split; [|split; [exact Hq0|]].
  - unfold inb, F2R. rewrite plus_IZR, Hx.
    destruct (Z.eqb_spec r 0) as [Er|Er].
    + unfold loc_ok. subst r. assert (y = IZR q) as ->; [|reflexivity].
      apply Rle_antisym; [|exact Hlo]. apply sq_le_inv; [exact Hqr|rewrite Hyy; lra].
    + assert (Hrp : 1 <= IZR r) by (apply IZR_le; lia).
      assert (Hgt : IZR q < y) by (apply sq_lt_inv; [exact Hy0|rewrite Hyy; lra]).
      assert (Hmid : (IZR q * bpow e' + (IZR q + 1) * bpow e') / 2 = (IZR q + / 2) * bpow e')
        by field.
      assert (Hhalf : (IZR q + / 2) * (IZR q + / 2) = IZR q * IZR q + IZR q + / 4) by field.
      destruct (Z.leb_spec r q) as [Hrq|Hrq]; unfold loc_ok; rewrite Hmid.
      * apply IZR_le in Hrq.
        assert (y < IZR q + / 2) by (apply sq_lt_inv; [lra|rewrite Hyy, Hhalf; lra]).
        split; apply Rmult_lt_compat_r; assumption.
      * apply (Zlt_le_succ q r) in Hrq. apply IZR_le in Hrq. rewrite succ_IZR in Hrq.
        assert (IZR q + / 2 <= y) by (apply sq_le_inv; [exact Hy0|rewrite Hyy, Hhalf; lra]).
        assert (y <> IZR q + / 2).
        { intros E. rewrite E, Hhalf in Hyy.
          assert (Hz : (4 * (r - q) = 1)%Z).
          { apply eq_IZR. rewrite mult_IZR, minus_IZR. lra. }
          lia. }
        split; apply Rmult_lt_compat_r; try assumption; lra.
  - rewrite fexp_eq. destruct (Z_le_gt_dec e' emin) as [Hle|Hgt]; [lia|].
    assert (He'g : (e' <= g - 53)%Z) by (pose proof (fexp_eq g); unfold e' in *; lia).
    assert (Hdig : (g <= Zdigits2 q + e')%Z); [|lia].
    destruct (Zdigits2_bpow (Zpos m) ltac:(lia)) as [H1 _]. fold d in H1.
    assert (Hxx : x * x = F2R (Zpos m) e).
    { unfold x. apply sqrt_sqrt. unfold F2R. apply Rmult_le_pos; [apply IZR_le; lia|].
      left. apply bpow_gt_0. }
    assert (Hxg : bpow (g - 1) <= x).
    { pose proof (bpow_gt_0 (g - 1)) as Hb.
      apply sq_le_inv; [unfold x; apply sqrt_pos|].
      rewrite Hxx, <- bpow_plus. unfold F2R.
      apply Rle_trans with (bpow (d - 1) * bpow e).
      - rewrite <- bpow_plus. apply bpow_le. lia.
      - apply Rmult_le_compat_r; [left; apply bpow_gt_0|exact H1]. }
    assert (Hq1 : IZR q + 1 <= bpow (Zdigits2 q)).
    { destruct (Z.eq_dec q 0%Z) as [->|Hne]; [cbn [Zdigits2]; rewrite bpow_0; lra|].
      apply Zdigits2_bpow. lia. }
    assert (Hlt : bpow (g - 1 - e') < bpow (Zdigits2 q)).
    { apply Rlt_le_trans with (IZR q + 1); [|exact Hq1].
      apply Rmult_lt_reg_r with (bpow e'); [exact Hbe|].
      rewrite <- bpow_plus. replace (g - 1 - e' + e')%Z with (g - 1)%Z by lia.
      rewrite Hx in Hxg. nra. }
    apply bpow_lt_inv in Hlt. lia.
Qed.

Theorem SFsqrt_finite m e :
  Rnd false (sqrt (F2R (Zpos m) e)) (SFsqrt prec emax (S754_finite false m e)).
Proof.
  cbn [SFsqrt]. pose proof (SFsqrt_core_spec m e) as H.
  destruct (SFsqrt_core_binary prec emax (Zpos m) e) as [[q e'] l].
  destruct H as (Hi & Hq & He). apply binary_round_aux_spec; assumption.
Qed.

Theorem sqrt_mono a b :
  nonneg a -> nonneg b -> (a <=? b)%float = true ->
  (PrimFloat.sqrt a <=? PrimFloat.sqrt b)%float = true.
Proof.
  unfold nonneg. rewrite !FloatAxioms.leb_spec, !FloatAxioms.sqrt_spec.
  pose proof (Prim2SF_valid (PrimFloat.sqrt a)) as Vsa.
  pose proof (Prim2SF_valid (PrimFloat.sqrt b)) as Vsb.
  rewrite FloatAxioms.sqrt_spec in Vsa, Vsb.
  change SF64sqrt with (SFsqrt prec emax) in *. unfold SFleb.
  pose proof (Prim2SF_valid a) as Va. pose proof (Prim2SF_valid b) as Vb.
  destruct (Prim2SF a) as [sa|sa| |sa ma ea]; try contradiction; cbn [signed]; intros ->;
  destruct (Prim2SF b) as [sb|sb| |sb mb eb]; try contradiction; cbn [signed]; intros ->;
    try (intros H; discriminate H); try (intros _; reflexivity).
  - intros _. pose proof (SFsqrt_signed mb eb) as Hs.
    destruct (SFsqrt prec emax (S754_finite false mb eb)) as [s|s| |s m e];
      cbn [signed] in Hs; try contradiction; subst; reflexivity.
  - intros _. pose proof (SFsqrt_signed ma ea) as Hs.
    change (SFsqrt prec emax (S754_infinity false)) with (S754_infinity false).
    destruct (SFsqrt prec emax (S754_finite false ma ea)) as [s|s| |s m e];
      cbn [signed] in Hs; try contradiction; subst; reflexivity.
  - intros Hle.
    pose proof (SFcompare_spec _ _ Va Vb I I) as Hc. cbn [SF2R cond_Zopp] in Hc.
    pose proof (F2R_pos (Zpos ma) ea ltac:(lia)) as Pa.
    assert (Hr : F2R (Zpos ma) ea <= F2R (Zpos mb) eb).
    { destruct (SFcompare _ _) as [[| |]|]; try discriminate; lra. }
    apply (Rnd_le _ _ _ _ (SFsqrt_finite ma ea) (SFsqrt_finite mb eb)); try assumption.
    split; [apply sqrt_pos|apply sqrt_le_1_alt, Hr].
Qed.

Lemma leb_ltb_trans a b c :
  nonneg a -> is_fin (Prim2SF b) -> is_fin (Prim2SF c) ->
  (a <=? b)%float = true -> (b <? c)%float = true -> (a <? c)%float = true.
Proof.
  unfold nonneg. rewrite FloatAxioms.leb_spec, !FloatAxioms.ltb_spec. unfold SFleb, SFltb.
  intros Ha Fb Fc.
  pose proof (Prim2SF_valid a) as Va. pose proof (Prim2SF_valid b) as Vb.
  pose proof (Prim2SF_valid c) as Vc.
  assert (Fa : (match SFcompare (Prim2SF a) (Prim2SF b) with
                | Some (Lt | Eq) => true | _ => false end) = true -> is_fin (Prim2SF a)).
  { destruct (Prim2SF a) as [sa|sa| |sa ma ea]; try contradiction; try (intros _; exact I).
    cbn [signed] in Ha. subst.
    destruct (Prim2SF b) as [sb|sb| |sb mb eb]; try contradiction; intros H; discriminate H. }
  intros H1 H2. specialize (Fa H1).
  pose proof (SFcompare_spec _ _ Va Vb Fa Fb) as C1.
  pose proof (SFcompare_spec _ _ Vb Vc Fb Fc) as C2.
  pose proof (SFcompare_spec _ _ Va Vc Fa Fc) as C3.
  destruct (SFcompare (Prim2SF a) (Prim2SF b)) as [[| |]|]; try discriminate H1;
  destruct (SFcompare (Prim2SF b) (Prim2SF c)) as [[| |]|]; try discriminate H2;
  destruct (SFcompare (Prim2SF a) (Prim2SF c)) as [[| |]|]; try reflexivity;
    try contradiction; lra.
Qed.

(** ** The floats just below a given one *)

(** A non-negative float below [m * 2^e], where [m] has 53 bits, is at
    most [(m - 1) * 2^e]. *)
Lemma below_finite x m e :
  nonneg x -> (2 ^ 52 < Zpos m)%Z -> valid_binary (S754_finite false m e) = true ->
  SFltb (Prim2SF x) (S754_finite false m e) = true ->
  B2R x <= F2R (Zpos m - 1) e.
Proof.
  unfold nonneg, SFltb, B2R. intros Hx Hm Vm Hlt.
  pose proof (Prim2SF_valid x) as Vx.
  assert (Hp : bpow (e + 52) <= F2R (Zpos m - 1) e).
  { rewrite <- (F2R_bpow 52 e) by lia. apply F2R_le. lia. }
  pose proof (bpow_gt_0 (e + 52)) as Hb.
  destruct (Prim2SF x) as [sx|sx| |sx mx ex]; try contradiction; cbn [signed] in Hx; subst.
  - cbn [SF2R]. lra.
  - discriminate Hlt.
  - pose proof (SFcompare_spec _ _ Vx Vm I I) as Hc. cbn [SF2R cond_Zopp] in *.
    destruct (valid_finite_range _ _ _ Vx) as ([Hex _] & Hd & _).
    destruct (valid_finite_bpow _ _ _ Vx) as [Hub _].
    destruct (Z_lt_le_dec ex e) as [Hlow|Hhigh].
    + apply Rle_trans with (bpow (e + 52)); [|exact Hp].
      left. apply Rlt_le_trans with (bpow (ex + 53)); [exact Hub|]. apply bpow_le. lia.
    + assert (Hreal : F2R (Zpos mx) ex < F2R (Zpos m) e).
      { destruct (SFcompare _ _) as [[| |]|]; try discriminate Hlt. exact Hc. }
      clear Hc Hlt Vx Hub.
      replace ex with (e + (ex - e))%Z in Hreal |- * by lia.
      rewrite <- (F2R_shift (Zpos mx) e (ex - e)) in Hreal |- * by lia.
      apply F2R_lt_inv in Hreal. apply F2R_le. lia.
Qed.

Lemma nonneg_not_nan x : nonneg x -> is_nan x = false.
Proof.
  unfold nonneg, is_nan. rewrite FloatAxioms.eqb_spec. unfold SFeqb.
  destruct (Prim2SF x) as [s|s| |s m e] eqn:E; try contradiction; intros Hs.
  - reflexivity.
  - cbn [signed] in Hs. subst. reflexivity.
  - rewrite (SFcompare_refl_fin (S754_finite s m e) I). reflexivity.
Qed.

(** A non-negative float below the finite [t] with a 53-bit mantissa is at
    most the float before [t]. *)
Theorem ltb_leb_pred x t p m e :
  nonneg x -> Prim2SF t = S754_finite false m e -> (2 ^ 52 < Zpos m)%Z ->
  Prim2SF p = S754_finite false (Z.to_pos (Zpos m - 1)) e ->
  (x <? t)%float = true -> (x <=? p)%float = true.
Proof.
  intros Hx Ht Hm Hp Hlt. rewrite FloatAxioms.ltb_spec, Ht in Hlt.
  pose proof (Prim2SF_valid t) as Vt. rewrite Ht in Vt.
  pose proof (below_finite x m e Hx Hm Vt Hlt) as Hle.
  assert (Fx : is_fin (Prim2SF x)).
  { unfold nonneg, SFltb in *. destruct (Prim2SF x) as [s|s| |s mx ex]; try exact I;
      try contradiction. cbn [signed] in Hx. subst. discriminate Hlt. }
  apply B2R_leb; [exact Fx|rewrite Hp; exact I|].
  unfold B2R at 2. rewrite Hp. cbn [SF2R cond_Zopp]. rewrite Z2Pos.id by lia. exact Hle.
Qed.

End B64Facts.

(** * The heap-level execution of the evaluator *)

Import Py ElectricField View.

Module Wp.

Lemma wp_ret {A} (a : A) h Q : Q a h -> wp (mret a) h Q.
Proof. intros HQ. exists a, h. split; [reflexivity | exact HQ]. Qed.

Lemma wp_bind {A B} (m : M A) (f : A -> M B) h Q :
  wp m h (fun a h' => wp (f a) h' Q) -> wp (m ≫= f) h Q.
Proof.
  intros (a & h' & Hm & b & h'' & Hf & HQ).
  exists b, h''. split; [|exact HQ].
  unfold mbind, M_bind. rewrite Hm. exact Hf.
Qed.

Lemma wp_mono {A} (m : M A) h (Q Q' : A -> heap -> Prop) :
  wp m h Q -> (forall a h', Q a h' -> Q' a h') -> wp m h Q'.
Proof. intros (a & h' & Hm & HQ) HQQ. exists a, h'. auto. Qed.

Lemma wp_alloc o h (Q : loc -> heap -> Prop) :
  (forall l, h !! l = None -> Q l (<[l := o]> h)) -> wp (alloc o) h Q.
Proof.
  intros HQ. exists (fresh (dom h)), (<[fresh (dom h) := o]> h).
  split; [reflexivity|]. apply HQ. apply not_elem_of_dom, is_fresh.
Qed.

Lemma wp_read l o h (Q : object -> heap -> Prop) :
  h !! l = Some o -> Q o h -> wp (read l) h Q.
Proof. intros Hl HQ. exists o, h. unfold read. rewrite Hl. auto. Qed.

Lemma wp_write l o o' h (Q : unit -> heap -> Prop) :
  h !! l = Some o' -> Q tt (<[l := o]> h) -> wp (write l o) h Q.
Proof. intros Hl HQ. exists tt, (<[l := o]> h). unfold write. rewrite Hl. auto. Qed.

Lemma wp_read1 l a h (Q : Numpy.ndarray1 -> heap -> Prop) :
  h !! l = Some (ONdarray1 a) -> Q a h -> wp (read1 l) h Q.
Proof.
  intros Hl HQ. unfold read1. apply wp_bind. eapply wp_read; [exact Hl|].
  apply wp_ret. exact HQ.
Qed.

Lemma wp_read2 l a h (Q : Numpy.ndarray2 -> heap -> Prop) :
  h !! l = Some (ONdarray2 a) -> Q a h -> wp (read2 l) h Q.
Proof.
  intros Hl HQ. unfold read2. apply wp_bind. eapply wp_read; [exact Hl|].
  apply wp_ret. exact HQ.
Qed.

Lemma wp_read_dict l c h (Q : Charge -> heap -> Prop) :
  h !! l = Some (ODict c) -> Q c h -> wp (read_dict l) h Q.
Proof.
  intros Hl HQ. unfold read_dict. apply wp_bind. eapply wp_read; [exact Hl|].
  apply wp_ret. exact HQ.
Qed.

Lemma wp_read_list l ls h (Q : list loc -> heap -> Prop) :
  h !! l = Some (OList ls) -> Q ls h -> wp (read_list l) h Q.
Proof.
  intros Hl HQ. unfold read_list. apply wp_bind. eapply wp_read; [exact Hl|].
  apply wp_ret. exact HQ.
Qed.

Lemma wp_np_ew1 f l a h (Q : loc -> heap -> Prop) :
  h !! l = Some (ONdarray2 a) ->
  (forall l', h !! l' = None -> Q l' (<[l' := ONdarray2 (Numpy.ew1 f a)]> h)) ->
  wp (np_ew1 f l) h Q.
Proof.
  intros Hl HQ. unfold np_ew1. apply wp_bind. eapply wp_read2; [exact Hl|].
  apply wp_alloc. exact HQ.
Qed.

Lemma wp_np_ew2 f la lb a b h (Q : loc -> heap -> Prop) :
  h !! la = Some (ONdarray2 a) -> h !! lb = Some (ONdarray2 b) ->
  (forall l', h !! l' = None -> Q l' (<[l' := ONdarray2 (Numpy.ew2 f a b)]> h)) ->
  wp (np_ew2 f la lb) h Q.
Proof.
  intros Ha Hb HQ. unfold np_ew2. apply wp_bind. eapply wp_read2; [exact Ha|].
  apply wp_bind. eapply wp_read2; [exact Hb|].
  apply wp_alloc. exact HQ.
Qed.

Lemma wp_np_setitem_where_lt l t v a h (Q : unit -> heap -> Prop) :
  h !! l = Some (ONdarray2 a) ->
  Q tt (<[l := ONdarray2 (Numpy.where_lt t v a)]> h) ->
  wp (np_setitem_where_lt l t v) h Q.
Proof.
  intros Hl HQ. unfold np_setitem_where_lt. apply wp_bind.
  eapply wp_read2; [exact Hl|]. eapply wp_write; [exact Hl|exact HQ].
Qed.

Lemma wp_np_iadd la lb a b h (Q : unit -> heap -> Prop) :
  h !! la = Some (ONdarray2 a) -> h !! lb = Some (ONdarray2 b) ->
  Q tt (<[la := ONdarray2 (Numpy.ew2 PrimFloat.add a b)]> h) ->
  wp (np_iadd la lb) h Q.
Proof.
  intros Ha Hb HQ. unfold np_iadd. apply wp_bind. eapply wp_read2; [exact Ha|].
  apply wp_bind. eapply wp_read2; [exact Hb|].
  eapply wp_write; [exact Ha|exact HQ].
Qed.

(** A reference that is new in [h] differs from every reference in use. *)
Lemma fresh_ne (h : heap) l l' o : h !! l = None -> h !! l' = Some o -> l' <> l.
Proof. intros Hn Hs E. subst. congruence. Qed.

Lemma fresh_below (h0 h : heap) l : h0 ⊆ h -> h !! l = None -> h0 !! l = None.
Proof.
  intros Hsub Hn. destruct (h0 !! l) as [o|] eqn:E; [|reflexivity].
  rewrite (lookup_weaken _ _ _ _ E Hsub) in Hn. discriminate.
Qed.

End Wp.
Import Wp.


(** After an allocation of [l]: every tracked lookup, and the inclusion of
    the base heap [hb], is restated for the new heap, which gets a name. *)
Ltac ne_hyp :=
  first [assumption | apply not_eq_sym; assumption].

Ltac after_alloc hb l Hl :=
  lazymatch goal with
  | |- context [<[l := ?o]> ?h] =>
      let Hb := fresh "Hb" in
      assert (Hb : hb !! l = None) by (eapply fresh_below; [eassumption | exact Hl]);
      repeat match goal with
        | H : h !! ?x = Some ?ox |- _ =>
            let Hne := fresh "Hne" in
            pose proof (fresh_ne h l x ox Hl H) as Hne;
            rewrite <- (lookup_insert_ne h l x o) in H by (apply not_eq_sym; exact Hne)
        end;
      match goal with
      | Hsub : hb ⊆ h |- _ => apply (insert_subseteq_r _ _ l o Hb) in Hsub
      end;
      let Hnew := fresh "Hat" in
      pose proof (lookup_insert_eq h l o) as Hnew;
      clear Hl;
      let h1 := fresh "h" in
      set (h1 := <[l := o]> h) in *; clearbody h1
  end.

(** After an in-place write at [l]. *)
Ltac after_write hb l :=
  lazymatch goal with
  | |- context [<[l := ?o]> ?h] =>
      match goal with
      | H : h !! l = Some _ |- _ => clear H
      end;
      repeat match goal with
        | H : h !! ?x = Some ?ox |- _ =>
            rewrite <- (lookup_insert_ne h l x o) in H by ne_hyp
        end;
      match goal with
      | Hsub : hb ⊆ h, Hb : hb !! l = None |- _ =>
          apply (insert_subseteq_r _ _ l o Hb) in Hsub
      end;
      let Hnew := fresh "Hat" in
      pose proof (lookup_insert_eq h l o) as Hnew;
      let h1 := fresh "h" in
      set (h1 := <[l := o]> h) in *; clearbody h1
  end.


Tactic Notation "step_ew1" constr(hb) "as" ident(l) :=
  apply wp_bind; eapply wp_np_ew1; [eassumption|];
  let Hl := fresh "Hl" in
  intros l Hl; after_alloc hb l Hl.

Tactic Notation "step_ew2" constr(hb) "as" ident(l) :=
  apply wp_bind; eapply wp_np_ew2; [eassumption|eassumption|];
  let Hl := fresh "Hl" in
  intros l Hl; after_alloc hb l Hl.

Tactic Notation "step_alloc" constr(hb) "as" ident(l) :=
  apply wp_alloc;
  let Hl := fresh "Hl" in
  intros l Hl; after_alloc hb l Hl.

Section Body.
Variables (hb : heap) (X Y Ex Ey V : loc) (Xv Yv : Numpy.ndarray2).

Local Abbreviation inv := (Inv.inv hb X Y Ex Ey V Xv Yv).

Lemma loop_body_spec h acc charge c :
  inv h acc -> hb !! charge = Some (ODict c) ->
  wp (loop_body X Y Ex Ey V Consts.k charge) h
     (fun _ h' => inv h' (Spec.add_charge Xv Yv acc c)).
Proof.
  intros [Hsub HX HY HEx HEy HV (Hn1 & Hn2 & Hn3) Hne] Hc.
  destruct Hne as (? & ? & ? & ? & ? & ? & ? & ? & ?).
  destruct acc as [[exv eyv] vv]. simpl in *.
  pose proof (lookup_weaken _ _ _ _ Hc Hsub) as Hc'.
  assert (charge <> Ex /\ charge <> Ey /\ charge <> V) as (? & ? & ?)
    by (repeat split; intros ->; congruence).
  unfold loop_body.
  apply wp_bind. eapply wp_read_dict; [exact Hc'|].
  step_ew1 hb as dx. step_ew1 hb as dy. step_ew1 hb as dx2. step_ew1 hb as dy2.
  step_ew2 hb as r2. step_ew1 hb as r.
  apply wp_bind. eapply wp_np_setitem_where_lt; [eassumption|]. after_write hb r.
  apply wp_bind. eapply wp_np_setitem_where_lt; [eassumption|]. after_write hb r2.
  step_ew1 hb as E_mag. step_ew2 hb as ux. step_ew2 hb as cx.
  apply wp_bind. eapply wp_np_iadd; [eassumption|eassumption|]. after_write hb Ex.
  step_ew2 hb as uy. step_ew2 hb as cy.
  apply wp_bind. eapply wp_np_iadd; [eassumption|eassumption|]. after_write hb Ey.
  step_ew1 hb as cv.
  eapply wp_np_iadd; [eassumption|eassumption|]. after_write hb V.
  constructor; simpl; auto 10.
Qed.

Lemma for_each_spec items cs : forall h acc,
  Forall2 (fun l c => hb !! l = Some (ODict c)) items cs ->
  inv h acc ->
  wp (for_each items (loop_body X Y Ex Ey V Consts.k)) h
     (fun _ h' => inv h' (fold_left (Spec.add_charge Xv Yv) cs acc)).
Proof.
  intros h acc HF. revert h acc.
  induction HF as [|l c items cs Hl HF IH]; intros h acc Hinv; simpl.
  - apply wp_ret. exact Hinv.
  - apply wp_bind. eapply wp_mono; [eapply loop_body_spec; eassumption|].
    intros u h' Hinv'. apply IH. exact Hinv'.
Qed.

End Body.

Lemma load_charges_inv (h : heap) charges cs :
  load_charges h charges = Some cs ->
  exists items, h !! charges = Some (OList items)
    /\ Forall2 (fun l c => h !! l = Some (ODict c)) items cs.
Proof.
  unfold load_charges. destruct (h !! charges) as [[| | |items]|] eqn:E; try discriminate.
  intros HM. exists items. split; [reflexivity|].
  apply mapM_Some in HM. eapply Forall2_impl; [exact HM|].
  intros l c. unfold get_dict. destruct (h !! l) as [[]|]; congruence.
Qed.



Lemma meshgrid_shape x y :
  Numpy.shape (Numpy.meshgrid x y).2 = Numpy.shape (Numpy.meshgrid x y).1.
Proof.
  unfold Numpy.shape, Numpy.meshgrid; simpl. rewrite !length_map.
  destruct y; simpl; [reflexivity|]. rewrite length_map. reflexivity.
Qed.

Lemma calculate_wp (hb h : heap) charges items cs G R :
  hb ⊆ h ->
  hb !! charges = Some (OList items) ->
  Forall2 (fun l c => hb !! l = Some (ODict c)) items cs ->
  wp (calculate_field_and_potential charges G R) h
     (fun r h' => hb ⊆ h' /\ load_arrays h' r = Some (Spec.field_and_potential cs G R)).
Proof.
  intros Hsub Hcharges Hitems.
  pose proof (lookup_weaken _ _ _ _ Hcharges Hsub) as Hcharges'.
  unfold calculate_field_and_potential, np_linspace, np_meshgrid, np_shape, np_zeros.
  apply wp_bind. step_alloc hb as x.
  apply wp_bind. step_alloc hb as y.
  apply wp_bind. apply wp_bind. eapply wp_read1; [eassumption|].
  apply wp_bind. eapply wp_read1; [eassumption|].
  apply wp_bind. step_alloc hb as X.
  apply wp_bind. step_alloc hb as Y.
  apply wp_ret.
  apply wp_bind. apply wp_bind. eapply wp_read2; [eassumption|]. apply wp_ret.
  apply wp_bind. step_alloc hb as Ex.
  apply wp_bind. apply wp_bind. eapply wp_read2; [eassumption|]. apply wp_ret.
  apply wp_bind. step_alloc hb as Ey.
  apply wp_bind. apply wp_bind. eapply wp_read2; [eassumption|]. apply wp_ret.
  apply wp_bind. step_alloc hb as V.
  apply wp_bind. eapply wp_read_list; [eassumption|].
  apply wp_bind. eapply wp_mono.
  - eapply for_each_spec with (acc := (_, _, _)); [exact Hitems|].
    constructor; simpl; eauto 10.
  - intros u h' [Hs HX HY HEx HEy HV _ _]. apply wp_ret. split; [exact Hs|].
    unfold load_arrays, get_array. rewrite HX, HY, HEx, HEy, HV.
    unfold Spec.field_and_potential, Spec.grid.
    rewrite meshgrid_shape.
    destruct (Numpy.meshgrid _ _) as [Xv Yv]; simpl.
    match goal with |- context [fold_left ?f ?l ?a] =>
      destruct (fold_left f l a) as [[exv eyv] vv] end.
    reflexivity.
Qed.

Theorem calculate_spec (h : heap) charges cs G R :
  load_charges h charges = Some cs ->
  exists h', returns h charges G R h' (Spec.field_and_potential cs G R) /\ h ⊆ h'.
Proof.
  intros Hload. apply load_charges_inv in Hload as (items & Hcharges & Hitems).
  destruct (calculate_wp h h charges items cs G R) as (r & h' & Hrun & Hsub & Hout);
    [reflexivity|assumption|assumption|].
  exists h'. split; [|exact Hsub]. exists r. auto.
Qed.


(** * Arrays as tables over the grid *)

Module Tab.
Import Spec.

Lemma zip_with_map2 {A B C D} (f : B -> C -> D) (g : A -> B) (h : A -> C) (l : list A) :
  zip_with f (map g l) (map h l) = map (fun a => f (g a) (h a)) l.
Proof. induction l as [|a l IH]; simpl; [reflexivity|]. rewrite IH. reflexivity. Qed.

Lemma meshgrid_tabulate xs ys :
  Numpy.meshgrid xs ys = (tabulate xs ys (fun px _ => px), tabulate xs ys (fun _ py => py)).
Proof.
  unfold Numpy.meshgrid, tabulate. f_equal.
  apply map_ext. intros yi. symmetry. apply map_id.
Qed.

Lemma zeros_tabulate xs ys f :
  Numpy.zeros (Numpy.shape (tabulate xs ys f)) = tabulate xs ys (fun _ _ => 0%float).
Proof.
  assert (Hrow : replicate (length xs) 0%float = map (fun _ : float => 0%float) xs)
    by (induction xs; simpl; congruence).
  unfold Numpy.zeros, Numpy.shape, tabulate.
  destruct ys as [|y0 ys]; [reflexivity|].
  simpl. rewrite !length_map, Hrow. f_equal.
  induction ys; simpl; congruence.
Qed.

Lemma ew1_tabulate g xs ys f :
  Numpy.ew1 g (tabulate xs ys f) = tabulate xs ys (fun px py => g (f px py)).
Proof.
  unfold Numpy.ew1, tabulate. rewrite map_map. apply map_ext. intros yi.
  apply map_map.
Qed.

Lemma ew2_tabulate g xs ys f1 f2 :
  Numpy.ew2 g (tabulate xs ys f1) (tabulate xs ys f2)
  = tabulate xs ys (fun px py => g (f1 px py) (f2 px py)).
Proof.
  unfold Numpy.ew2, tabulate. rewrite zip_with_map2. apply map_ext. intros yi.
  apply zip_with_map2.
Qed.

Lemma lookup_map {A B} (f : A -> B) (l : list A) (i : nat) :
  map f l !! i = f <$> l !! i.
Proof. exact (list_lookup_fmap f l i). Qed.

Lemma at2_tabulate xs ys f i j px py :
  xs !! j = Some px -> ys !! i = Some py ->
  Numpy.at2 (tabulate xs ys f) i j = Some (f px py).
Proof.
  intros Hx Hy. unfold Numpy.at2, tabulate.
  rewrite lookup_map, Hy. simpl. rewrite lookup_map, Hx. reflexivity.
Qed.

Lemma add_charge_tabulate xs ys a1 a2 a3 c :
  Spec.add_charge (tabulate xs ys (fun px _ => px)) (tabulate xs ys (fun _ py => py))
    (tabulate xs ys a1, tabulate xs ys a2, tabulate xs ys a3) c
  = (tabulate xs ys (fun px py => (a1 px py + Spec.Ex_of c px py)%float),
     tabulate xs ys (fun px py => (a2 px py + Spec.Ey_of c px py)%float),
     tabulate xs ys (fun px py => (a3 px py + Spec.V_of c px py)%float)).
Proof.
  unfold Spec.add_charge, Numpy.square, Numpy.where_lt.
  rewrite !ew1_tabulate, !ew2_tabulate, !ew1_tabulate, !ew2_tabulate.
  reflexivity.
Qed.

Lemma fold_add_charge_tabulate xs ys cs : forall a1 a2 a3,
  fold_left (Spec.add_charge (tabulate xs ys (fun px _ => px)) (tabulate xs ys (fun _ py => py)))
    cs (tabulate xs ys a1, tabulate xs ys a2, tabulate xs ys a3)
  = (tabulate xs ys (fun px py => fold_left (fun acc c => (acc + Spec.Ex_of c px py)%float) cs (a1 px py)),
     tabulate xs ys (fun px py => fold_left (fun acc c => (acc + Spec.Ey_of c px py)%float) cs (a2 px py)),
     tabulate xs ys (fun px py => fold_left (fun acc c => (acc + Spec.V_of c px py)%float) cs (a3 px py))).
Proof.
  induction cs as [|c cs IH]; intros a1 a2 a3; cbn [fold_left]; [reflexivity|].
  rewrite add_charge_tabulate. apply IH.
Qed.

Theorem field_and_potential_pointwise cs G R :
  let xs := Numpy.linspace (- R)%float R G in
  Spec.field_and_potential cs G R
  = (tabulate xs xs (fun px _ => px), tabulate xs xs (fun _ py => py),
     tabulate xs xs (Spec.superpose Spec.Ex_of cs),
     tabulate xs xs (Spec.superpose Spec.Ey_of cs),
     tabulate xs xs (Spec.superpose Spec.V_of cs)).
Proof.
  intros xs. unfold Spec.field_and_potential, Spec.grid. fold xs.
  rewrite meshgrid_tabulate, zeros_tabulate, fold_add_charge_tabulate.
  reflexivity.
Qed.

End Tab.

Import B64 B64Facts.

(** * The contribution of one charge at one point *)

Module Kernel.
Import Spec.

Lemma Prim2SF_k : Prim2SF Consts.k = S754_finite false 4713349120000000 (-19).
Proof. reflexivity. Qed.

Lemma Prim2SF_r_min : Prim2SF Consts.r_min = S754_finite false 7205759403792794 (-56).
Proof. reflexivity. Qed.

Lemma Prim2SF_r2_min : Prim2SF Consts.r2_min = S754_finite false 5764607523034235 (-59).
Proof. reflexivity. Qed.

Lemma Prim2SF_5 : Prim2SF 5%float = S754_finite false 5629499534213120 (-50).
Proof. reflexivity. Qed.

Lemma Prim2SF_m5 : Prim2SF (-5)%float = S754_finite true 5629499534213120 (-50).
Proof. reflexivity. Qed.

Lemma k_Bnd : Bnd 34 Consts.k.
Proof. apply (Prim2SF_Bnd _ _ _ _ Prim2SF_k). Qed.

Lemma in_range_Bnd v : in_range v = true -> Bnd 3 v.
Proof.
  unfold in_range. intros H. apply andb_true_iff in H as [H1 H2].
  rewrite FloatAxioms.leb_spec in H1, H2. rewrite Prim2SF_5 in H2. rewrite Prim2SF_m5 in H1.
  pose proof (Prim2SF_valid v) as V.
  pose proof (Prim2SF_Bnd _ _ _ _ Prim2SF_5) as [_ B5]. unfold B2R in B5. rewrite Prim2SF_5 in B5.
  rewrite Rabs_SF2R_finite in B5. change (-50 + 53)%Z with 3%Z in B5.
  pose proof (Prim2SF_valid 5%float) as V5. rewrite Prim2SF_5 in V5.
  pose proof (Prim2SF_valid (-5)%float) as Vm5. rewrite Prim2SF_m5 in Vm5.
  unfold Bnd. destruct (Prim2SF v) as [s|s| |s m e]; try discriminate.
  - apply SFBnd_zero.
  - destruct s; discriminate.
  - split; [exact I|].
    pose proof (SFcompare_spec _ _ V V5 I I) as C2.
    pose proof (SFcompare_spec _ _ Vm5 V I I) as C1.
    unfold SFleb in H1, H2.
    cbn [SF2R cond_Zopp] in C1, C2. rewrite F2R_opp in C1.
    set (t := F2R (cond_Zopp s (Zpos m)) e) in *. cbn [SF2R]. fold t.
    destruct (SFcompare (S754_finite s m e) _) as [[| |]|]; try discriminate;
    destruct (SFcompare _ (S754_finite s m e)) as [[| |]|]; try discriminate;
      apply Rabs_le; lra.
Qed.


Lemma r_min_facts :
  nonneg Consts.r_min /\ Low (-4) Consts.r_min /\ is_fin (Prim2SF Consts.r_min).
Proof.
  split; [|split].
  - unfold nonneg. rewrite Prim2SF_r_min. reflexivity.
  - apply (Prim2SF_Low _ _ _ _ Prim2SF_r_min). unfold emin. lia.
  - rewrite Prim2SF_r_min. exact I.
Qed.

Lemma r2_min_facts :
  nonneg Consts.r2_min /\ Low (-7) Consts.r2_min /\ is_fin (Prim2SF Consts.r2_min).
Proof.
  split; [|split].
  - unfold nonneg. rewrite Prim2SF_r2_min. reflexivity.
  - apply (Prim2SF_Low _ _ _ _ Prim2SF_r2_min). unfold emin. lia.
  - rewrite Prim2SF_r2_min. exact I.
Qed.

(** The guard: a clamped distance is at least [2^-4], a clamped squared
    distance at least [2^-7]; neither is zero or NaN. *)
Lemma clamp_r_Low r : nonneg r -> Low (-4) (clamp_r r) /\ nonneg (clamp_r r).
Proof.
  intros Hr. destruct r_min_facts as (Hn & Hl & Hf). unfold clamp_r.
  destruct (r <? Consts.r_min)%float eqn:E; [auto|].
  split; [|exact Hr]. apply (not_ltb_Low _ Consts.r_min); assumption.
Qed.

Lemma clamp_r2_Low r2 : nonneg r2 -> Low (-7) (clamp_r2 r2) /\ nonneg (clamp_r2 r2).
Proof.
  intros Hr. destruct r2_min_facts as (Hn & Hl & Hf). unfold clamp_r2.
  destruct (r2 <? Consts.r2_min)%float eqn:E; [auto|].
  split; [|exact Hr]. apply (not_ltb_Low _ Consts.r2_min); assumption.
Qed.

Section Point.
(** Coordinates of magnitude at most [2^a]. *)
Variable a : Z.
Hypothesis a_range : (0 <= a <= 900)%Z.
Variables xc yc px py : float.
Hypothesis xc_Bnd : Bnd a xc.
Hypothesis yc_Bnd : Bnd a yc.
Hypothesis px_Bnd : Bnd a px.
Hypothesis py_Bnd : Bnd a py.

Lemma dx_Bnd : Bnd (a + 1) (px - xc)%float.
Proof. apply sub_Bnd; [assumption|assumption|unfold emin; lia]. Qed.

Lemma dy_Bnd : Bnd (a + 1) (py - yc)%float.
Proof. apply sub_Bnd; [assumption|assumption|unfold emin; lia]. Qed.

Lemma dist2_nonneg : nonneg (dist2 xc yc px py).
Proof.
  unfold dist2. apply add_nonneg; eapply mul_self_nonneg; [apply dx_Bnd|apply dy_Bnd].
Qed.

Lemma dist_nonneg : nonneg (dist xc yc px py).
Proof. apply sqrt_nonneg, dist2_nonneg. Qed.

Lemma clamped_dist_Low : Low (-4) (clamp_r (dist xc yc px py)).
Proof. apply clamp_r_Low, dist_nonneg. Qed.

Lemma clamped_dist2_Low : Low (-7) (clamp_r2 (dist2 xc yc px py)).
Proof. apply clamp_r2_Low, dist2_nonneg. Qed.

Lemma ux_Bnd : Bnd (a + 5) ((px - xc) / clamp_r (dist xc yc px py))%float.
Proof.
  replace (a + 5)%Z with (a + 1 - -4)%Z by lia.
  apply div_Bnd; [apply dx_Bnd|apply clamped_dist_Low|unfold emin; lia].
Qed.

Lemma uy_Bnd : Bnd (a + 5) ((py - yc) / clamp_r (dist xc yc px py))%float.
Proof.
  replace (a + 5)%Z with (a + 1 - -4)%Z by lia.
  apply div_Bnd; [apply dy_Bnd|apply clamped_dist_Low|unfold emin; lia].
Qed.

End Point.

Lemma kq_Bnd q : Bnd 3 q -> Bnd 37 (Consts.k * q)%float.
Proof. intros H. apply (mul_Bnd 34 3); [apply k_Bnd|exact H|unfold emin; lia]. Qed.

Section Contribution.
Variable a : Z.
Hypothesis a_range : (0 <= a <= 900)%Z.
Variable c : Charge.
Variables px py : float.
Hypothesis q_Bnd : Bnd 3 (q c).
Hypothesis xc_Bnd : Bnd a (x c).
Hypothesis yc_Bnd : Bnd a (y c).
Hypothesis px_Bnd : Bnd a px.
Hypothesis py_Bnd : Bnd a py.

Lemma E_mag_Bnd : Bnd 44 (E_mag c px py).
Proof.
  unfold E_mag. change 44%Z with (37 - -7)%Z.
  apply div_Bnd; [apply kq_Bnd, q_Bnd| |unfold emin; lia].
  apply (clamped_dist2_Low a); assumption.
Qed.

Lemma Ex_of_Bnd : Bnd (a + 49) (Ex_of c px py).
Proof.
  unfold Ex_of. replace (a + 49)%Z with (44 + (a + 5))%Z by lia.
  apply mul_Bnd; [apply E_mag_Bnd|apply ux_Bnd; assumption|unfold emin; lia].
Qed.

Lemma Ey_of_Bnd : Bnd (a + 49) (Ey_of c px py).
Proof.
  unfold Ey_of. replace (a + 49)%Z with (44 + (a + 5))%Z by lia.
  apply mul_Bnd; [apply E_mag_Bnd|apply uy_Bnd; assumption|unfold emin; lia].
Qed.

Lemma V_of_Bnd : Bnd (a + 49) (V_of c px py).
Proof.
  unfold V_of. apply Bnd_weaken with (37 - -4)%Z; [|lia].
  apply div_Bnd; [apply kq_Bnd, q_Bnd| |unfold emin; lia].
  apply (clamped_dist_Low a); assumption.
Qed.

End Contribution.

(** A sum of [n] bounded terms, accumulated from [0.0]. *)
Lemma fold_add_Bnd (f : Charge -> float) B cs : forall acc n,
  Forall (fun c => Bnd B (f c)) cs ->
  Bnd (B + n) acc -> (0 <= n)%Z -> (emin <= B)%Z ->
  (B + n + Z.of_nat (length cs) <= 1023)%Z ->
  Bnd (B + n + Z.of_nat (length cs)) (fold_left (fun acc c => (acc + f c)%float) cs acc).
Proof.
  induction cs as [|c cs IH]; intros acc n HF Hacc Hn HB Hlen; cbn [fold_left length] in *.
  - rewrite Z.add_0_r. exact Hacc.
  - inversion HF as [|? ? Hc HF']; subst.
    replace (B + n + Z.of_nat (S (length cs)))%Z with (B + (n + 1) + Z.of_nat (length cs))%Z by lia.
    apply IH; [exact HF'| |lia|exact HB|lia].
    rewrite Z.add_assoc. apply add_Bnd; [exact Hacc| |lia].
    apply Bnd_weaken with B; [exact Hc|lia].
Qed.

Lemma zero_float_Bnd B : Bnd B 0%float.
Proof. apply zero_Bnd. exists false. reflexivity. Qed.

Lemma superpose_Bnd f B cs px py :
  Forall (fun c => Bnd B (f c px py)) cs ->
  (emin <= B)%Z -> (B + Z.of_nat (length cs) <= 1023)%Z ->
  Bnd (B + Z.of_nat (length cs)) (superpose f cs px py).
Proof.
  intros HF HB Hlen. unfold superpose.
  pose proof (fold_add_Bnd (fun c => f c px py) B cs 0%float 0 HF) as H.
  rewrite Z.add_0_r in H. apply H; [apply zero_float_Bnd|lia|exact HB|exact Hlen].
Qed.

End Kernel.

(** * The grid: samples of [linspace] stay bounded *)

Module Grid.

Lemma opp_Bnd B v : Bnd B v -> Bnd B (- v)%float.
Proof.
  unfold Bnd. rewrite FloatAxioms.opp_spec. intros [Hf Hb].
  destruct (Prim2SF v) as [s|s| |s m e]; try contradiction.
  - apply SFBnd_zero.
  - split; [exact I|]. cbn [SFopp]. rewrite Rabs_SF2R_finite in *. exact Hb.
Qed.

Lemma to_Z_of_nat n :
  (Z.of_nat n < 2 ^ 63)%Z -> Uint63.to_Z (Uint63.of_Z (Z.of_nat n)) = Z.of_nat n.
Proof.
  intros H. rewrite Uint63.of_Z_spec. apply Z.mod_small.
  change Uint63.wB with (2 ^ 63)%Z. lia.
Qed.

(** The float of a count below [2^d] is at most [2^d]. *)
Lemma float_of_nat_Bnd n d :
  (Z.of_nat n < 2 ^ d)%Z -> (0 <= d <= 63)%Z -> Bnd d (Numpy.float_of_nat n).
Proof.
  intros Hn Hd. unfold Bnd, Numpy.float_of_nat. rewrite of_uint63_spec.
  assert (Z.of_nat n < 2 ^ 63)%Z.
  { apply Z.lt_le_trans with (1 := Hn). apply Z.pow_le_mono_r; lia. }
  rewrite to_Z_of_nat by assumption.
  apply (Rnd_signed_Bnd _ _ _ (binary_normalize_spec _ _)); [|unfold emin; lia].
  unfold F2R. rewrite bpow_0, Rmult_1_r, Rabs_pos_eq by (apply IZR_le; lia).
  rewrite bpow_IZR by lia. apply IZR_le. lia.
Qed.

(** The float of a count of at least [2^c] is at least [2^c]. *)
Lemma float_of_nat_Low n c :
  (2 ^ c <= Z.of_nat n < 2 ^ 63)%Z -> (0 <= c)%Z -> Low c (Numpy.float_of_nat n).
Proof.
  intros Hn Hc. unfold Low, Numpy.float_of_nat. rewrite of_uint63_spec.
  rewrite to_Z_of_nat by lia.
  assert (Hpos : (0 < 2 ^ c)%Z) by (apply Z.pow_pos_nonneg; lia).
  assert (Hx : (bpow c <= F2R (Z.of_nat n) 0)%R).
  { unfold F2R. rewrite bpow_0, Rmult_1_r, bpow_IZR by lia. apply IZR_le. lia. }
  pose proof (bpow_gt_0 c).
  destruct (binary_normalize_spec (Z.of_nat n) 0) as [[H0 _]|[[_ H1]|[H1 _]]]; try lra.
  destruct (Rnd_lower _ _ _ c H1 Hx ltac:(unfold emin; lia)) as [->|(m & e & -> & Hle)];
    [exact I|exact Hle].
Qed.

Lemma Forall_map_Bnd {A} (f : A -> float) B l :
  (forall v, In v l -> Bnd B (f v)) -> Forall (Bnd B) (map f l).
Proof.
  intros H. apply List.Forall_forall. intros y Hy.
  apply in_map_iff in Hy as (v & <- & Hv). apply H. exact Hv.
Qed.

Theorem linspace_Bnd R G :
  Bnd 3 R -> (Z.of_nat G < 2 ^ 63)%Z ->
  Forall (Bnd 6) (Numpy.linspace (- R)%float R G).
Proof.
  intros HR HG. unfold Numpy.linspace, Numpy.arange.
  pose proof (opp_Bnd _ _ HR) as HmR.
  assert (Hdelta : Bnd 4 (R - - R)%float).
  { apply (sub_Bnd 3); [assumption|assumption|unfold emin; lia]. }
  assert (Hplus : forall v, Bnd 5 v -> Bnd 6 (v + - R)%float).
  { intros v Hv. apply (add_Bnd 5);
      [exact Hv|apply Bnd_weaken with 3%Z; [exact HmR|lia]|unfold emin; lia]. }
  destruct (1 <? G)%nat eqn:E1.
  - apply Nat.ltb_lt in E1.
    remember (Nat.pred G) as div eqn:Ediv.
    set (d := (Z.log2 (Z.of_nat div) + 1)%Z).
    assert (Hdiv : (0 < Z.of_nat div)%Z) by lia.
    destruct (Z.log2_spec (Z.of_nat div) Hdiv) as [Hlo Hhi].
    pose proof (Z.log2_nonneg (Z.of_nat div)) as Hl0.
    assert (Hd : (1 <= d <= 63)%Z).
    { unfold d. split; [lia|].
      assert (Z.log2 (Z.of_nat div) < 63)%Z; [|lia].
      apply Z.log2_lt_pow2; lia. }
    assert (Hfdiv : Low (d - 1) (Numpy.float_of_nat div)).
    { apply float_of_nat_Low; [|lia]. unfold d.
      replace (Z.log2 (Z.of_nat div) + 1 - 1)%Z with (Z.log2 (Z.of_nat div)) by lia.
      lia. }
    assert (Hj : forall j, In j (seq 0 G) -> Bnd d (Numpy.float_of_nat j)).
    { intros j Hj. apply in_seq in Hj. apply float_of_nat_Bnd; [|lia].
      unfold d. replace (Z.log2 (Z.of_nat div) + 1)%Z with (Z.succ (Z.log2 (Z.of_nat div))) by lia.
      lia. }
    assert (Hstep : Bnd (5 - d) ((R - - R) / Numpy.float_of_nat div)%float).
    { replace (5 - d)%Z with (4 - (d - 1))%Z by lia.
      apply div_Bnd; [exact Hdelta|exact Hfdiv|unfold emin; lia]. }
    unfold Numpy.set_last. apply Forall_insert.
    + destruct (_ =? 0)%float; rewrite !map_map; apply Forall_map_Bnd; intros j Hin; apply Hplus.
      * change 5%Z with (1 + 4)%Z. apply mul_Bnd; [|exact Hdelta|unfold emin; lia].
        replace 1%Z with (d - (d - 1))%Z by lia.
        apply div_Bnd; [apply Hj; exact Hin|exact Hfdiv|unfold emin; lia].
      * replace 5%Z with (d + (5 - d))%Z by lia.
        apply mul_Bnd; [apply Hj; exact Hin|exact Hstep|unfold emin; lia].
    + apply Bnd_weaken with 3%Z; [exact HR|lia].
  - apply Nat.ltb_ge in E1. rewrite !map_map. apply Forall_map_Bnd. intros j Hin.
    apply in_seq in Hin. apply Hplus. change 5%Z with (1 + 4)%Z.
    apply mul_Bnd; [|exact Hdelta|unfold emin; lia].
    apply float_of_nat_Bnd; lia.
Qed.

End Grid.

Import Wp Tab Kernel Grid Examples Tolerance.

(** * The claims *)

Lemma dipole_loaded : load_charges dipole_heap dipole_loc = Some dipole.
Proof. vm_compute. reflexivity. Qed.

Lemma load_charges_weaken (h h' : heap) l cs :
  h ⊆ h' -> load_charges h l = Some cs -> load_charges h' l = Some cs.
Proof.
  intros Hsub Hl. apply load_charges_inv in Hl as (items & Hi & HF).
  unfold load_charges. rewrite (lookup_weaken _ _ _ _ Hi Hsub).
  apply mapM_Some. eapply Forall2_impl; [exact HF|].
  intros l0 c Hc. unfold get_dict. rewrite (lookup_weaken _ _ _ _ Hc Hsub). reflexivity.
Qed.

(** C1: on every heap whose [charges] argument holds the charge list [cs],
    the call returns, and the arrays it returns are those of the
    specification's algorithm: the mesh of [G] linearly spaced samples over
    [[-R, R]], and [Ex, Ey, V] accumulated from zero arrays one charge after
    the other, each charge's [r] and [r2] clamped before its contribution is
    added.  Entry [i][j] of the results is the superposition at the point
    [(xs[j], xs[i])] of the per-charge contributions. *)
Theorem calculate_follows_algorithm (h : heap) (charges : loc) (cs : list Charge)
    (G : nat) (R : float) :
  load_charges h charges = Some cs ->
  (exists h', returns h charges G R h' (Spec.field_and_potential cs G R))
  /\ let xs := Numpy.linspace (- R)%float R G in
     Spec.field_and_potential cs G R
     = (Spec.tabulate xs xs (fun px _ => px), Spec.tabulate xs xs (fun _ py => py),
        Spec.tabulate xs xs (Spec.superpose Spec.Ex_of cs),
        Spec.tabulate xs xs (Spec.superpose Spec.Ey_of cs),
        Spec.tabulate xs xs (Spec.superpose Spec.V_of cs)).
Proof.
  intros Hload. split.
  - destruct (calculate_spec h charges cs G R Hload) as (h' & Hret & _). eauto.
  - apply field_and_potential_pointwise.
Qed.

Lemma calculate_follows_algorithm_witness :
  load_charges dipole_heap dipole_loc = Some dipole
  /\ ((exists h', returns dipole_heap dipole_loc 3 5 h' (Spec.field_and_potential dipole 3 5))
      /\ let xs := Numpy.linspace (- 5)%float 5 3 in
         Spec.field_and_potential dipole 3 5
         = (Spec.tabulate xs xs (fun px _ => px), Spec.tabulate xs xs (fun _ py => py),
            Spec.tabulate xs xs (Spec.superpose Spec.Ex_of dipole),
            Spec.tabulate xs xs (Spec.superpose Spec.Ey_of dipole),
            Spec.tabulate xs xs (Spec.superpose Spec.V_of dipole))).
Proof.
  split; [exact dipole_loaded|].
  apply (calculate_follows_algorithm dipole_heap dipole_loc dipole 3 5 dipole_loaded).
Defined.

(** C7: the result is a function of the charge values, the grid size and the
    range alone: two calls on any two heaps that hold the same charge list
    (at any references, among any other objects) return the same five
    arrays, and each call leaves every object of its heap as it was. *)
Theorem calculate_deterministic_pure (h1 h2 : heap) (l1 l2 : loc) (cs : list Charge)
    (G : nat) (R : float) :
  load_charges h1 l1 = Some cs ->
  load_charges h2 l2 = Some cs ->
  exists h1' h2' out,
    returns h1 l1 G R h1' out /\ returns h2 l2 G R h2' out
    /\ h1 ⊆ h1' /\ h2 ⊆ h2'.
Proof.
  intros H1 H2.
  destruct (calculate_spec h1 l1 cs G R H1) as (h1' & Hr1 & Hs1).
  destruct (calculate_spec h2 l2 cs G R H2) as (h2' & Hr2 & Hs2).
  exists h1', h2', (Spec.field_and_potential cs G R). auto.
Qed.

Lemma calculate_deterministic_pure_witness :
  load_charges dipole_heap dipole_loc = Some dipole
  /\ load_charges dipole_heap' 9%positive = Some dipole
  /\ exists h1' h2' out,
       returns dipole_heap dipole_loc 3 5 h1' out
       /\ returns dipole_heap' 9%positive 3 5 h2' out
       /\ dipole_heap ⊆ h1' /\ dipole_heap' ⊆ h2'.
Proof.
  assert (H2 : load_charges dipole_heap' 9%positive = Some dipole) by (vm_compute; reflexivity).
  split; [exact dipole_loaded|split; [exact H2|]].
  apply (calculate_deterministic_pure _ _ _ _ dipole 3 5 dipole_loaded H2).
Defined.

(** C10: the call does not modify its [charges] argument: after it the
    list reads back as the same charge values, and every object that was in
    the heap before the call (the list and each of its dictionaries among
    them) is the same object after it. *)
Theorem calculate_preserves_charges (h : heap) (charges : loc) (cs : list Charge)
    (G : nat) (R : float) :
  load_charges h charges = Some cs ->
  exists h' out,
    returns h charges G R h' out
    /\ load_charges h' charges = Some cs
    /\ forall (l : loc) (o : object), h !! l = Some o -> h' !! l = Some o.
Proof.
  intros Hload.
  destruct (calculate_spec h charges cs G R Hload) as (h' & Hr & Hs).
  exists h', (Spec.field_and_potential cs G R).
  split; [exact Hr|split].
  - apply (load_charges_weaken h h'); assumption.
  - intros l o Hl. apply (lookup_weaken _ _ _ _ Hl Hs).
Qed.

Lemma calculate_preserves_charges_witness :
  load_charges dipole_heap dipole_loc = Some dipole
  /\ exists h' out,
       returns dipole_heap dipole_loc 3 5 h' out
       /\ load_charges h' dipole_loc = Some dipole
       /\ forall (l : loc) (o : object), dipole_heap !! l = Some o -> h' !! l = Some o.
Proof.
  split; [exact dipole_loaded|].
  apply (calculate_preserves_charges dipole_heap dipole_loc dipole 3 5 dipole_loaded).
Defined.

(** C8: the sidebar's defaults: charge 1 at [x = -2] with [q = +1], charge 2
    at [x = +2] with [q = -1], every further charge at [x = 0] with [q = +1],
    every [y] at [0]; so an untouched sidebar yields these charges, a dipole
    for two of them. *)
Theorem sidebar_defaults :
  (default_x 0 = (-2)%float /\ default_q 0 = 1%float)
  /\ (default_x 1 = 2%float /\ default_q 1 = (-1)%float)
  /\ (forall i, default_x (S (S i)) = 0%float /\ default_q (S (S i)) = 1%float)
  /\ (forall i, default_y i = 0%float)
  /\ (forall n, collect_charges n untouched
                = map (fun i => {| q := default_q i; x := default_x i; y := 0 |}) (seq 0 n))
  /\ collect_charges 2 untouched = dipole.
Proof.
  repeat split; reflexivity.
Qed.

(** ** Helpers for the numeric claims *)

Lemma eqb_zero v : (v =? 0)%float = true -> zero v.
Proof.
  rewrite FloatAxioms.eqb_spec. unfold SFeqb, zero.
  change (Prim2SF 0%float) with (S754_zero false).
  destruct (Prim2SF v) as [s|s| |s m e]; cbn; try discriminate; eauto;
    destruct s; discriminate.
Qed.

(** Two floats that compare equal, one of them in range, have a zero
    difference. *)
Lemma eqb_sub_zero B p c :
  Bnd B c -> (p =? c)%float = true -> zero (p - c)%float.
Proof.
  intros [Fc _]. rewrite FloatAxioms.eqb_spec. unfold SFeqb, zero. intros He.
  rewrite FloatAxioms.sub_spec.
  pose proof (Prim2SF_valid p) as Vp. pose proof (Prim2SF_valid c) as Vc.
  assert (Fp : is_fin (Prim2SF p)).
  { destruct (Prim2SF p) as [s|s| |s m e], (Prim2SF c) as [s'|s'| |s' m' e'];
      try exact I; try contradiction; try discriminate; destruct s; discriminate. }
  pose proof (SFcompare_spec _ _ Vp Vc Fp Fc) as Hc.
  destruct (SFcompare (Prim2SF p) (Prim2SF c)) as [[| |]|]; try discriminate.
  destruct (SFsub_spec _ _ Vp Vc Fp Fc) as [[_ H]|[[H _]|[H _]]]; [exact H|lra|lra].
Qed.

Lemma zero_mul_self v : zero v -> (v * v)%float = 0%float.
Proof.
  intros [s H]. apply Prim2SF_inj. rewrite FloatAxioms.mul_spec, H.
  destruct s; reflexivity.
Qed.

Lemma clamp_r_0 : Spec.clamp_r (PrimFloat.sqrt (0 + 0)) = Consts.r_min.
Proof. reflexivity. Qed.

Lemma clamp_r2_0 : Spec.clamp_r2 (0 + 0) = Consts.r2_min.
Proof. reflexivity. Qed.

(** What a charge in the sidebar's range adds at a point that coincides
    with its position: zeros for [Ex] and [Ey] (the direction factors are
    [0 / 0.1]) and [k * q / 0.1] for [V]. *)
Lemma coincident_contribution_at (c : Charge) (px py : float) :
  charge_in_range c ->
  (px =? x c)%float = true -> (py =? y c)%float = true ->
  zero (Spec.Ex_of c px py) /\ zero (Spec.Ey_of c px py)
  /\ Spec.V_of c px py = (Consts.k * q c / Consts.r_min)%float.
Proof.
  intros (Hq & Hx & Hy) Hpx Hpy.
  apply in_range_Bnd in Hq, Hx, Hy.
  pose proof (eqb_sub_zero _ _ _ Hx Hpx) as Zx.
  pose proof (eqb_sub_zero _ _ _ Hy Hpy) as Zy.
  assert (Hd2 : Spec.dist2 (x c) (y c) px py = (0 + 0)%float).
  { unfold Spec.dist2. rewrite (zero_mul_self _ Zx), (zero_mul_self _ Zy). reflexivity. }
  assert (HE : Bnd 44 (Spec.E_mag c px py)).
  { unfold Spec.E_mag. rewrite Hd2, clamp_r2_0. change 44%Z with (37 - -7)%Z.
    apply div_Bnd; [apply kq_Bnd, Hq|apply r2_min_facts|unfold emin; lia]. }
  unfold Spec.Ex_of, Spec.Ey_of, Spec.V_of, Spec.dist. rewrite Hd2, clamp_r_0.
  split; [|split; [|reflexivity]].
  - apply (mul_zero_r 44); [exact HE|].
    apply (div_zero_l (-4)); [exact Zx|apply r_min_facts].
  - apply (mul_zero_r 44); [exact HE|].
    apply (div_zero_l (-4)); [exact Zy|apply r_min_facts].
Qed.

(** ** Arrays, entry by entry *)

Lemma at2_tabulate_inv xs ys f i j v :
  Numpy.at2 (Spec.tabulate xs ys f) i j = Some v ->
  exists px py, xs !! j = Some px /\ ys !! i = Some py /\ v = f px py.
Proof.
  unfold Numpy.at2, Spec.tabulate. rewrite lookup_map.
  destruct (ys !! i) as [py|]; [|discriminate]. simpl. rewrite lookup_map.
  destruct (xs !! j) as [px|]; [|discriminate]. simpl.
  intros [= <-]. eauto.
Qed.

Lemma tabulate_ext_in xs ys f g :
  (forall px py, In px xs -> In py ys -> f px py = g px py) ->
  Spec.tabulate xs ys f = Spec.tabulate xs ys g.
Proof.
  intros H. unfold Spec.tabulate. apply map_ext_in. intros py Hy.
  apply map_ext_in. intros px Hx. apply H; assumption.
Qed.

Lemma lookup_In {A} (l : list A) i v : l !! i = Some v -> In v l.
Proof. intros H. apply list_elem_of_In. eapply list_elem_of_lookup_2. exact H. Qed.

Lemma linspace_length a b n : length (Numpy.linspace a b n) = n.
Proof.
  unfold Numpy.linspace, Numpy.set_last, Numpy.arange.
  destruct (1 <? n)%nat; [destruct (_ =? 0)%float|];
    rewrite ?length_insert, !length_map, length_seq; reflexivity.
Qed.

(** Every index below [G] has a sample. *)
Lemma grid_entries R G i j :
  (i < G)%nat -> (j < G)%nat ->
  exists px py,
    Numpy.linspace (- R)%float R G !! j = Some px
    /\ Numpy.linspace (- R)%float R G !! i = Some py.
Proof.
  intros Hi Hj.
  destruct (lookup_lt_is_Some_2 (Numpy.linspace (- R) R G) j) as [px Hpx];
    [rewrite linspace_length; exact Hj|].
  destruct (lookup_lt_is_Some_2 (Numpy.linspace (- R) R G) i) as [py Hpy];
    [rewrite linspace_length; exact Hi|].
  eauto.
Qed.

(** The samples of the grid are finite numbers of magnitude at most [2^6]. *)
Lemma grid_sample_Bnd R G p :
  in_range R = true -> (Z.of_nat G < 2 ^ 63)%Z ->
  In p (Numpy.linspace (- R)%float R G) -> Bnd 6 p.
Proof.
  intros HR HG Hp.
  pose proof (linspace_Bnd R G (in_range_Bnd _ HR) HG) as HF.
  rewrite List.Forall_forall in HF. apply HF. exact Hp.
Qed.

Lemma superpose_app f l1 l2 px py :
  Spec.superpose f (l1 ++ l2) px py
  = fold_left (fun acc c => (acc + f c px py)%float) l2 (Spec.superpose f l1 px py).
Proof. unfold Spec.superpose. apply fold_left_app. Qed.

(** An accumulator that starts at [0.0] is never [-0.0]. *)
Lemma superpose_not_negzero f cs px py :
  Prim2SF (Spec.superpose f cs px py) <> S754_zero true.
Proof.
  induction cs as [|c cs IH] using rev_ind.
  - discriminate.
  - rewrite superpose_app. cbn [fold_left]. intros H. apply IH.
    apply (add_negzero _ _ H).
Qed.

(** ** C5: a charge of magnitude zero *)

Lemma zero_charge_contributions (z : Charge) (px py : float) :
  zero (q z) -> Bnd 6 (x z) -> Bnd 6 (y z) -> Bnd 6 px -> Bnd 6 py ->
  zero (Spec.Ex_of z px py) /\ zero (Spec.Ey_of z px py) /\ zero (Spec.V_of z px py).
Proof.
  intros Zq Hx Hy Hpx Hpy.
  assert (a6 : (0 <= 6 <= 900)%Z) by lia.
  assert (Zk : zero (Consts.k * q z)%float) by (apply (mul_zero_r 34); [apply k_Bnd|exact Zq]).
  assert (ZE : zero (Spec.E_mag z px py)).
  { unfold Spec.E_mag. apply (div_zero_l (-7)); [exact Zk|].
    apply (clamped_dist2_Low 6); assumption. }
  split; [|split].
  - unfold Spec.Ex_of. apply (mul_zero_l (6 + 5)); [exact ZE|]. apply ux_Bnd; assumption.
  - unfold Spec.Ey_of. apply (mul_zero_l (6 + 5)); [exact ZE|]. apply uy_Bnd; assumption.
  - unfold Spec.V_of. apply (div_zero_l (-4)); [exact Zk|].
    apply (clamped_dist_Low 6); assumption.
Qed.

Lemma superpose_skip_zero f before z after px py :
  zero (f z px py) ->
  Spec.superpose f (before ++ z :: after) px py = Spec.superpose f (before ++ after) px py.
Proof.
  intros Hz. rewrite !superpose_app. cbn [fold_left].
  rewrite (add_zero_r _ _ Hz (superpose_not_negzero f before px py)). reflexivity.
Qed.

(** C5: a charge of magnitude zero (its position in the sidebar's range)
    adds a zero to [Ex], [Ey] and [V] at every grid point, and the call
    returns the same five arrays with the charge in the list, wherever it
    stands, as without it. *)
Theorem zero_charge_contributes_nothing (h1 h2 : heap) (l1 l2 : loc)
    (before after : list Charge) (z : Charge) (G : nat) (R : float) :
  (q z =? 0)%float = true ->
  in_range (x z) = true -> in_range (y z) = true ->
  in_range R = true -> (Z.of_nat G < 2 ^ 63)%Z ->
  load_charges h1 l1 = Some (before ++ z :: after) ->
  load_charges h2 l2 = Some (before ++ after) ->
  (forall px py,
      In px (Numpy.linspace (- R)%float R G) -> In py (Numpy.linspace (- R)%float R G) ->
      zero (Spec.Ex_of z px py) /\ zero (Spec.Ey_of z px py) /\ zero (Spec.V_of z px py))
  /\ exists h1' h2' out, returns h1 l1 G R h1' out /\ returns h2 l2 G R h2' out.
Proof.
  intros Hq Hx Hy HR HG Hl1 Hl2.
  apply eqb_zero in Hq.
  assert (Hxz : Bnd 6 (x z)) by (apply Bnd_weaken with 3%Z; [apply in_range_Bnd, Hx|lia]).
  assert (Hyz : Bnd 6 (y z)) by (apply Bnd_weaken with 3%Z; [apply in_range_Bnd, Hy|lia]).
  assert (Hzero : forall px py,
      In px (Numpy.linspace (- R)%float R G) -> In py (Numpy.linspace (- R)%float R G) ->
      zero (Spec.Ex_of z px py) /\ zero (Spec.Ey_of z px py) /\ zero (Spec.V_of z px py)).
  { intros px py Hpx Hpy. apply zero_charge_contributions; try assumption;
      eapply grid_sample_Bnd; eassumption. }
  split; [exact Hzero|].
  destruct (calculate_spec h1 l1 _ G R Hl1) as (h1' & Hr1 & _).
  destruct (calculate_spec h2 l2 _ G R Hl2) as (h2' & Hr2 & _).
  exists h1', h2', (Spec.field_and_potential (before ++ after) G R).
  split; [|exact Hr2].
  replace (Spec.field_and_potential (before ++ after) G R)
    with (Spec.field_and_potential (before ++ z :: after) G R); [exact Hr1|].
  rewrite !field_and_potential_pointwise. cbv zeta.
  f_equal; [f_equal; [f_equal|]|]; apply tabulate_ext_in; intros px py Hpx Hpy;
    apply superpose_skip_zero; apply (Hzero px py Hpx Hpy).
Qed.

Lemma zero_charge_contributes_nothing_witness :
  (0 =? 0)%float = true
  /\ in_range 1 = true /\ in_range 1 = true
  /\ in_range 5 = true /\ (Z.of_nat 3 < 2 ^ 63)%Z
  /\ load_charges (fst (store_charges with_zero_charge)) (snd (store_charges with_zero_charge))
     = Some ([ {| q := 1; x := -2; y := 0 |} ] ++ {| q := 0; x := 1; y := 1 |}
               :: [ {| q := -1; x := 2; y := 0 |} ])
  /\ load_charges dipole_heap dipole_loc
     = Some ([ {| q := 1; x := -2; y := 0 |} ] ++ [ {| q := -1; x := 2; y := 0 |} ])
  /\ ((forall px py,
         In px (Numpy.linspace (- 5)%float 5 3) -> In py (Numpy.linspace (- 5)%float 5 3) ->
         zero (Spec.Ex_of {| q := 0; x := 1; y := 1 |} px py)
         /\ zero (Spec.Ey_of {| q := 0; x := 1; y := 1 |} px py)
         /\ zero (Spec.V_of {| q := 0; x := 1; y := 1 |} px py))
      /\ exists h1' h2' out,
           returns (fst (store_charges with_zero_charge)) (snd (store_charges with_zero_charge))
                   3 5 h1' out
           /\ returns dipole_heap dipole_loc 3 5 h2' out).
Proof.
  assert (H1 : load_charges (fst (store_charges with_zero_charge))
                            (snd (store_charges with_zero_charge))
               = Some ([ {| q := 1; x := -2; y := 0 |} ] ++ {| q := 0; x := 1; y := 1 |}
                         :: [ {| q := -1; x := 2; y := 0 |} ])) by (vm_compute; reflexivity).
  assert (H2 : load_charges dipole_heap dipole_loc
               = Some ([ {| q := 1; x := -2; y := 0 |} ] ++ [ {| q := -1; x := 2; y := 0 |} ]))
    by (vm_compute; reflexivity).
  assert (H3 : (Z.of_nat 3 < 2 ^ 63)%Z) by (vm_compute; reflexivity).
  repeat (split; [first [reflexivity | assumption]|]).
  apply (zero_charge_contributes_nothing _ _ _ _
           [ {| q := 1; x := -2; y := 0 |} ] [ {| q := -1; x := 2; y := 0 |} ]
           {| q := 0; x := 1; y := 1 |} 3 5);
    first [reflexivity | assumption].
Defined.

(** The call returns the five tables over the grid samples. *)
Lemma returns_tables h l cs G R :
  load_charges h l = Some cs ->
  let xs := Numpy.linspace (- R)%float R G in
  exists h',
    returns h l G R h'
      (Spec.tabulate xs xs (fun px _ => px), Spec.tabulate xs xs (fun _ py => py),
       Spec.tabulate xs xs (Spec.superpose Spec.Ex_of cs),
       Spec.tabulate xs xs (Spec.superpose Spec.Ey_of cs),
       Spec.tabulate xs xs (Spec.superpose Spec.V_of cs)).
Proof.
  intros Hl xs. destruct (calculate_spec h l cs G R Hl) as (h' & Hr & _).
  exists h'. rewrite field_and_potential_pointwise in Hr. exact Hr.
Qed.

Lemma grid_point R G i j px py :
  let xs := Numpy.linspace (- R)%float R G in
  Numpy.at2 (Spec.tabulate xs xs (fun px _ => px)) i j = Some px ->
  Numpy.at2 (Spec.tabulate xs xs (fun _ py => py)) i j = Some py ->
  xs !! j = Some px /\ xs !! i = Some py.
Proof.
  intros xs HX HY.
  apply at2_tabulate_inv in HX as (px1 & py1 & Hj & Hi & ->).
  apply at2_tabulate_inv in HY as (px2 & py2 & Hj' & Hi' & ->).
  rewrite Hi' in Hi. injection Hi as <-. split; assumption.
Qed.

(** ** C9: a grid point on a charge *)

(** C9: the iteration of the loop for a charge [c] in the sidebar's range,
    run after the charges [cs], at a grid point that coincides with the
    position of [c]: what the call on [cs ++ [c]] adds there to the entries
    of [Ex] and [Ey] of the call on [cs] is a zero, so that it returns the
    same entries of [Ex] and [Ey], and its entry of [V] is the one of the
    call on [cs] plus exactly [k * q / 0.1]. *)
Theorem coincident_point_contribution (h1 h2 : heap) (l1 l2 : loc)
    (cs : list Charge) (c : Charge) (G : nat) (R : float) (i j : nat) (px py : float) :
  load_charges h1 l1 = Some (cs ++ [c]) -> load_charges h2 l2 = Some cs ->
  charge_in_range c ->
  Numpy.linspace (- R)%float R G !! j = Some px ->
  Numpy.linspace (- R)%float R G !! i = Some py ->
  (px =? x c)%float = true -> (py =? y c)%float = true ->
  exists h1' h2' X Y Ex Ey V Ex' Ey' V' ex ey v zx zy,
    returns h2 l2 G R h2' (X, Y, Ex, Ey, V)
    /\ returns h1 l1 G R h1' (X, Y, Ex', Ey', V')
    /\ Numpy.at2 X i j = Some px /\ Numpy.at2 Y i j = Some py
    /\ Numpy.at2 Ex i j = Some ex /\ Numpy.at2 Ey i j = Some ey
    /\ Numpy.at2 V i j = Some v
    /\ zero zx /\ zero zy
    /\ Numpy.at2 Ex' i j = Some (ex + zx)%float
    /\ Numpy.at2 Ey' i j = Some (ey + zy)%float
    /\ Numpy.at2 Ex' i j = Some ex /\ Numpy.at2 Ey' i j = Some ey
    /\ Numpy.at2 V' i j = Some (v + Consts.k * q c / Consts.r_min)%float.
Proof.
  intros Hl1 Hl2 Hc Hj Hi Hpx Hpy.
  destruct (returns_tables h1 l1 _ G R Hl1) as (h1' & Hr1).
  destruct (returns_tables h2 l2 _ G R Hl2) as (h2' & Hr2).
  destruct (coincident_contribution_at c px py Hc Hpx Hpy) as (Zx & Zy & EV).
  eexists h1', h2', _, _, _, _, _, _, _, _, _, _, _,
          (Spec.Ex_of c px py), (Spec.Ey_of c px py).
  split; [exact Hr2|split; [exact Hr1|]].
  rewrite !(at2_tabulate _ _ _ i j px py Hj Hi).
  repeat (split; [reflexivity|]).
  split; [exact Zx|split; [exact Zy|]].
  rewrite !superpose_app. cbn [fold_left].
  split; [reflexivity|split; [reflexivity|]].
  rewrite EV.
  rewrite (add_zero_r _ _ Zx (superpose_not_negzero Spec.Ex_of cs px py)).
  rewrite (add_zero_r _ _ Zy (superpose_not_negzero Spec.Ey_of cs px py)).
  repeat split.
Qed.

Lemma coincident_point_contribution_witness :
  exists h1' h2' X Y Ex Ey V Ex' Ey' V' ex ey v zx zy,
    returns dipole_heap dipole_loc 3 5 h2' (X, Y, Ex, Ey, V)
    /\ returns (fst (store_charges three_defaults)) (snd (store_charges three_defaults)) 3 5 h1'
               (X, Y, Ex', Ey', V')
    /\ Numpy.at2 X 1 1 = Some 0%float /\ Numpy.at2 Y 1 1 = Some 0%float
    /\ Numpy.at2 Ex 1 1 = Some ex /\ Numpy.at2 Ey 1 1 = Some ey
    /\ Numpy.at2 V 1 1 = Some v
    /\ zero zx /\ zero zy
    /\ Numpy.at2 Ex' 1 1 = Some (ex + zx)%float
    /\ Numpy.at2 Ey' 1 1 = Some (ey + zy)%float
    /\ Numpy.at2 Ex' 1 1 = Some ex /\ Numpy.at2 Ey' 1 1 = Some ey
    /\ Numpy.at2 V' 1 1 = Some (v + Consts.k * 1 / Consts.r_min)%float.
Proof.
  apply (coincident_point_contribution
           (fst (store_charges three_defaults)) dipole_heap
           (snd (store_charges three_defaults)) dipole_loc
           dipole {| q := 1; x := 0; y := 0 |} 3 5 1 1 0 0).
  - vm_compute; reflexivity.
  - vm_compute; reflexivity.
  - repeat split; reflexivity.
  - vm_compute; reflexivity.
  - vm_compute; reflexivity.
  - reflexivity.
  - reflexivity.
Defined.

(** ** C3: the midpoint of a dipole *)

Lemma mirror_dist x1 y1 x2 y2 px py :
  Bnd 6 x1 -> Bnd 6 y1 -> Bnd 6 x2 -> Bnd 6 y2 -> Bnd 6 px -> Bnd 6 py ->
  (2 * B2R px = B2R x1 + B2R x2)%R -> (2 * B2R py = B2R y1 + B2R y2)%R ->
  Spec.dist x1 y1 px py = Spec.dist x2 y2 px py.
Proof.
  intros Hx1 Hy1 Hx2 Hy2 Hpx Hpy Mx My. unfold Spec.dist, Spec.dist2.
  rewrite (sub_mirror_square 6 px x1 x2 Hpx Hx1 Hx2 Mx).
  rewrite (sub_mirror_square 6 py y1 y2 Hpy Hy1 Hy2 My). reflexivity.
Qed.

Lemma opposite_potential (q0 x1 y1 x2 y2 px py : float) :
  Spec.dist x1 y1 px py = Spec.dist x2 y2 px py ->
  Spec.V_of (mkCharge (- q0) x2 y2) px py = (- Spec.V_of (mkCharge q0 x1 y1) px py)%float.
Proof.
  intros Hd. unfold Spec.V_of. cbn [q x y]. rewrite Hd, mul_opp_r, div_opp_l. reflexivity.
Qed.

(** C3: for the charges [q] and [-q] (magnitude and positions in the
    sidebar's range), the call returns arrays in which [V] is exactly
    [0.0] at every grid point that is the midpoint of the two positions. *)
Theorem dipole_midpoint_potential (h : heap) (l : loc) (q0 x1 y1 x2 y2 : float)
    (G : nat) (R : float) (i j : nat) (px py : float) :
  load_charges h l = Some [mkCharge q0 x1 y1; mkCharge (- q0) x2 y2] ->
  in_range q0 = true ->
  in_range x1 = true -> in_range y1 = true ->
  in_range x2 = true -> in_range y2 = true ->
  in_range R = true -> (Z.of_nat G < 2 ^ 63)%Z ->
  Numpy.linspace (- R)%float R G !! j = Some px ->
  Numpy.linspace (- R)%float R G !! i = Some py ->
  (2 * B2R px = B2R x1 + B2R x2)%R -> (2 * B2R py = B2R y1 + B2R y2)%R ->
  exists h' X Y Ex Ey V,
    returns h l G R h' (X, Y, Ex, Ey, V)
    /\ Numpy.at2 X i j = Some px /\ Numpy.at2 Y i j = Some py
    /\ Numpy.at2 V i j = Some 0%float.
Proof.
  intros Hl Hq Hx1 Hy1 Hx2 Hy2 HR HG Hj Hi Mx My.
  destruct (returns_tables h l _ G R Hl) as (h' & Hr).
  eexists h', _, _, _, _, _. split; [exact Hr|].
  rewrite !(at2_tabulate _ _ _ i j px py Hj Hi).
  split; [reflexivity|split; [reflexivity|]]. f_equal.
  assert (B6 : forall v, in_range v = true -> Bnd 6 v).
  { intros v Hv. apply Bnd_weaken with 3%Z; [apply in_range_Bnd, Hv|lia]. }
  assert (Hpx : Bnd 6 px) by (eapply grid_sample_Bnd; eauto using lookup_In).
  assert (Hpy : Bnd 6 py) by (eapply grid_sample_Bnd; eauto using lookup_In).
  unfold Spec.superpose. cbn [fold_left].
  rewrite (opposite_potential q0 x1 y1 x2 y2 px py) by (apply mirror_dist; auto).
  apply add_opp_cancel. apply (Bnd_fin (6 + 49)).
  apply V_of_Bnd; cbn [q x y]; auto using in_range_Bnd. lia.
Qed.

Lemma dipole_midpoint_x : (2 * B2R 0 = B2R (-2) + B2R 2)%R.
Proof.
  unfold B2R. change (Prim2SF 0) with (S754_zero false).
  change (Prim2SF (-2)) with (S754_finite true 4503599627370496 (-51)).
  change (Prim2SF 2) with (S754_finite false 4503599627370496 (-51)).
  cbn [SF2R]. rewrite !F2R_cond_Zopp. lra.
Qed.

Lemma dipole_midpoint_y : (2 * B2R 0 = B2R 0 + B2R 0)%R.
Proof. unfold B2R. change (Prim2SF 0) with (S754_zero false). cbn [SF2R]. lra. Qed.

Lemma dipole_midpoint_potential_witness :
  exists h' X Y Ex Ey V,
    returns dipole_heap dipole_loc 3 5 h' (X, Y, Ex, Ey, V)
    /\ Numpy.at2 X 1 1 = Some 0%float /\ Numpy.at2 Y 1 1 = Some 0%float
    /\ Numpy.at2 V 1 1 = Some 0%float.
Proof.
  apply (dipole_midpoint_potential dipole_heap dipole_loc 1 (-2) 0 2 0 3 5 1 1 0 0).
  - vm_compute; reflexivity.
  - reflexivity.
  - reflexivity.
  - reflexivity.
  - reflexivity.
  - reflexivity.
  - reflexivity.
  - vm_compute; reflexivity.
  - vm_compute; reflexivity.
  - vm_compute; reflexivity.
  - exact dipole_midpoint_x.
  - exact dipole_midpoint_y.
Defined.

(** ** C6: a single positive charge at the origin *)







(** ** C2: no infinity, no NaN *)

Lemma contributions_Bnd cs px py :
  Forall charge_in_range cs -> Bnd 6 px -> Bnd 6 py ->
  Forall (fun c => Bnd 55 (Spec.Ex_of c px py)) cs
  /\ Forall (fun c => Bnd 55 (Spec.Ey_of c px py)) cs
  /\ Forall (fun c => Bnd 55 (Spec.V_of c px py)) cs.
Proof.
  intros Hcs Hpx Hpy.
  assert (B6 : forall v, in_range v = true -> Bnd 6 v).
  { intros v Hv. apply Bnd_weaken with 3%Z; [apply in_range_Bnd, Hv|lia]. }
  induction Hcs as [|c cs (Hq & Hx & Hy) _ (IHx & IHy & IHv)]; [repeat constructor|].
  split; [|split]; constructor; try assumption.
  - apply (Ex_of_Bnd 6); auto using in_range_Bnd. lia.
  - apply (Ey_of_Bnd 6); auto using in_range_Bnd. lia.
  - apply (V_of_Bnd 6); auto using in_range_Bnd. lia.
Qed.

Lemma superpose_finite f cs px py :
  Forall (fun c => Bnd 55 (f c px py)) cs -> (length cs <= 900)%nat ->
  is_finite (Spec.superpose f cs px py) = true.
Proof.
  intros H Hn. apply (Bnd_is_finite (55 + Z.of_nat (length cs))).
  apply superpose_Bnd; [exact H|unfold emin; lia|lia].
Qed.

(** C2: for charges with magnitudes and coordinates in the sidebar's range
    (at most 900 of them; the sidebar allows 5), the call returns arrays
    [Ex], [Ey] and [V] of which every entry is a finite number, neither an
    infinity nor NaN, wherever the grid points lie relative to the charges. *)
Theorem outputs_are_finite (h : heap) (l : loc) (cs : list Charge) (G : nat) (R : float) :
  load_charges h l = Some cs ->
  Forall charge_in_range cs -> (length cs <= 900)%nat ->
  in_range R = true -> (Z.of_nat G < 2 ^ 63)%Z ->
  exists h' X Y Ex Ey V,
    returns h l G R h' (X, Y, Ex, Ey, V)
    /\ forall i j v,
         Numpy.at2 Ex i j = Some v \/ Numpy.at2 Ey i j = Some v \/ Numpy.at2 V i j = Some v ->
         is_finite v = true.
Proof.
  intros Hl Hcs Hn HR HG.
  destruct (returns_tables h l _ G R Hl) as (h' & Hr).
  eexists h', _, _, _, _, _. split; [exact Hr|].
  intros i j v Hv.
  assert (Hpt : exists px py,
      Bnd 6 px /\ Bnd 6 py
      /\ (v = Spec.superpose Spec.Ex_of cs px py \/ v = Spec.superpose Spec.Ey_of cs px py
          \/ v = Spec.superpose Spec.V_of cs px py)).
  { destruct Hv as [Hv|[Hv|Hv]];
      apply at2_tabulate_inv in Hv as (px & py & Hj & Hi & Hv);
      exists px, py; (split; [eapply grid_sample_Bnd; eauto using lookup_In|]);
      (split; [eapply grid_sample_Bnd; eauto using lookup_In|]); tauto. }
  destruct Hpt as (px & py & Hpx & Hpy & Hv').
  destruct (contributions_Bnd cs px py Hcs Hpx Hpy) as (Hx & Hy & HV).
  destruct Hv' as [ -> | [ -> | -> ] ]; apply superpose_finite; assumption.
Qed.

Lemma outputs_are_finite_witness :
  exists h' X Y Ex Ey V,
    returns dipole_heap dipole_loc 3 5 h' (X, Y, Ex, Ey, V)
    /\ forall i j v,
         Numpy.at2 Ex i j = Some v \/ Numpy.at2 Ey i j = Some v \/ Numpy.at2 V i j = Some v ->
         is_finite v = true.
Proof.
  apply (outputs_are_finite dipole_heap dipole_loc dipole 3 5).
  - vm_compute; reflexivity.
  - repeat constructor.
  - simpl; lia.
  - reflexivity.
  - vm_compute; reflexivity.
Defined.

(** ** C4: the order of the charges *)

Lemma Rsum_app l1 l2 : Rsum (l1 ++ l2) = (Rsum l1 + Rsum l2)%R.
Proof.
  unfold Rsum. induction l1 as [|a l1 IH]; cbn [fold_right app]; [lra|]. rewrite IH. lra.
Qed.

Lemma Rsum_perm l l' : Permutation l l' -> Rsum l = Rsum l'.
Proof.
  unfold Rsum. induction 1 as [|a l l' _ IH|a b l|l l' l'' _ IH1 _ IH2]; cbn [fold_right].
  - reflexivity.
  - rewrite IH. reflexivity.
  - lra.
  - congruence.
Qed.

Lemma exact_sum_snoc f cs c px py :
  exact_sum f (cs ++ [c]) px py = (exact_sum f cs px py + B2R (f c px py))%R.
Proof. unfold exact_sum. rewrite map_app, Rsum_app. unfold Rsum. cbn [map fold_right]. lra. Qed.

Lemma abs_sum_snoc f cs c px py :
  abs_sum f (cs ++ [c]) px py = (abs_sum f cs px py + Rabs (B2R (f c px py)))%R.
Proof. unfold abs_sum. rewrite map_app, Rsum_app. unfold Rsum. cbn [map fold_right]. lra. Qed.

Lemma exact_le_abs f cs px py : (Rabs (exact_sum f cs px py) <= abs_sum f cs px py)%R.
Proof.
  unfold exact_sum, abs_sum, Rsum. induction cs as [|c cs IH]; cbn [map fold_right].
  - rewrite Rabs_R0. lra.
  - eapply Rle_trans; [apply Rabs_triang|]. lra.
Qed.

Lemma abs_sum_nonneg f cs px py : (0 <= abs_sum f cs px py)%R.
Proof. eapply Rle_trans; [apply Rabs_pos|apply exact_le_abs]. Qed.

Lemma drift_nonneg n : (0 <= drift n)%R.
Proof.
  unfold drift. pose proof (bpow_gt_0 (-53)).
  pose proof (pow_R1_Rle (1 + bpow (-53)) n ltac:(lra)). lra.
Qed.

Lemma drift_succ n : drift (S n) = ((1 + bpow (-53)) * (1 + drift n) - 1)%R.
Proof. unfold drift. cbn [pow]. ring. Qed.

Lemma sums_perm f cs cs' px py :
  Permutation cs cs' ->
  exact_sum f cs px py = exact_sum f cs' px py /\ abs_sum f cs px py = abs_sum f cs' px py.
Proof.
  intros H. split; apply Rsum_perm, Permutation_map, H.
Qed.

(** The computed superposition against the exact one. *)
Lemma superpose_error f cs px py :
  Forall (fun c => Bnd 55 (f c px py)) cs -> (length cs <= 900)%nat ->
  (Rabs (B2R (Spec.superpose f cs px py) - exact_sum f cs px py)
   <= drift (length cs) * abs_sum f cs px py)%R.
Proof.
  induction cs as [|c cs IH] using rev_ind; intros HF Hn.
  - unfold Spec.superpose, exact_sum, abs_sum, drift, B2R.
    change (Prim2SF 0) with (S754_zero false). cbn. rewrite Rminus_diag, Rabs_R0. lra.
  - rewrite length_app in *. cbn [length] in *.
    apply Forall_app in HF as [HF Hc]. apply Forall_inv in Hc.
    specialize (IH HF ltac:(lia)).
    assert (Fs : is_fin (Prim2SF (Spec.superpose f cs px py))).
    { apply (Bnd_fin (55 + Z.of_nat (length cs))).
      apply superpose_Bnd; [exact HF|unfold emin; lia|lia]. }
    assert (Fr : is_fin (Prim2SF (Spec.superpose f (cs ++ [c]) px py))).
    { apply (Bnd_fin (55 + Z.of_nat (length (cs ++ [c])))).
      apply superpose_Bnd; [apply Forall_app; split; [exact HF|constructor; [exact Hc|constructor]]
                           |unfold emin; lia|rewrite length_app; cbn [length]; lia]. }
    rewrite superpose_app in *. cbn [fold_left] in *.
    pose proof (add_error _ _ Fs (Bnd_fin _ _ Hc) Fr) as Hadd.
    rewrite exact_sum_snoc, abs_sum_snoc.
    replace (length cs + 1)%nat with (S (length cs)) by lia. rewrite drift_succ.
    pose proof (exact_le_abs f cs px py) as HSA.
    pose proof (drift_nonneg (length cs)) as He.
    pose proof (bpow_gt_0 (-53)) as Hu.
    set (u := bpow (-53)) in *. set (e := drift (length cs)) in *.
    set (A := abs_sum f cs px py) in *. set (S := exact_sum f cs px py) in *.
    set (sh := B2R (Spec.superpose f cs px py)) in *.
    set (b := B2R (f c px py)) in *.
    set (t := B2R (Spec.superpose f cs px py + f c px py)%float) in *.
    assert (H1 : (Rabs (t - (S + b)) <= Rabs (t - (sh + b)) + Rabs (sh - S))%R).
    { replace (t - (S + b))%R with ((t - (sh + b)) + (sh - S))%R by ring. apply Rabs_triang. }
    assert (H2 : (Rabs (sh + b) <= Rabs sh + Rabs b)%R) by apply Rabs_triang.
    assert (H3 : (Rabs sh <= Rabs S + Rabs (sh - S))%R).
    { replace sh with (S + (sh - S))%R at 1 by ring. apply Rabs_triang. }
    pose proof (Rabs_pos b) as Hb.
    assert (H4 : (u * Rabs (sh + b) <= u * (A + e * A + Rabs b))%R).
    { apply Rmult_le_compat_l; lra. }
    assert (H5 : (0 <= e * Rabs b)%R) by (apply Rmult_le_pos; lra).
    assert (H6 : (0 <= u * (e * Rabs b))%R) by (apply Rmult_le_pos; lra).
    apply Rle_trans with (u * (A + e * A + Rabs b) + e * A)%R; [lra|].
    replace (((1 + u) * (1 + e) - 1) * (A + Rabs b))%R
      with (u * (A + e * A + Rabs b) + e * A + (e * Rabs b + u * (e * Rabs b)))%R by ring.
    lra.
Qed.

Lemma superpose_agree f cs cs' px py :
  Permutation cs cs' ->
  Forall (fun c => Bnd 55 (f c px py)) cs -> (length cs <= 900)%nat ->
  agree f cs px py (Some (Spec.superpose f cs px py)) (Some (Spec.superpose f cs' px py)).
Proof.
  intros HP HF Hn.
  assert (HF' : Forall (fun c => Bnd 55 (f c px py)) cs').
  { rewrite List.Forall_forall in *. intros c Hc. apply HF.
    apply (Permutation_in _ (Permutation_sym HP) Hc). }
  assert (Hlen : length cs' = length cs) by (symmetry; apply Permutation_length, HP).
  exists (Spec.superpose f cs px py), (Spec.superpose f cs' px py).
  split; [reflexivity|split; [reflexivity|]].
  split; [apply superpose_finite; assumption|].
  split; [apply superpose_finite; [assumption|lia]|].
  pose proof (superpose_error f cs px py HF Hn) as H1.
  pose proof (superpose_error f cs' px py HF' ltac:(lia)) as H2.
  destruct (sums_perm f cs cs' px py HP) as [ES EA].
  rewrite Hlen, <- ES, <- EA in H2. unfold tolerance.
  set (S := exact_sum f cs px py) in *.
  replace (B2R (Spec.superpose f cs px py) - B2R (Spec.superpose f cs' px py))%R
    with ((B2R (Spec.superpose f cs px py) - S)
          + - (B2R (Spec.superpose f cs' px py) - S))%R by ring.
  eapply Rle_trans; [apply Rabs_triang|]. rewrite Rabs_Ropp. lra.
Qed.

(** C4: for charges in the sidebar's range (at most 900 of them) and any
    reordering of the list, the two calls return the same [X] and [Y], and
    at every grid point the entries of [Ex], [Ey] and [V] of the two calls
    are finite and differ by at most [2 * ((1 + 2^-53)^n - 1)] times the sum
    of the magnitudes of the [n] charges' contributions at that point. *)
Theorem permutation_within_tolerance (h1 h2 : heap) (l1 l2 : loc)
    (cs cs' : list Charge) (G : nat) (R : float) :
  load_charges h1 l1 = Some cs -> load_charges h2 l2 = Some cs' ->
  Permutation cs cs' ->
  Forall charge_in_range cs -> (length cs <= 900)%nat ->
  in_range R = true -> (Z.of_nat G < 2 ^ 63)%Z ->
  exists h1' h2' X Y Ex Ey V Ex' Ey' V',
    returns h1 l1 G R h1' (X, Y, Ex, Ey, V)
    /\ returns h2 l2 G R h2' (X, Y, Ex', Ey', V')
    /\ forall i j px py,
         Numpy.at2 X i j = Some px -> Numpy.at2 Y i j = Some py ->
         agree Spec.Ex_of cs px py (Numpy.at2 Ex i j) (Numpy.at2 Ex' i j)
         /\ agree Spec.Ey_of cs px py (Numpy.at2 Ey i j) (Numpy.at2 Ey' i j)
         /\ agree Spec.V_of cs px py (Numpy.at2 V i j) (Numpy.at2 V' i j).
Proof.
  intros Hl1 Hl2 HP Hcs Hn HR HG.
  destruct (returns_tables h1 l1 _ G R Hl1) as (h1' & Hr1).
  destruct (returns_tables h2 l2 _ G R Hl2) as (h2' & Hr2).
  eexists h1', h2', _, _, _, _, _, _, _, _. split; [exact Hr1|split; [exact Hr2|]].
  intros i j px py HX HY. destruct (grid_point R G i j px py HX HY) as [Hj Hi].
  assert (Hpx : Bnd 6 px) by (eapply grid_sample_Bnd; eauto using lookup_In).
  assert (Hpy : Bnd 6 py) by (eapply grid_sample_Bnd; eauto using lookup_In).
  destruct (contributions_Bnd cs px py Hcs Hpx Hpy) as (Hx & Hy & HV).
  rewrite !(at2_tabulate _ _ _ i j px py Hj Hi).
  split; [|split]; apply superpose_agree; assumption.
Qed.

Lemma permutation_within_tolerance_witness :
  exists h1' h2' X Y Ex Ey V Ex' Ey' V',
    returns dipole_heap dipole_loc 3 5 h1' (X, Y, Ex, Ey, V)
    /\ returns (fst (store_charges dipole_swapped)) (snd (store_charges dipole_swapped)) 3 5 h2'
               (X, Y, Ex', Ey', V')
    /\ forall i j px py,
         Numpy.at2 X i j = Some px -> Numpy.at2 Y i j = Some py ->
         agree Spec.Ex_of dipole px py (Numpy.at2 Ex i j) (Numpy.at2 Ex' i j)
         /\ agree Spec.Ey_of dipole px py (Numpy.at2 Ey i j) (Numpy.at2 Ey' i j)
         /\ agree Spec.V_of dipole px py (Numpy.at2 V i j) (Numpy.at2 V' i j).
Proof.
  apply (permutation_within_tolerance dipole_heap
           (fst (store_charges dipole_swapped)) dipole_loc
           (snd (store_charges dipole_swapped)) dipole dipole_swapped 3 5).
  - vm_compute; reflexivity.
  - vm_compute; reflexivity.
  - apply perm_swap.
  - repeat constructor.
  - simpl; lia.
  - reflexivity.
  - vm_compute; reflexivity.
Defined.

(** The tolerance is not idle: for the sidebar's three default charges on a
    6 x 6 grid over [[-5, 5]], the call on the reversed list returns a [V]
    whose entry [2][4] is another binary64 number than the one the call on
    the list itself returns. *)
Theorem order_changes_last_bits :
  Permutation three_defaults three_reversed
  /\ exists h h' X Y Ex Ey V Ex' Ey' V',
       returns (fst (store_charges three_defaults)) (snd (store_charges three_defaults))
               6 5 h (X, Y, Ex, Ey, V)
       /\ returns (fst (store_charges three_reversed)) (snd (store_charges three_reversed))
                  6 5 h' (X, Y, Ex', Ey', V')
       /\ Numpy.at2 V 2 4 <> Numpy.at2 V' 2 4.
Proof.
  split.
  - unfold three_defaults, three_reversed.
    eapply perm_trans; [apply perm_swap|]. eapply perm_trans; [apply perm_skip, perm_swap|].
    apply perm_swap.
  - assert (H1 : load_charges (fst (store_charges three_defaults))
                              (snd (store_charges three_defaults)) = Some three_defaults)
      by (vm_compute; reflexivity).
    assert (H2 : load_charges (fst (store_charges three_reversed))
                              (snd (store_charges three_reversed)) = Some three_reversed)
      by (vm_compute; reflexivity).
    destruct (returns_tables _ _ _ 6 5 H1) as (h & Hr1).
    destruct (returns_tables _ _ _ 6 5 H2) as (h' & Hr2).
    eexists h, h', _, _, _, _, _, _, _, _. split; [exact Hr1|split; [exact Hr2|]].
    intros E.
    apply (f_equal (fun o => match o with Some v => Prim2SF v | None => S754_nan end)) in E.
    vm_compute in E. discriminate E.
Qed.

Import Shape Entered Symmetry.

(** * More of the program *)

(** ** The axis: [np.linspace] as the source calls it *)

Lemma float_of_nat_0 : Numpy.float_of_nat 0 = 0%float.
Proof. reflexivity. Qed.

Lemma zero_0 : zero 0%float.
Proof. exists false. reflexivity. Qed.

Lemma set_last_first (y : list float) v :
  (2 <= length y)%nat -> Numpy.set_last y v !! 0%nat = y !! 0%nat.
Proof.
  intros H. unfold Numpy.set_last. apply list_lookup_insert_ne. lia.
Qed.

(** The first sample is [start] itself, the last one [stop] itself. *)
Lemma linspace_first B start stop n :
  Bnd B start -> Bnd B stop -> (emin <= B <= 1022)%Z -> ~ zero start ->
  (1 <= n)%nat -> (Z.of_nat n < 2 ^ 63)%Z ->
  Numpy.linspace start stop n !! 0%nat = Some start.
Proof.
  intros Hs Ht HB Hnz Hn Hn63.
  assert (Hdelta : Bnd (B + 1) (stop - start)%float) by (apply sub_Bnd; [assumption..|lia]).
  unfold Numpy.linspace, Numpy.arange.
  destruct (1 <? n)%nat eqn:E1.
  - apply Nat.ltb_lt in E1.
    assert (Hdiv : Low 0 (Numpy.float_of_nat (Nat.pred n))).
    { apply float_of_nat_Low; [|lia]. change (2 ^ 0)%Z with 1%Z. lia. }
    assert (Hstep : Bnd (B + 1 - 0) (((stop - start) / Numpy.float_of_nat (Nat.pred n)))%float).
    { apply div_Bnd; [assumption..|lia]. }
    rewrite set_last_first
      by (destruct (_ =? 0)%float; rewrite !length_map, length_seq; lia).
    destruct n as [|m]; [lia|]. cbn [seq map]. rewrite float_of_nat_0.
    destruct (_ =? 0)%float; cbn [map lookup list_lookup]; f_equal;
      apply add_zero_nonzero_l; try assumption.
    + apply (mul_zero_l (B + 1)); [|assumption]. apply (div_zero_l 0); [apply zero_0|assumption].
    + apply (mul_zero_l (B + 1 - 0)); [apply zero_0|assumption].
  - destruct n as [|m]; [lia|]. cbn [seq map lookup list_lookup]. rewrite float_of_nat_0.
    f_equal. apply add_zero_nonzero_l; [|assumption].
    apply (mul_zero_l (B + 1)); [apply zero_0|assumption].
Qed.

Lemma set_last_last (y : list float) v :
  (1 <= length y)%nat -> Numpy.set_last y v !! (length y - 1)%nat = Some v.
Proof.
  intros H. unfold Numpy.set_last. replace (Nat.pred (length y)) with (length y - 1)%nat by lia.
  apply list_lookup_insert_eq. lia.
Qed.

Lemma linspace_last start stop n :
  (2 <= n)%nat -> Numpy.linspace start stop n !! (n - 1)%nat = Some stop.
Proof.
  intros Hn. unfold Numpy.linspace.
  destruct (1 <? n)%nat eqn:E1; [|apply Nat.ltb_ge in E1; lia].
  match goal with |- Numpy.set_last ?l _ !! _ = _ =>
    assert (Hl : length l = n) by
      (unfold Numpy.arange; destruct (_ =? 0)%float; rewrite !length_map, length_seq; reflexivity);
    set (y := l) in *; clearbody y
  end.
  subst n. apply set_last_last. lia.
Qed.

(** ** Shapes of the results *)

Lemma tabulate_shape xs ys f : has_shape (Spec.tabulate xs ys f) (length ys) (length xs).
Proof.
  unfold has_shape, Spec.tabulate. split; [apply length_map|].
  apply List.Forall_map, List.Forall_forall. intros y _. apply length_map.
Qed.

Lemma grid_shape G R : Numpy.shape (fst (Spec.grid G R)) = (G, G).
Proof.
  unfold Spec.grid, Numpy.meshgrid, Numpy.shape. cbn [fst].
  rewrite length_map, linspace_length.
  destruct (Numpy.linspace (- R) R G) as [|v xs] eqn:E.
  - apply (f_equal length) in E. rewrite linspace_length in E. subst G. reflexivity.
  - cbn [map]. rewrite <- E, linspace_length. reflexivity.
Qed.

(** The five arrays are [G] by [G], whatever the charges; for [G = 0] they
    are empty. *)
Theorem results_have_grid_shape (h : heap) (l : loc) (cs : list Charge) (G : nat) (R : float) :
  load_charges h l = Some cs ->
  exists h' X Y Ex Ey V,
    returns h l G R h' (X, Y, Ex, Ey, V)
    /\ has_shape X G G /\ has_shape Y G G
    /\ has_shape Ex G G /\ has_shape Ey G G /\ has_shape V G G.
Proof.
  intros Hl. destruct (returns_tables h l cs G R Hl) as (h' & Hr).
  eexists h', _, _, _, _, _. split; [exact Hr|].
  assert (HS : forall f, has_shape (Spec.tabulate (Numpy.linspace (- R) R G)
                                                  (Numpy.linspace (- R) R G) f) G G).
  { intros f. pose proof (tabulate_shape (Numpy.linspace (- R) R G)
                                         (Numpy.linspace (- R) R G) f) as H.
    rewrite linspace_length in H. exact H. }
  repeat (split; [apply HS|]). apply HS.
Qed.

Lemma results_have_grid_shape_witness :
  exists h' X Y Ex Ey V,
    returns dipole_heap dipole_loc 3 5 h' (X, Y, Ex, Ey, V)
    /\ has_shape X 3 3 /\ has_shape Y 3 3
    /\ has_shape Ex 3 3 /\ has_shape Ey 3 3 /\ has_shape V 3 3.
Proof.
  apply (results_have_grid_shape dipole_heap dipole_loc dipole 3 5).
  vm_compute; reflexivity.
Defined.

(** With an empty [charges] list the loop does not run: [Ex], [Ey] and [V]
    are the zero arrays, for every grid size and range. *)
Theorem empty_charges_give_zeros (h : heap) (l : loc) (G : nat) (R : float) :
  load_charges h l = Some [] ->
  exists h' X Y,
    returns h l G R h'
      (X, Y, Numpy.zeros (G, G), Numpy.zeros (G, G), Numpy.zeros (G, G)).
Proof.
  intros Hl. destruct (calculate_spec h l [] G R Hl) as (h' & Hr & _).
  exists h', (fst (Spec.grid G R)), (snd (Spec.grid G R)).
  unfold Spec.field_and_potential in Hr.
  pose proof (grid_shape G R) as Hs.
  destruct (Spec.grid G R) as [X Y]. cbn [fst snd fold_left] in *.
  rewrite Hs in Hr. exact Hr.
Qed.

Lemma empty_charges_give_zeros_witness :
  exists h' X Y,
    returns (fst (store_charges [])) (snd (store_charges [])) 3 5 h'
      (X, Y, Numpy.zeros (3, 3), Numpy.zeros (3, 3), Numpy.zeros (3, 3))%nat.
Proof.
  apply (empty_charges_give_zeros (fst (store_charges [])) (snd (store_charges [])) 3 5).
  vm_compute; reflexivity.
Defined.

(** ** The corners of the grid *)

Lemma neqb_0_nonzero v : (v =? 0)%float = false -> ~ zero v.
Proof.
  rewrite FloatAxioms.eqb_spec. intros H [s Hs]. rewrite Hs in H.
  destruct s; discriminate H.
Qed.

(** The grid spans the range exactly: for a finite, non-zero [R] the first
    column of [X] and the first row of [Y] hold [-R] itself, and when there
    are at least two samples the last column and row hold [R] itself.  With
    a single sample ([G = 1]) the grid is the one point [(-R, -R)]. *)
Theorem grid_spans_range (h : heap) (l : loc) (cs : list Charge) (G : nat) (R : float) :
  load_charges h l = Some cs ->
  in_range R = true -> (R =? 0)%float = false ->
  (1 <= G)%nat -> (Z.of_nat G < 2 ^ 63)%Z ->
  exists h' X Y Ex Ey V,
    returns h l G R h' (X, Y, Ex, Ey, V)
    /\ forall i, (i < G)%nat ->
         Numpy.at2 X i 0 = Some (- R)%float /\ Numpy.at2 Y 0 i = Some (- R)%float
         /\ ((2 <= G)%nat ->
             Numpy.at2 X i (G - 1) = Some R /\ Numpy.at2 Y (G - 1) i = Some R).
Proof.
  intros Hl HR Hnz HG HG63.
  destruct (returns_tables h l cs G R Hl) as (h' & Hr).
  eexists h', _, _, _, _, _. split; [exact Hr|].
  intros i Hi.
  assert (HB : Bnd 3 R) by (apply in_range_Bnd, HR).
  assert (H0 : Numpy.linspace (- R) R G !! 0%nat = Some (- R)%float).
  { apply (linspace_first 3); try assumption; [apply opp_Bnd, HB|unfold emin; lia|].
    apply opp_nonzero, neqb_0_nonzero, Hnz. }
  destruct (lookup_lt_is_Some_2 (Numpy.linspace (- R) R G) i) as [p Hp];
    [rewrite linspace_length; exact Hi|].
  rewrite (at2_tabulate _ _ _ i 0 _ _ H0 Hp), (at2_tabulate _ _ _ 0 i _ _ Hp H0).
  split; [reflexivity|split; [reflexivity|]].
  intros H2. pose proof (linspace_last (- R) R G H2) as HL.
  rewrite (at2_tabulate _ _ _ i (G - 1) _ _ HL Hp), (at2_tabulate _ _ _ (G - 1) i _ _ Hp HL).
  split; reflexivity.
Qed.

Lemma grid_spans_range_witness :
  exists h' X Y Ex Ey V,
    returns dipole_heap dipole_loc 3 5 h' (X, Y, Ex, Ey, V)
    /\ forall i, (i < 3)%nat ->
         Numpy.at2 X i 0 = Some (- 5)%float /\ Numpy.at2 Y 0 i = Some (- 5)%float
         /\ ((2 <= 3)%nat ->
             Numpy.at2 X i (3 - 1) = Some 5%float /\ Numpy.at2 Y (3 - 1) i = Some 5%float).
Proof.
  apply (grid_spans_range dipole_heap dipole_loc dipole 3 5).
  - vm_compute; reflexivity.
  - reflexivity.
  - reflexivity.
  - lia.
  - vm_compute; reflexivity.
Defined.

(** ** The results are new arrays *)

Lemma calculate_fresh_wp (hb h : heap) charges items cs G R :
  hb ⊆ h ->
  hb !! charges = Some (OList items) ->
  Forall2 (fun l c => hb !! l = Some (ODict c)) items cs ->
  wp (calculate_field_and_potential charges G R) h
     (fun r h' =>
        let '(X, Y, Ex, Ey, V) := r in
        NoDup [X; Y; Ex; Ey; V]
        /\ Forall (fun a => hb !! a = None /\ exists v, h' !! a = Some (ONdarray2 v))
                  [X; Y; Ex; Ey; V]).
Proof.
  intros Hsub Hcharges Hitems.
  pose proof (lookup_weaken _ _ _ _ Hcharges Hsub) as Hcharges'.
  unfold calculate_field_and_potential, np_linspace, np_meshgrid, np_shape, np_zeros.
  apply wp_bind. step_alloc hb as x.
  apply wp_bind. step_alloc hb as y.
  apply wp_bind. apply wp_bind. eapply wp_read1; [eassumption|].
  apply wp_bind. eapply wp_read1; [eassumption|].
  apply wp_bind. step_alloc hb as X.
  apply wp_bind. step_alloc hb as Y.
  apply wp_ret.
  apply wp_bind. apply wp_bind. eapply wp_read2; [eassumption|]. apply wp_ret.
  apply wp_bind. step_alloc hb as Ex.
  apply wp_bind. apply wp_bind. eapply wp_read2; [eassumption|]. apply wp_ret.
  apply wp_bind. step_alloc hb as Ey.
  apply wp_bind. apply wp_bind. eapply wp_read2; [eassumption|]. apply wp_ret.
  apply wp_bind. step_alloc hb as V.
  assert (HXY : X <> Y) by ne_hyp.
  assert (HbX : hb !! X = None) by assumption.
  assert (HbY : hb !! Y = None) by assumption.
  apply wp_bind. eapply wp_read_list; [eassumption|].
  apply wp_bind. eapply wp_mono.
  - eapply for_each_spec with (acc := (_, _, _)); [exact Hitems|].
    constructor; simpl; eauto 10.
  - intros u h' [Hs' HX' HY' HEx' HEy' HV' (Hn1 & Hn2 & Hn3) Hdist]. apply wp_ret.
    destruct Hdist as (? & ? & ? & ? & ? & ? & ? & ? & ?).
    split.
    + repeat (apply NoDup_cons; split;
                [rewrite ?elem_of_cons, elem_of_nil; intuition congruence|]).
      apply NoDup_nil_2.
    + repeat (constructor; [split; [assumption|eauto]|]). constructor.
Qed.

(** The call returns five new arrays: five references that differ from one
    another, none of which referred to an object before the call; no result
    shares its storage with another or with an argument. *)
Theorem results_are_new_arrays (h : heap) (l : loc) (cs : list Charge) (G : nat) (R : float) :
  load_charges h l = Some cs ->
  exists X Y Ex Ey V h',
    calculate_field_and_potential l G R h = Some ((X, Y, Ex, Ey, V), h')
    /\ NoDup [X; Y; Ex; Ey; V]
    /\ Forall (fun a => h !! a = None /\ exists v, h' !! a = Some (ONdarray2 v))
              [X; Y; Ex; Ey; V].
Proof.
  intros Hload. apply load_charges_inv in Hload as (items & Hcharges & Hitems).
  destruct (calculate_fresh_wp h h l items cs G R) as (r & h' & Hrun & Hpost);
    [reflexivity|assumption|assumption|].
  destruct r as [[[[X Y] Ex] Ey] V]. destruct Hpost as [Hnd Hnew].
  exists X, Y, Ex, Ey, V, h'. auto.
Qed.

Lemma results_are_new_arrays_witness :
  exists X Y Ex Ey V h',
    calculate_field_and_potential dipole_loc 3 5 dipole_heap = Some ((X, Y, Ex, Ey, V), h')
    /\ NoDup [X; Y; Ex; Ey; V]
    /\ Forall (fun a => dipole_heap !! a = None /\ exists v, h' !! a = Some (ONdarray2 v))
              [X; Y; Ex; Ey; V].
Proof.
  apply (results_are_new_arrays dipole_heap dipole_loc dipole 3 5).
  vm_compute; reflexivity.
Defined.

(** ** Finite entries *)

Lemma tables_finite cs G R f :
  f = Spec.Ex_of \/ f = Spec.Ey_of \/ f = Spec.V_of ->
  Forall charge_in_range cs -> (length cs <= 900)%nat ->
  in_range R = true -> (Z.of_nat G < 2 ^ 63)%Z ->
  forall i j v,
    Numpy.at2 (Spec.tabulate (Numpy.linspace (- R) R G) (Numpy.linspace (- R) R G)
                             (Spec.superpose f cs)) i j = Some v ->
    is_finite v = true.
Proof.
  intros Hf Hcs Hn HR HG i j v Hv.
  apply at2_tabulate_inv in Hv as (px & py & Hj & Hi & ->).
  assert (Hpx : Bnd 6 px) by (eapply grid_sample_Bnd; eauto using lookup_In).
  assert (Hpy : Bnd 6 py) by (eapply grid_sample_Bnd; eauto using lookup_In).
  destruct (contributions_Bnd cs px py Hcs Hpx Hpy) as (Hx & Hy & HV).
  destruct Hf as [->|[->| ->]]; apply superpose_finite; assumption.
Qed.

(** ** Saturation: what the guard caps *)

Lemma nonneg_0 : nonneg 0%float.
Proof. reflexivity. Qed.

Lemma clamp_r_ge r : nonneg r -> (Consts.r_min <=? Spec.clamp_r r)%float = true.
Proof.
  intros Hr. destruct r_min_facts as (Hn & _ & Hf).
  exact (guard_mono Consts.r_min 0 r Hn Hf nonneg_0 Hr (leb_0_nonneg r Hr)).
Qed.

Lemma clamp_r2_ge r2 : nonneg r2 -> (Consts.r2_min <=? Spec.clamp_r2 r2)%float = true.
Proof.
  intros Hr. destruct r2_min_facts as (Hn & _ & Hf).
  exact (guard_mono Consts.r2_min 0 r2 Hn Hf nonneg_0 Hr (leb_0_nonneg r2 Hr)).
Qed.

(** [k * q / r] in absolute value, for a denominator the guard has raised. *)
Lemma abs_kq_div lo q0 r :
  Bnd 3 q0 -> nonneg r -> Low lo r ->
  abs (Consts.k * q0 / r) = (Consts.k * abs q0 / r)%float.
Proof.
  intros Hq Hr Hl.
  destruct (abs_is_nonneg q0 (Bnd_fin _ _ Hq)) as [Ha Hfa].
  assert (Hk : nonneg Consts.k) by (unfold nonneg; rewrite Prim2SF_k; reflexivity).
  assert (Hfk : is_fin (Prim2SF Consts.k)) by (rewrite Prim2SF_k; exact I).
  assert (Hw : nonneg (Consts.k * abs q0 / r)%float).
  { apply (div_nonneg lo); try assumption.
    - apply mul_nonneg; assumption.
    - apply (Bnd_fin _ _ (kq_Bnd _ (abs_Bnd _ _ Hq))). }
  destruct (abs_cases q0 (Bnd_fin _ _ Hq)) as [E|E]; rewrite E at 1.
  - apply abs_nonneg, Hw.
  - rewrite mul_opp_r, div_opp_l, abs_opp. apply abs_nonneg, Hw.
Qed.

Lemma kq_div_capped lo q0 r t :
  Bnd 3 q0 -> nonneg r -> Low lo r -> nonneg t -> Low lo t ->
  (t <=? r)%float = true ->
  (abs (Consts.k * q0 / r) <=? Consts.k * abs q0 / t)%float = true.
Proof.
  intros Hq Hr Hl Ht Hlt Hle. rewrite (abs_kq_div lo) by assumption.
  destruct (abs_is_nonneg q0 (Bnd_fin _ _ Hq)) as [Ha Hfa].
  apply (div_antitone _ lo); try assumption.
  - apply mul_nonneg; try assumption; [unfold nonneg|]; rewrite Prim2SF_k; [reflexivity|exact I].
  - apply (Bnd_fin _ _ (kq_Bnd _ (abs_Bnd _ _ Hq))).
Qed.

Lemma contribution_capped_at (c : Charge) (px py : float) :
  Bnd 3 (q c) -> Bnd 6 (x c) -> Bnd 6 (y c) -> Bnd 6 px -> Bnd 6 py ->
  (abs (Spec.E_mag c px py) <=? Consts.k * abs (q c) / Consts.r2_min)%float = true
  /\ (abs (Spec.V_of c px py) <=? Consts.k * abs (q c) / Consts.r_min)%float = true.
Proof.
  intros Hq Hx Hy Hpx Hpy.
  assert (H2 : nonneg (Spec.dist2 (x c) (y c) px py))
    by (apply (dist2_nonneg 6); first [assumption | lia]).
  assert (H1 : nonneg (Spec.dist (x c) (y c) px py))
    by (apply (dist_nonneg 6); first [assumption | lia]).
  destruct (clamp_r_Low _ H1) as [L1 N1]. destruct (clamp_r2_Low _ H2) as [L2 N2].
  destruct r_min_facts as (Hn & Hl & _). destruct r2_min_facts as (Hn2 & Hl2 & _).
  split.
  - unfold Spec.E_mag. apply (kq_div_capped (-7)); try assumption. apply clamp_r2_ge, H2.
  - unfold Spec.V_of. apply (kq_div_capped (-4)); try assumption. apply clamp_r_ge, H1.
Qed.

Lemma abs_zero_add w : abs (0 + w) = abs w.
Proof.
  apply Prim2SF_inj. rewrite !FloatAxioms.abs_spec, FloatAxioms.add_spec.
  change (Prim2SF 0) with (S754_zero false).
  destruct (Prim2SF w) as [[|]|s| |s m e]; reflexivity.
Qed.

(** The potential of a single charge is capped by the guard: for a charge
    in the sidebar's range, every index pair below [G] has its entry in the
    returned [V], the entry is finite, and its magnitude is at most
    [k * |q| / 0.1], however near the grid point is to the charge. *)
Theorem single_charge_is_capped (h : heap) (l : loc) (c : Charge) (G : nat) (R : float) :
  load_charges h l = Some [c] ->
  charge_in_range c -> in_range R = true -> (Z.of_nat G < 2 ^ 63)%Z ->
  exists h' X Y Ex Ey V,
    returns h l G R h' (X, Y, Ex, Ey, V)
    /\ forall i j, (i < G)%nat -> (j < G)%nat ->
         exists v, Numpy.at2 V i j = Some v
           /\ is_finite v = true
           /\ (abs v <=? Consts.k * abs (q c) / Consts.r_min)%float = true.
Proof.
  intros Hl Hc HR HG.
  destruct (returns_tables h l _ G R Hl) as (h' & Hr).
  eexists h', _, _, _, _, _. split; [exact Hr|].
  intros i j Hi Hj. destruct (grid_entries R G i j Hi Hj) as (px & py & Hpx & Hpy).
  pose proof (at2_tabulate _ _ (Spec.superpose Spec.V_of [c]) i j px py Hpx Hpy) as HV.
  eexists. split; [exact HV|]. split.
  - apply (tables_finite [c] G R Spec.V_of) with (i := i) (j := j); auto.
    cbn [length]. lia.
  - unfold Spec.superpose. cbn [fold_left]. rewrite abs_zero_add.
    destruct Hc as (Hq & Hx & Hy).
    assert (B6 : forall w, in_range w = true -> Bnd 6 w).
    { intros w Hw. apply Bnd_weaken with 3%Z; [apply in_range_Bnd, Hw|lia]. }
    apply contribution_capped_at; auto using in_range_Bnd;
      eapply grid_sample_Bnd; eauto using lookup_In.
Qed.

Lemma single_charge_is_capped_witness :
  exists h' X Y Ex Ey V,
    returns (fst (store_charges unit_charge)) (snd (store_charges unit_charge)) 3 5 h'
            (X, Y, Ex, Ey, V)
    /\ forall i j, (i < 3)%nat -> (j < 3)%nat ->
         exists v, Numpy.at2 V i j = Some v
           /\ is_finite v = true
           /\ (abs v <=? Consts.k * abs 1 / Consts.r_min)%float = true.
Proof.
  apply (single_charge_is_capped (fst (store_charges unit_charge))
           (snd (store_charges unit_charge)) {| q := 1; x := 0; y := 0 |} 3 5).
  - vm_compute; reflexivity.
  - repeat split; reflexivity.
  - reflexivity.
  - vm_compute; reflexivity.
Defined.

Lemma Rsum_map_le {A} (f g : A -> R) (l : list A) :
  (forall a, In a l -> (f a <= g a)%R) -> (Rsum (map f l) <= Rsum (map g l))%R.
Proof.
  unfold Rsum. induction l as [|a l IH]; intros H; cbn [map fold_right]; [lra|].
  pose proof (H a (or_introl eq_refl)). specialize (IH (fun b Hb => H b (or_intror Hb))). lra.
Qed.

(** The potential is capped: for charges in the sidebar's range (at most
    900), every index pair below [G] has its entry in [V], and every entry
    of [V] is a finite number, in magnitude at most [(1 + 2^-53)^n] times
    the sum over the [n] charges of [k * |q| / 0.1]. *)
Theorem potential_is_capped (h : heap) (l : loc) (cs : list Charge) (G : nat) (R : float) :
  load_charges h l = Some cs ->
  Forall charge_in_range cs -> (length cs <= 900)%nat ->
  in_range R = true -> (Z.of_nat G < 2 ^ 63)%Z ->
  exists h' X Y Ex Ey V,
    returns h l G R h' (X, Y, Ex, Ey, V)
    /\ (forall i j, (i < G)%nat -> (j < G)%nat -> exists v, Numpy.at2 V i j = Some v)
    /\ forall i j v, Numpy.at2 V i j = Some v ->
         is_finite v = true
         /\ (Rabs (B2R v) <= (1 + bpow (-53)) ^ length cs * cap_sum cs)%R.
Proof.
  intros Hl Hcs Hn HR HG.
  destruct (returns_tables h l _ G R Hl) as (h' & Hr).
  eexists h', _, _, _, _, _. split; [exact Hr|].
  split.
  { intros i j Hi Hj. destruct (grid_entries R G i j Hi Hj) as (px & py & Hpx & Hpy).
    eexists. apply (at2_tabulate _ _ _ i j px py Hpx Hpy). }
  intros i j v Hv.
  split; [apply (tables_finite cs G R Spec.V_of) with (i := i) (j := j); auto|].
  apply at2_tabulate_inv in Hv as (px & py & Hj & Hi & ->).
  assert (Hpx : Bnd 6 px) by (eapply grid_sample_Bnd; eauto using lookup_In).
  assert (Hpy : Bnd 6 py) by (eapply grid_sample_Bnd; eauto using lookup_In).
  destruct (contributions_Bnd cs px py Hcs Hpx Hpy) as (_ & _ & HV).
  pose proof (superpose_error Spec.V_of cs px py HV Hn) as He.
  pose proof (exact_le_abs Spec.V_of cs px py) as HS.
  pose proof (drift_nonneg (length cs)) as Hd.
  pose proof (abs_sum_nonneg Spec.V_of cs px py) as HA.
  assert (Hcap : (abs_sum Spec.V_of cs px py <= cap_sum cs)%R).
  { unfold abs_sum, cap_sum. apply Rsum_map_le. intros c Hc.
    rewrite List.Forall_forall in Hcs, HV.
    destruct (Hcs c Hc) as (Hq & Hx & Hy). apply in_range_Bnd in Hq.
    assert (B6 : forall w, in_range w = true -> Bnd 6 w).
    { intros w Hw. apply Bnd_weaken with 3%Z; [apply in_range_Bnd, Hw|lia]. }
    rewrite <- B2R_abs. apply leb_B2R.
    - apply (Bnd_fin 55), abs_Bnd, HV, Hc.
    - apply (Bnd_fin (37 - -4)). apply div_Bnd; [apply kq_Bnd, abs_Bnd, Hq|apply r_min_facts|].
      unfold emin; lia.
    - apply contribution_capped_at; auto. }
  set (sh := B2R (Spec.superpose Spec.V_of cs px py)) in *.
  set (S := exact_sum Spec.V_of cs px py) in *.
  set (A := abs_sum Spec.V_of cs px py) in *.
  assert (H1 : (Rabs sh <= Rabs S + Rabs (sh - S))%R).
  { replace sh with (S + (sh - S))%R at 1 by ring. apply Rabs_triang. }
  unfold drift in *. set (p := ((1 + bpow (-53)) ^ length cs)%R) in *.
  apply Rle_trans with (p * A)%R; [|apply Rmult_le_compat_l; lra].
  replace (p * A)%R with (A + (p - 1) * A)%R by ring. lra.
Qed.

Lemma potential_is_capped_witness :
  exists h' X Y Ex Ey V,
    returns dipole_heap dipole_loc 3 5 h' (X, Y, Ex, Ey, V)
    /\ (forall i j, (i < 3)%nat -> (j < 3)%nat -> exists v, Numpy.at2 V i j = Some v)
    /\ forall i j v, Numpy.at2 V i j = Some v ->
         is_finite v = true
         /\ (Rabs (B2R v) <= (1 + bpow (-53)) ^ length dipole * cap_sum dipole)%R.
Proof.
  apply (potential_is_capped dipole_heap dipole_loc dipole 3 5).
  - vm_compute; reflexivity.
  - repeat constructor.
  - simpl; lia.
  - reflexivity.
  - vm_compute; reflexivity.
Defined.

(** ** Charges of magnitude zero only *)

Lemma superpose_zeros f cs px py :
  Forall (fun c => zero (f c px py)) cs -> Spec.superpose f cs px py = 0%float.
Proof.
  induction cs as [|c cs IH] using rev_ind; intros H; [reflexivity|].
  apply Forall_app in H as [H Hc]. apply Forall_inv in Hc.
  rewrite superpose_app. cbn [fold_left]. rewrite (IH H).
  apply add_zero_r; [exact Hc|discriminate].
Qed.

Lemma tabulate_zeros G R :
  Spec.tabulate (Numpy.linspace (- R) R G) (Numpy.linspace (- R) R G) (fun _ _ => 0%float)
  = Numpy.zeros (G, G).
Proof.
  rewrite <- (zeros_tabulate _ _ (fun px _ => px)).
  pose proof (grid_shape G R) as H. unfold Spec.grid in H.
  rewrite meshgrid_tabulate in H. cbn [fst] in H. rewrite H. reflexivity.
Qed.

(** When every charge has magnitude zero (positions in the sidebar's
    range), [Ex], [Ey] and [V] are the zero arrays. *)
Theorem null_charges_give_zeros (h : heap) (l : loc) (cs : list Charge) (G : nat) (R : float) :
  load_charges h l = Some cs ->
  Forall (fun c => (q c =? 0)%float = true
                   /\ in_range (x c) = true /\ in_range (y c) = true) cs ->
  in_range R = true -> (Z.of_nat G < 2 ^ 63)%Z ->
  exists h' X Y,
    returns h l G R h'
      (X, Y, Numpy.zeros (G, G), Numpy.zeros (G, G), Numpy.zeros (G, G)).
Proof.
  intros Hl Hcs HR HG.
  destruct (returns_tables h l _ G R Hl) as (h' & Hr).
  eexists h', _, _.
  assert (Hz : forall f, (f = Spec.Ex_of \/ f = Spec.Ey_of \/ f = Spec.V_of) ->
             Spec.tabulate (Numpy.linspace (- R) R G) (Numpy.linspace (- R) R G)
                           (Spec.superpose f cs) = Numpy.zeros (G, G)).
  { intros f Hf. rewrite <- (tabulate_zeros G R). apply tabulate_ext_in. intros px py Hpx Hpy.
    apply superpose_zeros. rewrite List.Forall_forall in *. intros c Hc.
    destruct (Hcs c Hc) as (Hq & Hx & Hy).
    assert (B6 : forall w, in_range w = true -> Bnd 6 w).
    { intros w Hw. apply Bnd_weaken with 3%Z; [apply in_range_Bnd, Hw|lia]. }
    destruct (zero_charge_contributions c px py (eqb_zero _ Hq) (B6 _ Hx) (B6 _ Hy)
                (grid_sample_Bnd R G px HR HG Hpx) (grid_sample_Bnd R G py HR HG Hpy))
      as (Z1 & Z2 & Z3).
    destruct Hf as [->|[->| ->]]; assumption. }
  rewrite !Hz in Hr by auto. exact Hr.
Qed.

Lemma null_charges_give_zeros_witness :
  exists h' X Y,
    returns (fst (store_charges null_charges)) (snd (store_charges null_charges)) 3 5 h'
      (X, Y, Numpy.zeros (3, 3), Numpy.zeros (3, 3), Numpy.zeros (3, 3))%nat.
Proof.
  apply (null_charges_give_zeros (fst (store_charges null_charges))
           (snd (store_charges null_charges)) null_charges 3 5).
  - vm_compute; reflexivity.
  - repeat constructor.
  - reflexivity.
  - vm_compute; reflexivity.
Defined.

(** ** The markers *)

(** The colour of a marker follows the sign of the charge: red for a
    positive magnitude, blue for a negative one, gray for zero (either
    zero of binary64). *)
Theorem marker_color_by_sign (q0 : float) :
  in_range q0 = true ->
  (marker_color q0 = "red" <-> (0 < B2R q0)%R)
  /\ (marker_color q0 = "blue" <-> (B2R q0 < 0)%R)
  /\ (marker_color q0 = "gray" <-> B2R q0 = 0%R).
Proof.
  intros Hq. apply in_range_Bnd in Hq. destruct Hq as [Hf _].
  unfold marker_color, B2R.
  rewrite FloatAxioms.ltb_spec, FloatAxioms.eqb_spec. unfold SFltb, SFeqb.
  change (Prim2SF 0) with (S754_zero false).
  destruct (Prim2SF q0) as [s|s| |s m e]; try contradiction.
  - cbn [SF2R]. destruct s; cbn; repeat split; intros H; try discriminate H; try lra; reflexivity.
  - cbn [SF2R]. rewrite F2R_cond_Zopp. pose proof (F2R_pos (Zpos m) e ltac:(lia)) as Hp.
    destruct s; cbn; repeat split; intros H; try discriminate H; try lra; reflexivity.
Qed.

Lemma marker_color_by_sign_witness :
  (marker_color (-1) = "red" <-> (0 < B2R (-1))%R)
  /\ (marker_color (-1) = "blue" <-> (B2R (-1) < 0)%R)
  /\ (marker_color (-1) = "gray" <-> B2R (-1) = 0%R).
Proof.
  apply (marker_color_by_sign (-1)). reflexivity.
Defined.

(** ** The sidebar *)

Lemma load_charges_intro (h : heap) l items cs :
  h !! l = Some (OList items) ->
  Forall2 (fun a c => h !! a = Some (ODict c)) items cs ->
  load_charges h l = Some cs.
Proof.
  intros Hl HF. unfold load_charges. rewrite Hl. apply mapM_Some.
  eapply Forall2_impl; [exact HF|]. intros a c Ha. unfold get_dict. rewrite Ha. reflexivity.
Qed.

Lemma collect_charges_map n ui : collect_charges n ui = map (charge_of ui) (seq 0 n).
Proof. reflexivity. Qed.

(** The loop of lines 22-32, from any state of the list. *)
Lemma sidebar_loop_wp (hb : heap) (charges : loc) (ui : inputs) (idx : list nat) :
  forall (h : heap) items cs,
    hb ⊆ h -> hb !! charges = None ->
    h !! charges = Some (OList items) ->
    Forall2 (fun a c => h !! a = Some (ODict c)) items cs ->
    wp (for_each idx (sidebar_body charges ui)) h
       (fun _ h' => hb ⊆ h' /\ exists items',
            h' !! charges = Some (OList items')
            /\ Forall2 (fun a c => h' !! a = Some (ODict c)) items'
                       (cs ++ map (charge_of ui) idx)).
Proof.
  induction idx as [|i idx IH]; intros h items cs Hsub Hnew Hl HF; cbn [for_each map].
  - apply wp_ret. split; [exact Hsub|]. exists items. rewrite app_nil_r. auto.
  - apply wp_bind. unfold sidebar_body.
    assert (Ec : charge_of ui i = charge_of ui i) by reflexivity.
    unfold charge_of at 1 in Ec. destruct (ui i) as [[uq ux] uy].
    apply wp_bind. apply wp_alloc. intros d Hd.
    assert (Hdc : d <> charges) by (intros ->; congruence).
    unfold list_append. apply wp_bind. eapply wp_read_list.
    { rewrite lookup_insert_ne by exact Hdc. exact Hl. }
    eapply wp_write.
    { rewrite lookup_insert_ne by exact Hdc. exact Hl. }
    replace (cs ++ charge_of ui i :: map (charge_of ui) idx)
      with ((cs ++ [charge_of ui i]) ++ map (charge_of ui) idx)
      by (rewrite <- app_assoc; reflexivity).
    apply (IH _ (items ++ [d])).
    + apply insert_subseteq_r; [exact Hnew|].
      apply insert_subseteq_r; [|exact Hsub].
      eapply fresh_below; eassumption.
    + exact Hnew.
    + apply lookup_insert_eq.
    + apply Forall2_app.
      * eapply Forall2_impl; [exact HF|]. intros a c Ha.
        rewrite lookup_insert_ne by (intros ->; congruence).
        rewrite lookup_insert_ne by (intros ->; congruence). exact Ha.
      * constructor; [|constructor].
        rewrite lookup_insert_ne by (apply not_eq_sym; exact Hdc).
        rewrite lookup_insert_eq. rewrite <- Ec. reflexivity.
Qed.

Lemma build_charges_wp (h : heap) (n : nat) (ui : inputs) :
  wp (build_charges n ui) h
     (fun l h' => h ⊆ h' /\ h !! l = None
                  /\ load_charges h' l = Some (collect_charges n ui)).
Proof.
  unfold build_charges. apply wp_bind. apply wp_alloc. intros l Hl.
  apply wp_bind. eapply wp_mono.
  - apply (sidebar_loop_wp h l ui (seq 0 n) _ [] []).
    + apply insert_subseteq_r; [exact Hl|reflexivity].
    + exact Hl.
    + apply lookup_insert_eq.
    + constructor.
  - intros u h' (Hsub & items & Hitems & HF). apply wp_ret.
    split; [exact Hsub|split; [exact Hl|]].
    rewrite collect_charges_map. eapply load_charges_intro; eassumption.
Qed.

(** The sidebar builds a new list of [num_charges] dictionaries, the
    dictionary of charge [i] at index [i], and leaves every object that
    existed before as it was. *)
Theorem sidebar_builds_charges (h : heap) (n : nat) (ui : inputs) :
  exists l h',
    build_charges n ui h = Some (l, h')
    /\ h !! l = None
    /\ (forall a o, h !! a = Some o -> h' !! a = Some o)
    /\ exists cs, load_charges h' l = Some cs
         /\ length cs = n
         /\ forall i, (i < n)%nat -> cs !! i = Some (charge_of ui i).
Proof.
  destruct (build_charges_wp h n ui) as (l & h' & Hrun & Hsub & Hnew & Hload).
  exists l, h'. split; [exact Hrun|split; [exact Hnew|split]].
  - intros a o Ha. apply (lookup_weaken _ _ _ _ Ha Hsub).
  - exists (collect_charges n ui). split; [exact Hload|].
    rewrite collect_charges_map. split; [rewrite length_map, length_seq; reflexivity|].
    intros i Hi. rewrite lookup_map, (lookup_seq_lt _ _ _ Hi). reflexivity.
Qed.

(** ** The script up to the call of the evaluator *)

Lemma widget_in_range d e :
  in_range d = true -> in_range (widget (-5.0) 5.0 d e) = true.
Proof.
  intros Hd. destruct e as [v|]; [|exact Hd]. cbn [widget].
  destruct ((-5.0 <=? v) && (v <=? 5.0))%float eqn:E; [exact E|exact Hd].
Qed.

Lemma defaults_in_range i :
  in_range (default_q i) = true /\ in_range (default_x i) = true
  /\ in_range (default_y i) = true.
Proof. destruct i as [|[|i]]; repeat split; reflexivity. Qed.

Lemma charge_of_in_range ui i : charge_in_range (charge_of ui i).
Proof.
  unfold charge_of. destruct (ui i) as [[uq ux] uy].
  destruct (defaults_in_range i) as (Dq & Dx & Dy).
  repeat split; cbn [q x y]; apply widget_in_range; assumption.
Qed.

Lemma collected_in_range n ui : Forall charge_in_range (collect_charges n ui).
Proof.
  rewrite collect_charges_map. apply List.Forall_map, List.Forall_forall.
  intros i _. apply charge_of_in_range.
Qed.

Lemma int_slider_bounds lo hi d e :
  (lo <= d <= hi)%nat -> (lo <= int_slider lo hi d e <= hi)%nat.
Proof.
  intros Hd. destruct e as [n|]; cbn [int_slider]; [|exact Hd].
  destruct ((lo <=? n) && (n <=? hi))%nat eqn:E; [|exact Hd].
  apply andb_true_iff in E as [E1 E2]. apply Nat.leb_le in E1, E2. lia.
Qed.

Lemma sidebar_then_call_wp (h : heap) (en : option nat) (ui : inputs) :
  wp (sidebar_then_call en ui) h
     (fun r h' =>
        h ⊆ h' /\ h !! r.1 = None
        /\ load_charges h' r.1 = Some (collect_charges (int_slider 1 5 2 en) ui)
        /\ load_arrays h' r.2
           = Some (Spec.field_and_potential (collect_charges (int_slider 1 5 2 en) ui) 100 5)).
Proof.
  unfold sidebar_then_call. apply wp_bind. eapply wp_mono; [apply build_charges_wp|].
  intros l h1 (Hsub & Hnew & Hload).
  destruct (calculate_spec h1 l _ 100 5 Hload) as (h2 & (r & Hrun & Hout) & Hsub2).
  apply wp_bind. exists r, h2. split; [exact Hrun|]. apply wp_ret. cbn [fst snd].
  split; [etransitivity; eassumption|split; [exact Hnew|split; [|exact Hout]]].
  apply (load_charges_weaken h1 h2); assumption.
Qed.

(** Up to and including the call of line 75 nothing can fail: for every
    state of the sidebar the charges are between one and five and in the
    widgets' range, the call of the evaluator returns, and its five arrays
    are 100 by 100 with only finite entries in [Ex], [Ey] and [V]; the
    objects that existed before are as they were.  (What the script does
    after the call is not covered.) *)
Theorem sidebar_then_call_returns (h : heap) (en : option nat) (ui : inputs) :
  exists charges r h' cs X Y Ex Ey V,
    sidebar_then_call en ui h = Some ((charges, r), h')
    /\ (forall a o, h !! a = Some o -> h' !! a = Some o)
    /\ load_charges h' charges = Some cs
    /\ (1 <= length cs <= 5)%nat /\ Forall charge_in_range cs
    /\ load_arrays h' r = Some (X, Y, Ex, Ey, V)
    /\ has_shape X 100 100 /\ has_shape Y 100 100
    /\ has_shape Ex 100 100 /\ has_shape Ey 100 100 /\ has_shape V 100 100
    /\ forall i j v,
         Numpy.at2 Ex i j = Some v \/ Numpy.at2 Ey i j = Some v \/ Numpy.at2 V i j = Some v ->
         is_finite v = true.
Proof.
  destruct (sidebar_then_call_wp h en ui) as ([charges r] & h' & Hrun & Hsub & _ & Hload & Hout).
  cbn [fst snd] in *. rewrite field_and_potential_pointwise in Hout. cbv zeta in Hout.
  pose proof (int_slider_bounds 1 5 2 en ltac:(lia)) as Hn.
  assert (Hlen : length (collect_charges (int_slider 1 5 2 en) ui) = int_slider 1 5 2 en).
  { rewrite collect_charges_map, length_map, length_seq. reflexivity. }
  pose proof (collected_in_range (int_slider 1 5 2 en) ui) as Hcs.
  assert (HS : forall f, has_shape (Spec.tabulate (Numpy.linspace (- 5) 5 100)
                                                  (Numpy.linspace (- 5) 5 100) f) 100 100).
  { intros f. pose proof (tabulate_shape (Numpy.linspace (- 5) 5 100)
                                         (Numpy.linspace (- 5) 5 100) f) as H.
    rewrite linspace_length in H. exact H. }
  eexists charges, r, h', _, _, _, _, _, _.
  split; [exact Hrun|]. split; [intros a o Ha; apply (lookup_weaken _ _ _ _ Ha Hsub)|].
  split; [exact Hload|]. split; [rewrite Hlen; exact Hn|]. split; [exact Hcs|].
  split; [exact Hout|].
  repeat (split; [apply HS|]).
  intros i j v [Hv|[Hv|Hv]];
    (eapply (tables_finite _ 100 5); [| | | | |exact Hv]);
    [left; reflexivity| | | | |right; left; reflexivity| | | | |right; right; reflexivity| | | |];
    first [exact Hcs | reflexivity | rewrite Hlen; lia].
Qed.

(** The grid of the script's call: every row of [X] and every column of [Y] is
    the same list of 100 samples, which starts at [-5], ends at [5] and
    strictly increases in between. *)
Theorem script_grid (h : heap) (en : option nat) (ui : inputs) :
  exists charges r h' X Y Ex Ey V xs,
    sidebar_then_call en ui h = Some ((charges, r), h')
    /\ load_arrays h' r = Some (X, Y, Ex, Ey, V)
    /\ length xs = 100%nat
    /\ xs !! 0%nat = Some (-5)%float /\ xs !! 99%nat = Some 5%float
    /\ increasing xs = true
    /\ forall i j, (i < 100)%nat -> (j < 100)%nat ->
         Numpy.at2 X i j = xs !! j /\ Numpy.at2 Y i j = xs !! i.
Proof.
  destruct (sidebar_then_call_wp h en ui) as ([charges r] & h' & Hrun & _ & _ & _ & Hout).
  cbn [fst snd] in *. rewrite field_and_potential_pointwise in Hout. cbv zeta in Hout.
  eexists charges, r, h', _, _, _, _, _, (Numpy.linspace (- 5) 5 100).
  split; [exact Hrun|]. split; [exact Hout|].
  split; [apply linspace_length|].
  split; [vm_compute; reflexivity|]. split; [vm_compute; reflexivity|].
  split; [vm_compute; reflexivity|].
  intros i j Hi Hj.
  destruct (lookup_lt_is_Some_2 (Numpy.linspace (- 5) 5 100) i) as [py Hpy];
    [rewrite linspace_length; exact Hi|].
  destruct (lookup_lt_is_Some_2 (Numpy.linspace (- 5) 5 100) j) as [px Hpx];
    [rewrite linspace_length; exact Hj|].
  rewrite !(at2_tabulate _ _ _ i j px py Hpx Hpy), Hpx, Hpy. split; reflexivity.
Qed.

(** ** The contour levels *)

(** For a finite, non-zero [v_max] (of magnitude at most [2^1022]) there
    are 40 levels, the first [-v_max] itself and the last [v_max] itself. *)
Theorem levels_span (v_max : float) :
  Bnd 1022 v_max -> (v_max =? 0)%float = false ->
  length (levels v_max) = 40%nat
  /\ levels v_max !! 0%nat = Some (- v_max)%float
  /\ levels v_max !! 39%nat = Some v_max.
Proof.
  intros Hv Hnz. unfold levels. split; [apply linspace_length|]. split.
  - apply (linspace_first 1022); try assumption.
    + apply opp_Bnd, Hv.
    + unfold emin. lia.
    + apply opp_nonzero, neqb_0_nonzero, Hnz.
    + lia.
    + vm_compute; reflexivity.
  - apply (linspace_last _ _ 40). lia.
Qed.

Lemma levels_span_witness :
  length (levels 1) = 40%nat
  /\ levels 1 !! 0%nat = Some (- 1)%float
  /\ levels 1 !! 39%nat = Some 1%float.
Proof.
  apply (levels_span 1).
  - apply Bnd_weaken with 1%Z; [apply (Prim2SF_Bnd 1 false 4503599627370496 (-52)); reflexivity|lia].
  - reflexivity.
Defined.

(** When [v_max] is zero, the 40 levels are all zero: they do not
    increase. *)
Theorem levels_degenerate (v_max : float) :
  (v_max =? 0)%float = true ->
  length (levels v_max) = 40%nat
  /\ Forall (fun level => (level =? 0)%float = true) (levels v_max).
Proof.
  intros Hz. split; [apply linspace_length|].
  apply eqb_zero in Hz as [s Hs].
  assert (E : v_max = 0%float \/ v_max = (-0)%float).
  { destruct s; [right|left]; apply Prim2SF_inj; rewrite Hs; reflexivity. }
  destruct E as [-> | ->]; vm_compute; repeat constructor.
Qed.

Lemma levels_degenerate_witness :
  length (levels 0) = 40%nat
  /\ Forall (fun level => (level =? 0)%float = true) (levels 0).
Proof.
  apply (levels_degenerate 0). reflexivity.
Defined.

(** ** Flipping the sign of every charge *)

Lemma contribution_negate c px py :
  Spec.Ex_of (negate c) px py = (- Spec.Ex_of c px py)%float
  /\ Spec.Ey_of (negate c) px py = (- Spec.Ey_of c px py)%float
  /\ Spec.V_of (negate c) px py = (- Spec.V_of c px py)%float.
Proof.
  unfold Spec.Ex_of, Spec.Ey_of, Spec.V_of, Spec.E_mag, negate. cbn [q x y].
  rewrite !mul_opp_r, !div_opp_l, !mul_opp_l. auto.
Qed.

Lemma zero_dec v : zero v \/ ~ zero v.
Proof.
  unfold zero. destruct (Prim2SF v) as [s|s| |s m e]; eauto;
    right; intros [s' H]; discriminate H.
Qed.

Lemma mirror_add a a' c :
  is_fin (Prim2SF a) -> is_fin (Prim2SF c) ->
  mirror a a' -> mirror (a + c)%float (a' + - c)%float.
Proof.
  intros Fa Fc [-> | [Za Za']].
  - destruct (add_opp_opp a c Fa Fc) as [E|E]; [left; exact E|right; exact E].
  - destruct (zero_dec c) as [Zc|Nc].
    + right. split; apply add_zero_zero; try assumption. apply opp_zero, Zc.
    + left. rewrite (add_zero_nonzero_l a c Za Nc).
      apply add_zero_nonzero_l; [exact Za'|apply opp_nonzero, Nc].
Qed.

Lemma superpose_negate f cs px py :
  (forall c, f (negate c) px py = (- f c px py)%float) ->
  Forall (fun c => Bnd 55 (f c px py)) cs -> (length cs <= 900)%nat ->
  mirror (Spec.superpose f cs px py) (Spec.superpose f (map negate cs) px py).
Proof.
  intros Hf. induction cs as [|c cs IH] using rev_ind; intros HF Hn.
  - right. split; apply zero_0.
  - rewrite length_app in Hn. cbn [length] in Hn.
    apply Forall_app in HF as [HF Hc]. apply Forall_inv in Hc.
    rewrite map_app, !superpose_app. cbn [map fold_left]. rewrite Hf.
    apply mirror_add; [|apply (Bnd_fin _ _ Hc)|apply IH; [exact HF|lia]].
    apply (Bnd_fin (55 + Z.of_nat (length cs))).
    apply superpose_Bnd; [exact HF|unfold emin; lia|lia].
Qed.

Lemma mirror_B2R a a' : mirror a a' -> B2R a' = (- B2R a)%R.
Proof.
  intros [-> | [[s Hs] [s' Hs']]]; [apply B2R_opp|].
  unfold B2R. rewrite Hs, Hs'. cbn [SF2R]. lra.
Qed.

Lemma negate_Bnd (f : Charge -> float -> float -> float) cs px py :
  (forall c, f (negate c) px py = (- f c px py)%float) ->
  Forall (fun c => Bnd 55 (f c px py)) cs ->
  Forall (fun c => Bnd 55 (f c px py)) (map negate cs).
Proof.
  intros Hf H. apply List.Forall_map. eapply Forall_impl; [exact H|].
  intros c Hc. cbn beta. rewrite Hf. apply opp_Bnd, Hc.
Qed.

(** Flipping the sign of every charge flips [Ex], [Ey] and [V]: the two
    calls return the same [X] and [Y], and opposite values, exactly, in
    every entry of the three other arrays. *)
Theorem charge_conjugation (h1 h2 : heap) (l1 l2 : loc) (cs : list Charge)
    (G : nat) (R : float) :
  load_charges h1 l1 = Some cs -> load_charges h2 l2 = Some (map negate cs) ->
  Forall charge_in_range cs -> (length cs <= 900)%nat ->
  in_range R = true -> (Z.of_nat G < 2 ^ 63)%Z ->
  exists h1' h2' X Y Ex Ey V Ex' Ey' V',
    returns h1 l1 G R h1' (X, Y, Ex, Ey, V)
    /\ returns h2 l2 G R h2' (X, Y, Ex', Ey', V')
    /\ opposite_entries Ex Ex' /\ opposite_entries Ey Ey' /\ opposite_entries V V'.
Proof.
  intros Hl1 Hl2 Hcs Hn HR HG.
  destruct (returns_tables h1 l1 _ G R Hl1) as (h1' & Hr1).
  destruct (returns_tables h2 l2 _ G R Hl2) as (h2' & Hr2).
  eexists h1', h2', _, _, _, _, _, _, _, _. split; [exact Hr1|split; [exact Hr2|]].
  assert (Hop : forall f, (f = Spec.Ex_of \/ f = Spec.Ey_of \/ f = Spec.V_of) ->
    opposite_entries
      (Spec.tabulate (Numpy.linspace (- R) R G) (Numpy.linspace (- R) R G) (Spec.superpose f cs))
      (Spec.tabulate (Numpy.linspace (- R) R G) (Numpy.linspace (- R) R G)
                     (Spec.superpose f (map negate cs)))).
  { intros f Hf i j v Hv.
    pose proof (tables_finite cs G R f Hf Hcs Hn HR HG i j v Hv) as Fv.
    apply at2_tabulate_inv in Hv as (px & py & Hj & Hi & ->).
    rewrite (at2_tabulate _ _ _ i j px py Hj Hi). eexists. split; [reflexivity|].
    split; [exact Fv|].
    assert (Hpx : Bnd 6 px) by (eapply grid_sample_Bnd; eauto using lookup_In).
    assert (Hpy : Bnd 6 py) by (eapply grid_sample_Bnd; eauto using lookup_In).
    destruct (contributions_Bnd cs px py Hcs Hpx Hpy) as (Bx & By & BV).
    assert (Hn' : (length (map negate cs) <= 900)%nat) by (rewrite length_map; exact Hn).
    assert (Hneg : forall c, f (negate c) px py = (- f c px py)%float).
    { intros c. destruct Hf as [->|[->| ->]]; apply contribution_negate. }
    assert (HB : Forall (fun c => Bnd 55 (f c px py)) cs).
    { destruct Hf as [->|[->| ->]]; assumption. }
    split.
    - apply superpose_finite; [apply negate_Bnd; assumption|exact Hn'].
    - apply mirror_B2R, superpose_negate; assumption. }
  repeat split; apply Hop; auto.
Qed.

Lemma charge_conjugation_witness :
  exists h1' h2' X Y Ex Ey V Ex' Ey' V',
    returns dipole_heap dipole_loc 3 5 h1' (X, Y, Ex, Ey, V)
    /\ returns (fst (store_charges dipole_negated)) (snd (store_charges dipole_negated)) 3 5 h2'
               (X, Y, Ex', Ey', V')
    /\ opposite_entries Ex Ex' /\ opposite_entries Ey Ey' /\ opposite_entries V V'.
Proof.
  apply (charge_conjugation dipole_heap (fst (store_charges dipole_negated)) dipole_loc
           (snd (store_charges dipole_negated)) dipole 3 5).
  - vm_compute; reflexivity.
  - vm_compute; reflexivity.
  - repeat constructor.
  - simpl; lia.
  - reflexivity.
  - vm_compute; reflexivity.
Defined.

(** ** The two guards switch on together *)

Lemma guards_agree r2 :
  nonneg r2 ->
  (PrimFloat.sqrt r2 <? Consts.r_min)%float = (r2 <? Consts.r2_min)%float.
Proof.
  intros Hn. destruct r_min_facts as (Hrn & _ & Hrf). destruct r2_min_facts as (_ & _ & Hr2f).
  destruct (r2 <? Consts.r2_min)%float eqn:E.
  - assert (Hle : (r2 <=? next_down Consts.r2_min)%float = true).
    { apply (ltb_leb_pred r2 Consts.r2_min _ 5764607523034235 (-59)); try assumption.
      - apply Prim2SF_r2_min.
      - reflexivity.
      - reflexivity. }
    assert (Hp : nonneg (next_down Consts.r2_min)) by reflexivity.
    pose proof (sqrt_mono _ _ Hn Hp Hle) as Hs.
    apply (leb_ltb_trans _ (PrimFloat.sqrt (next_down Consts.r2_min))); try assumption.
    + apply sqrt_nonneg, Hn.
    + reflexivity.
  - apply leb_not_ltb; [exact Hrf|].
    pose proof (not_ltb_leb _ _ Hr2f (nonneg_not_nan _ Hn) E) as Hle.
    assert (Hm : nonneg Consts.r2_min) by apply r2_min_facts.
    exact (sqrt_mono _ _ Hm Hn Hle).
Qed.

(** The guards [r[r < 0.1] = 0.1] and [r2[r2 < 0.01] = 0.01] act on the
    same entries.  The iteration of the loop for a charge [c] with
    coordinates in the sidebar's range, run after the charges [cs]: at
    every grid point, either [r2 < 0.01] and [r < 0.1] both hold, and what
    the call on [cs ++ [c]] returns is what the call on [cs] returns plus
    [k*q/0.01 * (dx/0.1)], [k*q/0.01 * (dy/0.1)] and [k*q/0.1]; or neither
    holds, and the increments are [k*q/r2 * (dx/r)], [k*q/r2 * (dy/r)] and
    [k*q/r] with [r2] and [r] as computed.  (In binary64 the square root of
    the double [0.01] is the double [0.1].) *)
Theorem guards_fire_together (h1 h2 : heap) (l1 l2 : loc) (cs : list Charge) (c : Charge)
    (G : nat) (R : float) :
  load_charges h1 l1 = Some (cs ++ [c]) -> load_charges h2 l2 = Some cs ->
  in_range (x c) = true -> in_range (y c) = true ->
  in_range R = true -> (Z.of_nat G < 2 ^ 63)%Z ->
  exists h1' h2' X Y Ex Ey V Ex' Ey' V',
    returns h2 l2 G R h2' (X, Y, Ex, Ey, V)
    /\ returns h1 l1 G R h1' (X, Y, Ex', Ey', V')
    /\ forall i j, (i < G)%nat -> (j < G)%nat ->
         exists px py ex ey v,
           Numpy.at2 X i j = Some px /\ Numpy.at2 Y i j = Some py
           /\ Numpy.at2 Ex i j = Some ex /\ Numpy.at2 Ey i j = Some ey
           /\ Numpy.at2 V i j = Some v
           /\ let dx := (px - x c)%float in
              let dy := (py - y c)%float in
              let r2 := (dx * dx + dy * dy)%float in
              let r := PrimFloat.sqrt r2 in
              let kq := (Consts.k * q c)%float in
              ((r2 <? Consts.r2_min)%float = true /\ (r <? Consts.r_min)%float = true
               /\ Numpy.at2 Ex' i j
                  = Some (ex + kq / Consts.r2_min * (dx / Consts.r_min))%float
               /\ Numpy.at2 Ey' i j
                  = Some (ey + kq / Consts.r2_min * (dy / Consts.r_min))%float
               /\ Numpy.at2 V' i j = Some (v + kq / Consts.r_min)%float)
              \/ ((r2 <? Consts.r2_min)%float = false /\ (r <? Consts.r_min)%float = false
                  /\ Numpy.at2 Ex' i j = Some (ex + kq / r2 * (dx / r))%float
                  /\ Numpy.at2 Ey' i j = Some (ey + kq / r2 * (dy / r))%float
                  /\ Numpy.at2 V' i j = Some (v + kq / r)%float).
Proof.
  intros Hl1 Hl2 Hx Hy HR HG.
  destruct (returns_tables h1 l1 _ G R Hl1) as (h1' & Hr1).
  destruct (returns_tables h2 l2 _ G R Hl2) as (h2' & Hr2).
  eexists h1', h2', _, _, _, _, _, _, _, _. split; [exact Hr2|split; [exact Hr1|]].
  intros i j Hi Hj. destruct (grid_entries R G i j Hi Hj) as (px & py & Hpx & Hpy).
  rewrite !(at2_tabulate _ _ _ i j px py Hpx Hpy).
  eexists px, py, _, _, _. repeat (split; [reflexivity|]).
  cbv zeta. rewrite !superpose_app. cbn [fold_left].
  assert (B6 : forall w, in_range w = true -> Bnd 6 w).
  { intros w Hw. apply Bnd_weaken with 3%Z; [apply in_range_Bnd, Hw|lia]. }
  assert (Bpx : Bnd 6 px) by (eapply grid_sample_Bnd; eauto using lookup_In).
  assert (Bpy : Bnd 6 py) by (eapply grid_sample_Bnd; eauto using lookup_In).
  assert (H2 : nonneg (Spec.dist2 (x c) (y c) px py))
    by (apply (dist2_nonneg 6); first [apply B6; assumption | assumption | lia]).
  pose proof (guards_agree _ H2) as Hg.
  unfold Spec.Ex_of, Spec.Ey_of, Spec.V_of, Spec.E_mag, Spec.clamp_r, Spec.clamp_r2, Spec.dist.
  unfold Spec.dist2 in *. rewrite Hg.
  destruct ((px - x c) * (px - x c) + (py - y c) * (py - y c) <? Consts.r2_min)%float;
    [left|right]; repeat split.
Qed.

Lemma guards_fire_together_witness :
  exists h1' h2' X Y Ex Ey V Ex' Ey' V',
    returns dipole_heap dipole_loc 3 5 h2' (X, Y, Ex, Ey, V)
    /\ returns (fst (store_charges three_defaults)) (snd (store_charges three_defaults)) 3 5 h1'
               (X, Y, Ex', Ey', V')
    /\ forall i j, (i < 3)%nat -> (j < 3)%nat ->
         exists px py ex ey v,
           Numpy.at2 X i j = Some px /\ Numpy.at2 Y i j = Some py
           /\ Numpy.at2 Ex i j = Some ex /\ Numpy.at2 Ey i j = Some ey
           /\ Numpy.at2 V i j = Some v
           /\ let dx := (px - 0)%float in
              let dy := (py - 0)%float in
              let r2 := (dx * dx + dy * dy)%float in
              let r := PrimFloat.sqrt r2 in
              let kq := (Consts.k * 1)%float in
              ((r2 <? Consts.r2_min)%float = true /\ (r <? Consts.r_min)%float = true
               /\ Numpy.at2 Ex' i j
                  = Some (ex + kq / Consts.r2_min * (dx / Consts.r_min))%float
               /\ Numpy.at2 Ey' i j
                  = Some (ey + kq / Consts.r2_min * (dy / Consts.r_min))%float
               /\ Numpy.at2 V' i j = Some (v + kq / Consts.r_min)%float)
              \/ ((r2 <? Consts.r2_min)%float = false /\ (r <? Consts.r_min)%float = false
                  /\ Numpy.at2 Ex' i j = Some (ex + kq / r2 * (dx / r))%float
                  /\ Numpy.at2 Ey' i j = Some (ey + kq / r2 * (dy / r))%float
                  /\ Numpy.at2 V' i j = Some (v + kq / r)%float).
Proof.
  apply (guards_fire_together
           (fst (store_charges three_defaults)) dipole_heap
           (snd (store_charges three_defaults)) dipole_loc
           dipole {| q := 1; x := 0; y := 0 |} 3 5).
  - vm_compute; reflexivity.
  - vm_compute; reflexivity.
  - reflexivity.
  - reflexivity.
  - reflexivity.
  - vm_compute; reflexivity.
Defined.
